(** * ckb-daemon: frame scheduler, USB queue sweep, shutdown and signals

    A shallow embedding of [src/ckb-daemon/main.c]: the timespec helper,
    the command-line and start-up path of [main] with [localecase] and
    the choice of a keyboard layout, the frame loop, the shutdown routine
    [quit] and the two signal handlers; and of the angle that
    [src/ckb-pinwheel/main.c] computes for a key, in binary64 and
    binary32 arithmetic.

    C integers are [Z]; [/] and [%] on them are [Z.quot] and [Z.rem]
    (C99 truncation), and the 64-bit [long] / [time_t] arithmetic of
    [timespec_add] is wrapped explicitly.  Code that touches the device
    table is written in a small state-and-trace monad: every call that
    leaves [main.c] (pthread, USB, FIFO helpers) appends one [event]. *)

From Stdlib Require Import Floats ZArith Lia Bool List Ascii String.
From stdpp Require Import base list strings.

(** ** Part I. Definitions *)

(** *** [struct timespec] and the frame interval *)

Section Clock.
Local Open Scope Z_scope.

Record timespec := { tv_sec : Z; tv_nsec : Z }.

(** Two's-complement 64-bit [long] (LP64), as [timespec_add] uses it. *)
Definition wrap_long (z : Z) : Z := (z + 2 ^ 63) mod 2 ^ 64 - 2 ^ 63.

(** [void timespec_add(struct timespec* timespec, long nanoseconds)] *)
Definition timespec_add (ts : timespec) (nanoseconds : Z) : timespec :=
  let nanoseconds := wrap_long (nanoseconds + tv_nsec ts) in
  {| tv_sec := wrap_long (tv_sec ts + Z.quot nanoseconds 1000000000);
     tv_nsec := Z.rem nanoseconds 1000000000 |}.

(** Modelled from the spec: the comparison [timespec_gt] (its header is
    not part of the sources); section 4.1 has the deadline compared with
    [now + 100us] as points in time, i.e. seconds first, then
    nanoseconds. *)
Definition timespec_gt (left right : timespec) : bool :=
  (tv_sec right <? tv_sec left)
  || ((tv_sec left =? tv_sec right) && (tv_nsec right <? tv_nsec left)).

(** [1000000000 / fps / (v120 ? 12 : 5)] *)
Definition packets_per_frame (v120 : bool) : Z := if v120 then 12 else 5.

Definition frame_interval (fps : Z) (v120 : bool) : Z :=
  Z.quot (Z.quot 1000000000 fps) (packets_per_frame v120).

(** The tail of the loop body: [time] is the reading taken when the
    iteration started, [now] the one taken after the sweep.  The result
    is the absolute time handed to [clock_nanosleep]. *)
Definition wake_deadline (fps : Z) (v120 : bool) (time now : timespec) : timespec :=
  let nexttime := time in
  let nexttime := timespec_add nexttime (frame_interval fps v120) in
  let time := now in
  let time := timespec_add time 100000 in
  if timespec_gt nexttime time then nexttime else time.

(** A point in time as a number of nanoseconds. *)
Definition to_ns (ts : timespec) : Z := tv_sec ts * 1000000000 + tv_nsec ts.

(** A normalised value, and what [clock_gettime] returns: a normalised
    reading whose seconds are far from the end of [time_t]. *)
Definition normalised (ts : timespec) : Prop := 0 <= tv_nsec ts < 1000000000.

Definition clock_reading (ts : timespec) : Prop :=
  0 <= tv_sec ts < 2 ^ 62 /\ normalised ts.

End Clock.

(** *** The device table and the calls that leave [main.c] *)

(** A pthread mutex as seen from the running thread. *)
Inductive owner := Free | Self | Other.

(** [struct usbdevice]: the members [main.c] reads, and [rest] for all
    the others together with the hardware behind the handle.

    Modelled from the spec: the macro [IS_CONNECTED] (its header is not
    part of the sources) reads the [connected] flag of section 3. *)
Record usbdevice (H : Type) := {
  connected : bool;
  infifo : Z;
  queuecount : Z;
  fwversion : Z;
  model : Z;
  features : Z;
  rest : H }.

Arguments connected {H} _.
Arguments infifo {H} _.
Arguments queuecount {H} _.
Arguments fwversion {H} _.
Arguments model {H} _.
Arguments features {H} _.
Arguments rest {H} _.

(** The locks of the program: [kblistmutex] and [keyboard[i].mutex]. *)
Inductive lock_id := ListLock | DevLock (i : nat).

(** One constructor per call that leaves [main.c]; [EvQueuecount] and
    [EvFwversion] for the values of [keyboard[i].queuecount] and
    [keyboard[i].fwversion] read on lines 240 and 247. *)
Inductive event :=
| EvLock (l : lock_id)
| EvTimedLock (l : lock_id) (acquired : bool)
| EvUnlock (l : lock_id)
| EvReadlines (i : nat) (lines : list string)
| EvReadcmd (i : nat) (lines : list string)
| EvDequeue (i : nat) (ret : Z)
| EvTryReset (i : nat) (ret : Z)
| EvCloseUsb (i : nat)
| EvUpdateIndicators (i : nat)
| EvInputClose (i : nat)
| EvRevertUsb (i : nat)
| EvUsbDeinit
| EvQueuecount (i : nat) (count : Z)
| EvFwversion (i : nat) (version : Z)
| EvNanosleep (deadline : timespec).

(** The functions [main.c] calls but does not define, as an interface:
    each works on the slot it is handed.  [OS_MAC] is the build switch
    that turns [pthread_mutex_timedlock] into [pthread_mutex_lock]. *)
Class Helpers (H : Type) := {
  OS_MAC : bool;
  zero_rest : H;
  usbdequeue : usbdevice H -> Z * usbdevice H;
  usb_tryreset : usbdevice H -> Z * usbdevice H;
  readcmd : usbdevice H -> list string -> usbdevice H;
  updateindicators : usbdevice H -> usbdevice H;
  inputclose : usbdevice H -> usbdevice H;
  revertusb : usbdevice H -> usbdevice H }.

(** The daemon's globals, together with the one local of [main] that
    lives across iterations ([v120]) and the unread complete lines of
    every slot's command FIFO ([fifo], oldest first). *)
Record daemon (H : Type) := {
  keyboard : list (usbdevice H);
  mutex : nat -> owner;
  kblistmutex : owner;
  fifo : nat -> list string;
  fps : Z;
  v120 : bool }.

Arguments keyboard {H} _.
Arguments mutex {H} _.
Arguments kblistmutex {H} _.
Arguments fifo {H} _.
Arguments fps {H} _.
Arguments v120 {H} _.

Definition fupd {A : Type} (f : nat -> A) (i : nat) (x : A) : nat -> A :=
  fun j => if Nat.eqb j i then x else f j.

Section Daemon.
Context {H : Type} {helpers : Helpers H}.

Local Abbreviation device := (usbdevice H).
Local Abbreviation state := (daemon H).

(** State and trace: a computation returns its result, the new state and
    the events it produced, oldest first. *)
Definition M (A : Type) : Type := state -> A * state * list event.

Definition ret {A : Type} (a : A) : M A := fun s => (a, s, []).

Definition bind {A B : Type} (c : M A) (k : A -> M B) : M B :=
  fun s =>
    let '(a, s1, t1) := c s in
    let '(b, s2, t2) := k a s1 in
    (b, s2, t1 ++ t2).

Local Notation "x <- c ;; k" := (bind c (fun x => k))
  (at level 100, c at next level, right associativity).
Local Notation "c ;;; k" := (bind c (fun _ => k))
  (at level 100, right associativity).

Fixpoint for_each (idx : list nat) (body : nat -> M unit) : M unit :=
  match idx with
  | [] => ret tt
  | i :: idx' => body i ;;; for_each idx' body
  end.

Definition when (b : bool) (c : M unit) : M unit := if b then c else ret tt.

(** An all-zero slot: what [memset] on line 199 leaves in every entry. *)
Definition zero_slot : device :=
  {| connected := false; infifo := 0; queuecount := 0; fwversion := 0;
     model := 0; features := 0; rest := zero_rest |}.

Definition IS_CONNECTED (kb : device) : bool := connected kb.

Definition DEV_MAX (s : state) : nat := length (keyboard s).

(** [keyboard[i]]; the loops only use [i < DEV_MAX]. *)
Definition slot (s : state) (i : nat) : device := default zero_slot (keyboard s !! i).

Definition get_slot (i : nat) : M device := fun s => (slot s i, s, []).

Definition set_keyboard (k : list device) (s : state) : state :=
  {| keyboard := k; mutex := mutex s; kblistmutex := kblistmutex s;
     fifo := fifo s; fps := fps s; v120 := v120 s |}.

Definition set_mutex (l : lock_id) (o : owner) (s : state) : state :=
  match l with
  | ListLock =>
      {| keyboard := keyboard s; mutex := mutex s; kblistmutex := o;
         fifo := fifo s; fps := fps s; v120 := v120 s |}
  | DevLock i =>
      {| keyboard := keyboard s; mutex := fupd (mutex s) i o;
         kblistmutex := kblistmutex s;
         fifo := fifo s; fps := fps s; v120 := v120 s |}
  end.

Definition get_mutex (s : state) (l : lock_id) : owner :=
  match l with ListLock => kblistmutex s | DevLock i => mutex s i end.

Definition set_fifo (f : nat -> list string) (s : state) : state :=
  {| keyboard := keyboard s; mutex := mutex s; kblistmutex := kblistmutex s;
     fifo := f; fps := fps s; v120 := v120 s |}.

Definition set_v120 (b : bool) (s : state) : state :=
  {| keyboard := keyboard s; mutex := mutex s; kblistmutex := kblistmutex s;
     fifo := fifo s; fps := fps s; v120 := b |}.

(** [pthread_mutex_lock] returns once the caller owns the mutex. *)
Definition pthread_mutex_lock (l : lock_id) : M unit :=
  fun s => (tt, set_mutex l Self s, [EvLock l]).

(** [pthread_mutex_unlock] gives up a mutex the caller owns; on a mutex
    it does not own the call is an error and changes nothing. *)
Definition pthread_mutex_unlock (l : lock_id) : M unit :=
  fun s =>
    (tt, match get_mutex s l with Self => set_mutex l Free s | _ => s end,
     [EvUnlock l]).

(** [pthread_mutex_timedlock]: a free mutex is taken at once; one that
    stays held times out and is left as it was.  Under [OS_MAC] the
    macro on line 18 makes it a plain lock. *)
Definition pthread_mutex_timedlock (l : lock_id) : M unit :=
  fun s =>
    if OS_MAC then (tt, set_mutex l Self s, [EvTimedLock l true])
    else match get_mutex s l with
         | Free => (tt, set_mutex l Self s, [EvTimedLock l true])
         | _ => (tt, s, [EvTimedLock l false])
         end.

(** A helper that returns a status, called on [keyboard + i]. *)
Definition call_status (f : device -> Z * device) (ev : nat -> Z -> event)
    (i : nat) : M Z :=
  fun s =>
    let '(r, kb) := f (slot s i) in
    (r, set_keyboard (<[i := kb]> (keyboard s)) s, [ev i r]).

(** A helper whose result is not used, called on [keyboard + i]. *)
Definition call_void (f : device -> device) (ev : nat -> event) (i : nat) : M unit :=
  fun s => (tt, set_keyboard (<[i := f (slot s i)]> (keyboard s)) s, [ev i]).

(** Modelled from the spec: [readlines] (not part of the sources) hands
    over every complete line waiting on the slot's command FIFO, in
    arrival order, and leaves none of them behind (section 4.3); its
    status is non-zero exactly when there is at least one. *)
Definition readlines (i : nat) : M (list string) :=
  fun s => (fifo s i, set_fifo (fupd (fifo s) i []) s, [EvReadlines i (fifo s i)]).

(** Modelled from the spec: [closeusb] (not part of the sources) releases
    the device and marks the slot Empty (sections 3 and 4.2), i.e. puts
    it back in the all-zero state it had after line 199, the mutex member
    included. *)
Definition closeusb (i : nat) : M unit :=
  fun s =>
    (tt, set_mutex (DevLock i) Free (set_keyboard (<[i := zero_slot]> (keyboard s)) s),
     [EvCloseUsb i]).

Definition usbdeinit : M unit := fun s => (tt, s, [EvUsbDeinit]).

(** [if(readlines(kb->infifo, &line)) readcmd(kb, line);] *)
Definition read_and_apply (i : nat) : M unit :=
  lines <- readlines i ;;
  match lines with
  | [] => ret tt
  | _ => call_void (fun kb => readcmd kb lines) (fun i => EvReadcmd i lines) i
  end.

(** Lines 226-230: the root controller's FIFO. *)
Definition root_fifo : M unit :=
  kb <- get_slot 0 ;;
  when (negb (infifo kb =? 0)%Z) (read_and_apply 0).

(** Lines 243-249: the body of the inner loop. *)
Definition fifo_slot (i : nat) : M unit :=
  kb <- get_slot i ;;
  when (negb (infifo kb =? 0)%Z)
    (read_and_apply i ;;;
     kb <- get_slot i ;;
     (fun s => (tt, s, [EvFwversion i (fwversion kb)])) ;;;
     when (0x0120 <=? fwversion kb)%Z (fun s => (tt, set_v120 true s, []))).

(** Lines 242-250: the inner loop. *)
Definition process_fifos : M unit :=
  fun s => for_each (seq 0 (DEV_MAX s)) fifo_slot s.

(** Lines 233-257: the body of the outer loop. *)
Definition sweep_slot (i : nat) : M unit :=
  kb <- get_slot i ;;
  when (IS_CONNECTED kb)
    (pthread_mutex_lock (DevLock i) ;;;
     sent <- call_status usbdequeue EvDequeue i ;;
     stuck <- (if (sent =? 0)%Z
               then r <- call_status usb_tryreset EvTryReset i ;; ret (negb (r =? 0)%Z)
               else ret false) ;;
     if stuck then closeusb i
     else
       kb <- get_slot i ;;
       (fun s => (tt, s, [EvQueuecount i (queuecount kb)])) ;;;
       when (queuecount kb =? 0)%Z
         (process_fifos ;;; call_void updateindicators EvUpdateIndicators i) ;;;
       pthread_mutex_unlock (DevLock i)).

(** Lines 232-258: the outer loop. *)
Definition sweep : M unit :=
  fun s => for_each (seq 0 (DEV_MAX s)) sweep_slot s.

(** Lines 223-269: one iteration of [while(1)].  [time] and [now] are the
    two readings of the monotonic clock; the result is the time the
    iteration sleeps until. *)
Definition tick (time now : timespec) : M timespec :=
  pthread_mutex_lock ListLock ;;;
  root_fifo ;;;
  sweep ;;;
  pthread_mutex_unlock ListLock ;;;
  fun s =>
    let deadline := wake_deadline (fps s) (v120 s) time now in
    (deadline, s, [EvNanosleep deadline]).

(** The multiplier a state stands for in line 262. *)
Definition multiplier (s : state) : Z := packets_per_frame (v120 s).

(** Lines 27-33: the body of the loop in [quit]. *)
Definition quit_slot (i : nat) : M unit :=
  kb <- get_slot i ;;
  when (IS_CONNECTED kb)
    (pthread_mutex_timedlock (DevLock i) ;;;
     call_void inputclose EvInputClose i ;;;
     call_void revertusb EvRevertUsb i ;;;
     closeusb i).

(** [void quit()] *)
Definition quit : M unit :=
  pthread_mutex_timedlock ListLock ;;;
  (fun s => for_each (seq 1 (DEV_MAX s - 1)) quit_slot s) ;;;
  pthread_mutex_timedlock (DevLock 0) ;;;
  closeusb 0 ;;;
  usbdeinit ;;;
  pthread_mutex_unlock ListLock.

(** The three components of a run. *)
Definition value_of {A : Type} (r : A * state * list event) : A := fst (fst r).
Definition state_of {A : Type} (r : A * state * list event) : state := snd (fst r).
Definition trace_of {A : Type} (r : A * state * list event) : list event := snd r.

(** A relation between the state before, the state after and the trace
    of a computation that is kept by doing nothing and by running one
    computation after another. *)
Definition sequential (R : state -> state -> list event -> Prop) : Prop :=
  (forall s, R s s [])
  /\ (forall s1 s2 s3 t1 t2, R s1 s2 t1 -> R s2 s3 t2 -> R s1 s3 (t1 ++ t2)).

Definition run_in {A : Type} (R : state -> state -> list event -> Prop)
    (c : M A) : Prop :=
  forall s, R s (state_of (c s)) (trace_of (c s)).

End Daemon.

(** *** Reading traces *)

(** The lines handed to [readcmd] for slot [k], in the order of the calls. *)
Fixpoint applied (k : nat) (tr : list event) : list string :=
  match tr with
  | [] => []
  | EvReadcmd i lines :: tr' =>
      if Nat.eqb i k then lines ++ applied k tr' else applied k tr'
  | _ :: tr' => applied k tr'
  end.

(** The number of [usbdequeue] calls on slot [k]. *)
Fixpoint sends (k : nat) (tr : list event) : nat :=
  match tr with
  | [] => 0
  | EvDequeue i _ :: tr' => (if Nat.eqb i k then 1 else 0) + sends k tr'
  | _ :: tr' => sends k tr'
  end.

(** Whether line 247 saw a firmware version of at least 0x0120. *)
Definition fw_seen (tr : list event) : bool :=
  existsb (fun e => match e with
                    | EvFwversion _ v => (0x0120 <=? v)%Z
                    | _ => false
                    end) tr.

(** Whether [updateindicators] was reached, i.e. the block of lines
    241-253 ran for some device. *)
Definition fifo_pass_ran (tr : list event) : bool :=
  existsb (fun e => match e with EvUpdateIndicators _ => true | _ => false end) tr.

(** Whether line 240 found the outgoing queue of some device empty. *)
Definition queue_seen_empty (tr : list event) : bool :=
  existsb (fun e => match e with
                    | EvQueuecount _ n => (n =? 0)%Z
                    | _ => false
                    end) tr.

(** Lock discipline, checked along a trace: the locks the running thread
    holds.  A device mutex may only be taken under [kblistmutex]; it is
    given back by [pthread_mutex_unlock] or by [closeusb] tearing the
    slot down; [kblistmutex] may only be given back, and the thread may
    only sleep, once every device mutex has been given back. *)
Record held := { list_held : bool; dev_held : list nat }.

Definition holds (h : held) (i : nat) : bool := existsb (Nat.eqb i) (dev_held h).

Definition give_back (h : held) (i : nat) : held :=
  {| list_held := list_held h;
     dev_held := List.filter (fun j => negb (Nat.eqb i j)) (dev_held h) |}.

Definition observe (h : held) (e : event) : option held :=
  match e with
  | EvLock ListLock =>
      if list_held h then None
      else Some {| list_held := true; dev_held := dev_held h |}
  | EvLock (DevLock i) =>
      if list_held h && negb (holds h i)
      then Some {| list_held := true; dev_held := i :: dev_held h |}
      else None
  | EvUnlock (DevLock i) | EvCloseUsb i =>
      if holds h i then Some (give_back h i) else None
  | EvUnlock ListLock =>
      match list_held h, dev_held h with
      | true, [] => Some {| list_held := false; dev_held := [] |}
      | _, _ => None
      end
  | EvNanosleep _ =>
      match list_held h, dev_held h with
      | false, [] => Some h
      | _, _ => None
      end
  | _ => Some h
  end.

Fixpoint observe_all (h : held) (tr : list event) : option held :=
  match tr with
  | [] => Some h
  | e :: tr' =>
      match observe h e with
      | Some h' => observe_all h' tr'
      | None => None
      end
  end.

Definition nothing_held : held := {| list_held := false; dev_held := [] |}.

Definition list_only : held := {| list_held := true; dev_held := [] |}.

(** Whether an event is a call made for device [k] by the outer loop. *)
Definition about (k : nat) (e : event) : bool :=
  match e with
  | EvLock (DevLock i) | EvUnlock (DevLock i) | EvDequeue i _ | EvTryReset i _
  | EvCloseUsb i | EvUpdateIndicators i | EvQueuecount i _ => Nat.eqb i k
  | _ => false
  end.

Definition touches (k : nat) (tr : list event) : bool := existsb (about k) tr.

Definition locked (k : nat) (tr : list event) : bool :=
  existsb (fun e => match e with
                    | EvLock (DevLock i) => Nat.eqb i k
                    | _ => false
                    end) tr.

(** Whether [closeusb] was called on slot [k]. *)
Definition closed (k : nat) (tr : list event) : bool :=
  existsb (fun e => match e with EvCloseUsb i => Nat.eqb i k | _ => false end) tr.

Section Relations.
Context {H : Type} {helpers : Helpers H}.

(** What every run of the FIFO code keeps: it takes and gives back no
    lock, leaves [fps] and the size of the table alone, only ever sets
    [v120], and only moves lines from a FIFO to [readcmd]. *)
Definition fifo_rel (s s' : daemon H) (t : list event) : Prop :=
  mutex s' = mutex s
  /\ kblistmutex s' = kblistmutex s
  /\ fps s' = fps s
  /\ length (keyboard s') = length (keyboard s)
  /\ (forall h, observe_all h t = Some h)
  /\ v120 s' = v120 s || fw_seen t
  /\ (forall k, applied k t ++ fifo s' k = fifo s k)
  /\ (forall k, slot s k = zero_slot -> slot s' k = zero_slot)
  /\ (forall k, touches k t = false)
  /\ fifo_pass_ran t = false.

(** What every run of the outer loop keeps: [kblistmutex], [fps] and the
    size of the table; the lock discipline under [kblistmutex]; a device
    mutex it took is free again; [v120] is only ever set; lines only move
    from a FIFO to [readcmd]; an all-zero slot stays all-zero; without a
    FIFO pass nothing is read; and a FIFO pass runs exactly when line 240
    finds a queue empty. *)
Definition sweep_rel (s s' : daemon H) (t : list event) : Prop :=
  kblistmutex s' = kblistmutex s
  /\ fps s' = fps s
  /\ length (keyboard s') = length (keyboard s)
  /\ observe_all list_only t = Some list_only
  /\ (forall k, mutex s' k = if locked k t then Free else mutex s k)
  /\ v120 s' = v120 s || fw_seen t
  /\ (forall k, applied k t ++ fifo s' k = fifo s k)
  /\ (forall k, slot s k = zero_slot -> slot s' k = zero_slot)
  /\ (fifo_pass_ran t = false ->
      fw_seen t = false /\ forall k, fifo s' k = fifo s k /\ applied k t = [])
  /\ fifo_pass_ran t = queue_seen_empty t.

(** What a run of the outer loop's body for slot [i] adds to that: its
    calls are about slot [i] only, it sends at most once, and a failed
    send followed by a failed reset leaves the slot closed. *)
Definition sweep_at (i : nat) (s s' : daemon H) (t : list event) : Prop :=
  (forall k, touches k t = true -> k = i)
  /\ sends i t <= 1
  /\ (forall r, In (EvDequeue i 0) t -> In (EvTryReset i r) t -> r <> 0%Z ->
        slot s' i = zero_slot /\ In (EvCloseUsb i) t).

(** The two phases of an iteration between taking and giving back
    [kblistmutex]: the root controller's FIFO, then the outer loop. *)
Definition root_phase (s : daemon H) : unit * daemon H * list event :=
  root_fifo (set_mutex ListLock Self s).

Definition sweep_phase (s : daemon H) : unit * daemon H * list event :=
  sweep (state_of (root_phase s)).

(** What [quit] is expected to call, read off the state it starts in:
    [pthread_mutex_timedlock] succeeds on a free mutex (always, under
    [OS_MAC]); every connected slot from 1 up gets its mutex taken, its
    input closed, its USB mode reverted and its handle closed, in this
    order; then the root controller. *)
Definition timedlock_result (s : daemon H) (l : lock_id) : bool :=
  OS_MAC || match get_mutex s l with Free => true | _ => false end.

Definition quit_slot_calls (s : daemon H) (i : nat) : list event :=
  if IS_CONNECTED (slot s i)
  then [EvTimedLock (DevLock i) (timedlock_result s (DevLock i));
        EvInputClose i; EvRevertUsb i; EvCloseUsb i]
  else [].

Definition quit_calls (s : daemon H) : list event :=
  [EvTimedLock ListLock (timedlock_result s ListLock)]
  ++ flat_map (quit_slot_calls s) (seq 1 (DEV_MAX s - 1))
  ++ [EvTimedLock (DevLock 0) (timedlock_result s (DevLock 0));
      EvCloseUsb 0; EvUsbDeinit; EvUnlock ListLock].

(** What a run of the FIFO code on slot [i] leaves alone. *)
Definition fifo_only (i : nat) (s s' : daemon H) (t : list event) : Prop :=
  forall k, k <> i ->
    slot s' k = slot s k /\ fifo s' k = fifo s k /\ applied k t = [].

End Relations.

(** *** Command line and start-up: lines 91-218 *)

Section Startup.
Local Open Scope Z_scope.

(** [isspace] in the C locale. *)
Definition is_space (c : ascii) : bool :=
  let n := Z.of_nat (nat_of_ascii c) in
  (n =? 32) || ((9 <=? n) && (n <=? 13)).

Fixpoint skip_space (s : string) : string :=
  match s with
  | String c r => if is_space c then skip_space r else s
  | EmptyString => s
  end.

Definition digit_of (c : ascii) : option Z :=
  let n := Z.of_nat (nat_of_ascii c) in
  if (48 <=? n) && (n <=? 57) then Some (n - 48) else None.

Fixpoint scan_digits (s : string) (acc : Z) : Z :=
  match s with
  | String c r =>
      match digit_of c with
      | Some d => scan_digits r (10 * acc + d)
      | None => acc
      end
  | EmptyString => acc
  end.

(** The conversion [%u]: white space, an optional sign, at least one
    digit; the value is stored in an [unsigned], i.e. modulo 2^32. *)
Definition scan_unsigned (s : string) : option Z :=
  let s := skip_space s in
  let '(negative, s) :=
    match s with
    | String "-"%char r => (true, r)
    | String "+"%char r => (false, r)
    | _ => (false, s)
    end in
  match s with
  | String c _ =>
      match digit_of c with
      | Some _ =>
          let n := scan_digits s 0 in
          Some ((if negative then - n else n) mod 2 ^ 32)
      | None => None
      end
  | EmptyString => None
  end.

Fixpoint scan_word (width : nat) (s : string) : string :=
  match width, s with
  | S w, String c r => if is_space c then EmptyString else String c (scan_word w r)
  | _, _ => EmptyString
  end.

(** The conversion [%9s]: white space, then up to nine characters that
    are not white space, at least one. *)
Definition scan_string9 (s : string) : option string :=
  match scan_word 9 (skip_space s) with
  | EmptyString => None
  | w => Some w
  end.

(** The literal part of a format: it has to match character by character. *)
Fixpoint strip_prefix (prefix s : string) : option string :=
  match prefix, s with
  | EmptyString, _ => Some s
  | String p prefix', String c s' =>
      if Ascii.eqb p c then strip_prefix prefix' s' else None
  | String _ _, EmptyString => None
  end.

(** [sscanf(argument, "<prefix>%u", &n) == 1] and
    [sscanf(argument, "<prefix>%9s", layout) == 1], with the value read. *)
Definition sscanf_u (prefix argument : string) : option Z :=
  match strip_prefix prefix argument with
  | Some r => scan_unsigned r
  | None => None
  end.

Definition sscanf_s9 (prefix argument : string) : option string :=
  match strip_prefix prefix argument with
  | Some r => scan_string9 r
  | None => None
  end.

(** The globals the start-up code sets, and its local [forceroot]. *)
Record settings := {
  cfg_fps : Z;
  cfg_keymap_system : option string;
  cfg_gid : Z;
  cfg_features_mask : Z;
  cfg_forceroot : bool }.

(** What the start-up code takes from the headers and the other files:
    the feature bits, the keymap table, and the layout the locale of
    lines 157-195 selects. *)
Class Platform := {
  FEAT_BIND : Z;
  FEAT_NOTIFY : Z;
  getkeymap : string -> option string;
  locale_keymap : string }.

Context {platform : Platform}.

(** Modelled from the spec: [setfps] (not part of the sources) sets the
    target frame rate (section 6). *)
Definition setfps (newfps : Z) (st : settings) : settings :=
  {| cfg_fps := newfps; cfg_keymap_system := cfg_keymap_system st;
     cfg_gid := cfg_gid st; cfg_features_mask := cfg_features_mask st;
     cfg_forceroot := cfg_forceroot st |}.

Definition set_keymap_system (k : option string) (st : settings) : settings :=
  {| cfg_fps := cfg_fps st; cfg_keymap_system := k;
     cfg_gid := cfg_gid st; cfg_features_mask := cfg_features_mask st;
     cfg_forceroot := cfg_forceroot st |}.

Definition set_gid (g : Z) (st : settings) : settings :=
  {| cfg_fps := cfg_fps st; cfg_keymap_system := cfg_keymap_system st;
     cfg_gid := g; cfg_features_mask := cfg_features_mask st;
     cfg_forceroot := cfg_forceroot st |}.

Definition set_features_mask (m : Z) (st : settings) : settings :=
  {| cfg_fps := cfg_fps st; cfg_keymap_system := cfg_keymap_system st;
     cfg_gid := cfg_gid st; cfg_features_mask := m;
     cfg_forceroot := cfg_forceroot st |}.

Definition set_forceroot (b : bool) (st : settings) : settings :=
  {| cfg_fps := cfg_fps st; cfg_keymap_system := cfg_keymap_system st;
     cfg_gid := cfg_gid st; cfg_features_mask := cfg_features_mask st;
     cfg_forceroot := b |}.

(** Lines 114-140: the body of the loop over [argv]. *)
Definition read_parameter (st : settings) (argument : string) : settings :=
  match sscanf_u "--fps=" argument with
  | Some newfps => setfps newfps st
  | None =>
  match sscanf_s9 "--layout=" argument with
  | Some layout => set_keymap_system (getkeymap layout) st
  | None =>
  match sscanf_u "--gid=" argument with
  | Some newgid => set_gid newgid st
  | None =>
      if String.eqb argument "--nobind" then
        set_features_mask
          (Z.land (cfg_features_mask st)
             (Z.land (Z.lnot FEAT_BIND) (Z.lnot FEAT_NOTIFY))) st
      else if String.eqb argument "--nonotify" then
        set_features_mask (Z.land (cfg_features_mask st) (Z.lnot FEAT_NOTIFY)) st
      else if String.eqb argument "--nonroot" then set_forceroot false st
      else st
  end end end.

(** How [main] leaves its start-up code. *)
Inductive startup := Returned (status : Z) | Exited (status : Z)
                   | EntersLoop (st : settings).

(** Lines 94-218.  [running] is the outcome of the PID check, [uid] what
    [getuid] returns, [usb] what [usbinit] returns; [st] holds the
    globals as they are when [main] starts. *)
Definition main_startup (running : bool) (uid usb : Z) (argv : list string)
    (st : settings) : startup :=
  if running then Returned 0
  else
    let st := set_forceroot true st in
    let st := fold_left read_parameter (tl argv) st in
    if negb (uid =? 0) && cfg_forceroot st then Exited 0
    else
      let st := if cfg_fps st =? 0 then setfps 30 st else st in
      let st := match cfg_keymap_system st with
                | None => set_keymap_system (Some locale_keymap) st
                | Some _ => st
                end in
      if negb (usb =? 0) then Returned (-1)
      else EntersLoop st.

End Startup.

(** *** Signals: lines 41-72 *)

Inductive signal_t := SIGTERM | SIGINT | SIGQUIT.

Definition signum (g : signal_t) : Z :=
  match g with SIGINT => 2 | SIGQUIT => 3 | SIGTERM => 15 end%Z.

(** What [signal(g, ...)] can install. *)
Inductive handler := H_default | H_sighandler | H_sighandler2.

(** The statements of the three routines, one instruction each; the
    call of [quit] and its return are two instructions, so that signals
    can arrive while [quit] runs. *)
Inductive instr :=
| ISignal (g : signal_t) (h : handler)
| IPrintCaught (type : Z)
| IPrintIgnoring (type : Z)
| IQuit
| IQuitReturns
| IExit
| ISleep.

(** [void sighandler2(int type)] *)
Definition sighandler2 (type : Z) : list instr := [IPrintIgnoring type].

(** [void sighandler(int type)] *)
Definition sighandler (type : Z) : list instr :=
  [ISignal SIGTERM H_sighandler2; ISignal SIGINT H_sighandler2;
   ISignal SIGQUIT H_sighandler2; IPrintCaught type;
   IQuit; IQuitReturns; IExit].

(** [void* sigmain(void* context)], from line 65 on; [ISleep] is the
    loop [while(1) sleep(-1)]. *)
Definition sigmain : list instr :=
  [ISignal SIGTERM H_sighandler; ISignal SIGINT H_sighandler;
   ISignal SIGQUIT H_sighandler; ISleep].

Inductive routine := Sigmain | InSighandler (type : Z) | InSighandler2 (type : Z).

Definition code (r : routine) : list instr :=
  match r with
  | Sigmain => sigmain
  | InSighandler type => sighandler type
  | InSighandler2 type => sighandler2 type
  end.

(** An activation of a routine on the signal thread's stack. *)
Record frame := { fn : routine; pc : nat }.

Inductive message := Caught (type : Z) | Ignoring (type : Z).

(** The process as the signal thread sees it: the installed handlers,
    the signals that have arrived and are held back, the thread's stack
    (innermost activation first), how often [quit] has been entered,
    what has been printed, and whether the process has ended. *)
Record process := {
  handlers : signal_t -> handler;
  pending : signal_t -> bool;
  stack : list frame;
  shutdowns : nat;
  printed : list message;
  exited : bool }.

Definition set_stack (st : list frame) (p : process) : process :=
  {| handlers := handlers p; pending := pending p; stack := st;
     shutdowns := shutdowns p; printed := printed p; exited := exited p |}.

Definition set_exited (p : process) : process :=
  {| handlers := handlers p; pending := pending p; stack := stack p;
     shutdowns := shutdowns p; printed := printed p; exited := true |}.

Definition print (m : message) (p : process) : process :=
  {| handlers := handlers p; pending := pending p; stack := stack p;
     shutdowns := shutdowns p; printed := printed p ++ [m];
     exited := exited p |}.

Definition signal_eqb (a b : signal_t) : bool :=
  match a, b with
  | SIGTERM, SIGTERM | SIGINT, SIGINT | SIGQUIT, SIGQUIT => true
  | _, _ => false
  end.

Definition set_pending (g : signal_t) (b : bool) (p : process) : process :=
  {| handlers := handlers p;
     pending := fun g' => if signal_eqb g' g then b else pending p g';
     stack := stack p; shutdowns := shutdowns p; printed := printed p;
     exited := exited p |}.

Definition exec (i : instr) (p : process) : process :=
  match i with
  | ISignal g h =>
      {| handlers := fun g' => if signal_eqb g' g then h else handlers p g';
         pending := pending p; stack := stack p; shutdowns := shutdowns p;
         printed := printed p; exited := exited p |}
  | IPrintCaught type => print (Caught type) p
  | IPrintIgnoring type => print (Ignoring type) p
  | IQuit =>
      {| handlers := handlers p; pending := pending p; stack := stack p;
         shutdowns := S (shutdowns p);
         printed := printed p; exited := exited p |}
  | IQuitReturns => p
  | IExit => set_exited p
  | ISleep => p
  end.

(** Whether an activation is a handler that runs for signal [g]. *)
Definition handles (g : signal_t) (fr : frame) : bool :=
  match fn fr with
  | Sigmain => false
  | InSighandler type | InSighandler2 type => (type =? signum g)%Z
  end.

(** The signal mask of the signal thread.  Line 64 leaves the three
    signals unblocked in this thread and line 207 blocks them in every
    other one.  A handler installed with [signal] runs with the signal
    it was called for blocked, and the mask is put back when it returns:
    a signal is blocked exactly while a handler for it is on the
    stack. *)
Definition blocked (p : process) (g : signal_t) : bool :=
  existsb (handles g) (stack p).

(** The action installed for [g] is taken: the handler is entered on top
    of whatever the thread was doing; the default action ends the
    process. *)
Definition enter (g : signal_t) (p : process) : process :=
  match handlers p g with
  | H_default => set_exited p
  | H_sighandler =>
      set_stack ({| fn := InSighandler (signum g); pc := 0 |} :: stack p) p
  | H_sighandler2 =>
      set_stack ({| fn := InSighandler2 (signum g); pc := 0 |} :: stack p) p
  end.

(** A termination signal is sent to the process: a blocked signal is
    held back (once, however often it is sent), any other has its action
    taken at once. *)
Definition deliver (g : signal_t) (p : process) : process :=
  if exited p then p
  else if blocked p g then set_pending g true p
  else enter g p.

(** The mask has changed: a signal that was held back and is no longer
    blocked has its action taken, the lowest number first. *)
Definition release (p : process) : process :=
  match List.find (fun g => pending p g && negb (blocked p g))
          [SIGINT; SIGQUIT; SIGTERM] with
  | Some g => enter g (set_pending g false p)
  | None => p
  end.

(** The signal thread executes one instruction of its innermost
    activation, or returns from it when it is at its end. *)
Definition step (p : process) : process :=
  if exited p then p
  else match stack p with
       | [] => p
       | fr :: rest =>
           match nth_error (code (fn fr)) (pc fr) with
           | None => release (set_stack rest p)
           | Some ISleep => p
           | Some i =>
               exec i (set_stack ({| fn := fn fr; pc := S (pc fr) |} :: rest) p)
           end
       end.

Inductive action := Deliver (g : signal_t) | Step.

Definition act (p : process) (a : action) : process :=
  match a with Deliver g => deliver g p | Step => step p end.

Definition run_all (acts : list action) (p : process) : process :=
  fold_left act acts p.

(** The process when the signal thread starts at line 65, after
    [usbinit] returned [usb]: on failure [main] has called [quit] itself
    and returned, and there is no signal thread. *)
Definition boot (usb : Z) : process :=
  if (usb =? 0)%Z
  then {| handlers := fun _ => H_default; pending := fun _ => false;
          stack := [{| fn := Sigmain; pc := 0 |}];
          shutdowns := 0; printed := []; exited := false |}
  else {| handlers := fun _ => H_default; pending := fun _ => false;
          stack := [];
          shutdowns := 1; printed := []; exited := true |}.

(** An activation of [sighandler] that has entered [quit]; and an
    activation that will return. *)
Definition past_quit (fr : frame) : bool :=
  match fn fr with InSighandler _ => 5 <=? pc fr | _ => false end.

Definition returning (fr : frame) : bool :=
  match fn fr with InSighandler2 _ => true | _ => false end.

(** A handler activation agrees with the installed handlers: the
    [signal] calls it has made are still in force. *)
Definition frame_ok (p : process) (fr : frame) : Prop :=
  match fn fr with
  | Sigmain => False
  | InSighandler _ =>
      pc fr <= 6
      /\ (0 < pc fr -> handlers p SIGTERM = H_sighandler2)
      /\ (1 < pc fr -> handlers p SIGINT = H_sighandler2)
      /\ (2 < pc fr -> handlers p SIGQUIT = H_sighandler2)
  | InSighandler2 _ => True
  end.

(** Above an activation that has entered [quit] there are only
    activations that return. *)
Fixpoint quiet_above (st : list frame) : bool :=
  match st with
  | [] => true
  | fr :: rest =>
      quiet_above rest && (if existsb past_quit rest then returning fr else true)
  end.

Definition signal_inv (p : process) : Prop :=
  shutdowns p <= 1
  /\ (exited p = false ->
      exists hs m,
        stack p = hs ++ [{| fn := Sigmain; pc := m |}]
        /\ m <= 3
        /\ Forall (frame_ok p) hs
        /\ quiet_above hs = true
        /\ (shutdowns p = 0 \/ existsb past_quit hs = true)).






(** *** The locale's keyboard layout: lines 74-89 and 157-195 *)

(** A [char] array.  A write outside of it is undefined behaviour and
    ends the run. *)
Definition poke (buf : list ascii) (i : nat) (c : ascii) : option (list ascii) :=
  if Nat.ltb i (length buf) then Some (<[i := c]> buf) else None.

(** The characters of a C string: those before the first NUL. *)
Fixpoint chars (src : string) : list ascii :=
  match src with
  | String c r => if Ascii.eqb c zero then [] else c :: chars r
  | EmptyString => []
  end.

Definition strlen (src : string) : nat := length (chars src).

(** The C string a [char] array holds. *)
Fixpoint cstring (buf : list ascii) : string :=
  match buf with
  | c :: r => if Ascii.eqb c zero then EmptyString else String c (cstring r)
  | [] => EmptyString
  end.

Section Locale.

(** [tolower] of [<ctype.h>], in the locale that line 158 has selected. *)
Variable tolower : ascii -> ascii.

(** Lines 78-81. *)
Definition locale_char (s : ascii) : ascii :=
  if Ascii.eqb s "_" then "-"%char else tolower s.

(** Lines 77-87: the loop, with [dst] and [ldst] as offsets into the
    array behind [dst]; the result is the array and [dst] as the loop
    leaves them. *)
Fixpoint localecase_loop (buf : list ascii) (dst ldst : nat) (src : string)
    : option (list ascii * nat) :=
  match src with
  | EmptyString => Some (buf, dst)
  | String s src =>
      if Ascii.eqb s zero then Some (buf, dst)
      else
        match poke buf dst (locale_char s) with
        | None => None
        | Some buf =>
            let dst := S dst in
            if Nat.eqb dst ldst then Some (buf, Nat.pred dst)
            else localecase_loop buf dst ldst src
        end
  end.

(** [void localecase(char* dst, size_t length, const char* src)] *)
Definition localecase (buf : list ascii) (length : nat) (src : string)
    : option (list ascii) :=
  let ldst := 0 + length in
  match localecase_loop buf 0 ldst src with
  | Some (buf, dst) => poke buf dst zero
  | None => None
  end.

End Locale.

(** Whether [strstr(haystack, needle)] finds [needle]. *)
Fixpoint strstr (haystack needle : string) : bool :=
  String.prefix needle haystack
  || match haystack with
     | String _ r => strstr r needle
     | EmptyString => false
     end.

(** Whether a character occurs in a string. *)
Fixpoint occurs (c : ascii) (s : string) : bool :=
  match s with
  | String d r => Ascii.eqb c d || occurs c r
  | EmptyString => false
  end.

(** The keymap tables lines 162-194 choose from. *)
Inductive keymap :=
  keymap_de | keymap_es | keymap_fr | keymap_se | keymap_us | keymap_gb.

(** Lines 162-194, on the lower-cased locale name. *)
Definition keymap_of_locale (locale : string) : keymap :=
  if strstr locale "de-" then keymap_de
  else if strstr locale "es-" then keymap_es
  else if strstr locale "fr-" then keymap_fr
  else if strstr locale "sv-" then keymap_se
  else if strstr locale "en-us"
          || strstr locale "en-au"
          || strstr locale "en-ca"
          || strstr locale "en-hk"
          || strstr locale "en-in"
          || strstr locale "en-nz"
          || strstr locale "en-ph"
          || strstr locale "en-sg"
          || strstr locale "en-za" then keymap_us
  else keymap_gb.

(** Lines 159-194.  [loc] is what [setlocale(LC_CTYPE, 0)] returns and
    [stack] what the array [locale] of line 160 holds when it is
    declared. *)
Definition detect_keymap (tolower : ascii -> ascii) (stack : nat -> ascii)
    (loc : string) : option keymap :=
  let locale := map stack (seq 0 (strlen loc + 1)) in
  match localecase tolower locale (length locale) loc with
  | Some locale => Some (keymap_of_locale (cstring locale))
  | None => None
  end.

(** *** The root controller: lines 197-202 *)

Section RootController.
Context {platform : Platform} {H : Type} {helpers : Helpers H}.

Definition set_model (m : Z) (kb : usbdevice H) : usbdevice H :=
  {| connected := connected kb; infifo := infifo kb;
     queuecount := queuecount kb; fwversion := fwversion kb;
     model := m; features := features kb; rest := rest kb |}.

Definition set_features (f : Z) (kb : usbdevice H) : usbdevice H :=
  {| connected := connected kb; infifo := infifo kb;
     queuecount := queuecount kb; fwversion := fwversion kb;
     model := model kb; features := f; rest := rest kb |}.

(** Lines 199-202: the device table after [memset], with the root
    controller set up in slot 0.  [dev_max] is the constant [DEV_MAX]
    (its header is not part of the sources). *)
Definition make_root (dev_max : nat) (st : settings) : list (usbdevice H) :=
  let keyboard := replicate dev_max zero_slot in
  let keyboard := alter (set_model (-1)) 0 keyboard in
  alter (set_features (Z.land FEAT_NOTIFY (cfg_features_mask st))) 0 keyboard.

End RootController.

(** *** The calls of one iteration, by path through lines 233-257 *)

(** What the FIFO code of lines 226-230 and 242-250 leaves in a trace. *)
Definition fifo_event (e : event) : bool :=
  match e with
  | EvReadlines _ _ | EvReadcmd _ _ | EvFwversion _ _ => true
  | _ => false
  end.

(** The reset that follows a failed send when it brings the link back. *)
Definition recovered (i : nat) (sent : Z) : list event :=
  if (sent =? 0)%Z then [EvTryReset i 0] else [].

(** The calls of the outer loop's body for slot [i]: the slot is not
    connected; the send failed and so did the reset; the queue is not
    empty after the send; the queue is empty after the send. *)
Inductive slot_calls (i : nat) : list event -> Prop :=
| slot_skipped : slot_calls i []
| slot_closed (r : Z) :
    r <> 0%Z ->
    slot_calls i
      [EvLock (DevLock i); EvDequeue i 0; EvTryReset i r; EvCloseUsb i]
| slot_busy (sent q : Z) :
    q <> 0%Z ->
    slot_calls i
      (EvLock (DevLock i) :: EvDequeue i sent :: recovered i sent
       ++ [EvQueuecount i q; EvUnlock (DevLock i)])
| slot_idle (sent : Z) (pass : list event) :
    forallb fifo_event pass = true ->
    slot_calls i
      (EvLock (DevLock i) :: EvDequeue i sent :: recovered i sent
       ++ EvQueuecount i 0 :: pass
       ++ [EvUpdateIndicators i; EvUnlock (DevLock i)]).

Section Calls.
Context {H : Type} {helpers : Helpers H}.

(** A run that leaves only FIFO events. *)
Definition fifo_events (s s' : daemon H) (t : list event) : Prop :=
  forallb fifo_event t = true.

End Calls.

(** *** What the loop reads, slot by slot *)

Section Served.
Context {H : Type} {helpers : Helpers H}.

(** [keyboard[i] = kb]. *)
Definition put (i : nat) (kb : usbdevice H) (s : daemon H) : daemon H :=
  set_keyboard (<[i := kb]> (keyboard s)) s.

(** Lines 235-236 on a device: what [usbdequeue] returns, what the
    [usb_tryreset] that follows a failed send returns, whether the
    device is given up, and the device as line 240 finds it. *)
Definition send_status (kb : usbdevice H) : Z := fst (usbdequeue kb).

Definition reset_status (kb : usbdevice H) : Z :=
  fst (usb_tryreset (snd (usbdequeue kb))).

Definition stuck (kb : usbdevice H) : bool :=
  (send_status kb =? 0)%Z && negb (reset_status kb =? 0)%Z.

Definition after_send (kb : usbdevice H) : usbdevice H :=
  if (send_status kb =? 0)%Z then snd (usb_tryreset (snd (usbdequeue kb)))
  else snd (usbdequeue kb).

(** The daemon when line 240 is reached for slot [i]. *)
Definition at_queue (i : nat) (s : daemon H) : daemon H :=
  put i (after_send (slot s i)) (set_mutex (DevLock i) Self s).

(** A member of [struct usbdevice] that the helpers called from the loop
    leave as it is. *)
Definition keeps {A : Type} (member : usbdevice H -> A) : Prop :=
  (forall kb, member (snd (usbdequeue kb)) = member kb)
  /\ (forall kb, member (snd (usb_tryreset kb)) = member kb)
  /\ (forall kb lines, member (readcmd kb lines) = member kb)
  /\ (forall kb, member (updateindicators kb) = member kb).

(** What every step of the loop keeps for slot [k] when the helpers keep
    [infifo], for as long as the slot is not closed: the size of the
    table; whether the slot's channel is open; the slot's firmware
    version, when the helpers keep [fwversion]; an empty FIFO; and that
    a firmware version is only read from a slot whose channel is open. *)
Definition read_rel (k : nat) (s s' : daemon H) (t : list event) : Prop :=
  length (keyboard s') = length (keyboard s)
  /\ (closed k t = false -> infifo (slot s' k) = infifo (slot s k))
  /\ (keeps fwversion -> closed k t = false ->
      fwversion (slot s' k) = fwversion (slot s k))
  /\ (fifo s k = [] -> fifo s' k = [])
  /\ (closed k t = false -> forall v, In (EvFwversion k v) t ->
      infifo (slot s k) <> 0%Z
      /\ (keeps fwversion -> v = fwversion (slot s k))).

(** What a run of the outer loop does for slot [k] on top of that: an
    all-zero slot stays all-zero, and so does a closed one; a run in
    which line 240 finds a queue empty, and which does not close the
    slot, empties the FIFO of the slot when its channel is open and
    reads its firmware version; and a firmware version is only read from
    a slot whose channel is open. *)
Definition serve_rel (k : nat) (s s' : daemon H) (t : list event) : Prop :=
  read_rel k s s' t
  /\ (slot s k = zero_slot -> slot s' k = zero_slot)
  /\ (closed k t = true -> slot s' k = zero_slot)
  /\ (queue_seen_empty t = true -> k < length (keyboard s) ->
      infifo (slot s k) <> 0%Z -> closed k t = false ->
      fifo s' k = [] /\ exists v, In (EvFwversion k v) t)
  /\ (forall v, In (EvFwversion k v) t ->
      infifo (slot s k) <> 0%Z
      /\ (keeps fwversion -> v = fwversion (slot s k))).

End Served.


Section Runs.
Context {H : Type} {helpers : Helpers H}.

(** A device after [readcmd] has applied [lines] to it, if any. *)
Definition device_after (kb : usbdevice H) (lines : list string) : usbdevice H :=
  match lines with
  | [] => kb
  | _ => readcmd kb lines
  end.

(** [keyboard[i]] as the outer loop finds it: as it was when the
    iteration began, after the command lines the calls made [before]
    have applied to it. *)
Definition device_at (s : daemon H) (i : nat) (before : list event) : usbdevice H :=
  device_after (slot s i) (applied i before).

(** The calls of the outer loop's body for slot [i] holding [kb], by
    path through lines 233-257: the slot is not connected; the send
    failed and so did the reset; the queue is not empty after the send;
    the queue is empty after the send. *)
Inductive slot_run (i : nat) (kb : usbdevice H) : list event -> Prop :=
| run_skipped :
    IS_CONNECTED kb = false -> slot_run i kb []
| run_closed :
    IS_CONNECTED kb = true -> stuck kb = true ->
    slot_run i kb
      [EvLock (DevLock i); EvDequeue i 0; EvTryReset i (reset_status kb);
       EvCloseUsb i]
| run_busy :
    IS_CONNECTED kb = true -> stuck kb = false ->
    queuecount (after_send kb) <> 0%Z ->
    slot_run i kb
      (EvLock (DevLock i) :: EvDequeue i (send_status kb)
       :: recovered i (send_status kb)
       ++ [EvQueuecount i (queuecount (after_send kb)); EvUnlock (DevLock i)])
| run_idle (pass : list event) :
    IS_CONNECTED kb = true -> stuck kb = false ->
    queuecount (after_send kb) = 0%Z ->
    forallb fifo_event pass = true ->
    slot_run i kb
      (EvLock (DevLock i) :: EvDequeue i (send_status kb)
       :: recovered i (send_status kb)
       ++ EvQueuecount i 0 :: pass
       ++ [EvUpdateIndicators i; EvUnlock (DevLock i)]).

(** The runs of the outer loop over the slots [idx], after the calls
    made [before] in an iteration that began in [s]. *)
Inductive sweep_runs (s : daemon H) :
    list event -> list nat -> list (list event) -> Prop :=
| runs_nil before : sweep_runs s before [] []
| runs_cons before i idx run per :
    slot_run i (device_at s i before) run ->
    sweep_runs s (before ++ run) idx per ->
    sweep_runs s before (i :: idx) (run :: per).

(** What a run of the loop's code does to slot [k]: lines only move from
    its FIFO to [readcmd], all at once; and for as long as the outer
    loop makes no call about the slot, the slot is what it was, after
    the lines applied to it. *)
Definition track (k : nat) (s s' : daemon H) (t : list event) : Prop :=
  applied k t ++ fifo s' k = fifo s k
  /\ (applied k t <> [] -> fifo s' k = [])
  /\ (touches k t = false -> slot s' k = device_after (slot s k) (applied k t)).

(** Line 247 is only reached after line 240 found a queue empty. *)
Definition gated (s s' : daemon H) (t : list event) : Prop :=
  forall k v, In (EvFwversion k v) t -> queue_seen_empty t = true.

End Runs.

(** *** The loop: lines 220-270 *)

Section Loop.
Context {H : Type} {helpers : Helpers H}.

(** The first iterations of [while(1)], one for each pair of readings of
    the monotonic clock. *)
Fixpoint frames (clock : list (timespec * timespec)) : M unit :=
  match clock with
  | [] => ret tt
  | (time, now) :: clock' => bind (tick time now) (fun _ => frames clock')
  end.

End Loop.

(** The times the loop slept until, in order. *)
Fixpoint deadlines (tr : list event) : list timespec :=
  match tr with
  | [] => []
  | EvNanosleep d :: tr' => d :: deadlines tr'
  | _ :: tr' => deadlines tr'
  end.

(** *** [quit] without the outcome of its locks *)

(** A call without the outcome of [pthread_mutex_timedlock], which
    [quit] does not look at. *)
Definition forget_outcome (e : event) : event :=
  match e with EvTimedLock l _ => EvTimedLock l true | _ => e end.

(** *** What a run leaves alone *)

(** Whether an event carries the index of slot [k]. *)
Definition names (k : nat) (e : event) : bool :=
  match e with
  | EvLock (DevLock i) | EvTimedLock (DevLock i) _ | EvUnlock (DevLock i)
  | EvReadlines i _ | EvReadcmd i _ | EvDequeue i _ | EvTryReset i _
  | EvCloseUsb i | EvUpdateIndicators i | EvInputClose i | EvRevertUsb i
  | EvQueuecount i _ | EvFwversion i _ => Nat.eqb i k
  | _ => false
  end.

Section Kept.
Context {H : Type} {helpers : Helpers H}.

(** A run that leaves slot [k] alone: its entry in the table, its mutex
    and its FIFO are what they were, and no call was made for it. *)
Definition kept (k : nat) (s s' : daemon H) (t : list event) : Prop :=
  slot s' k = slot s k
  /\ mutex s' k = mutex s k
  /\ fifo s' k = fifo s k
  /\ forallb (fun e => negb (names k e)) t = true.

(** A run that leaves slot [k] alone when it starts with [P] of the
    slot. *)
Definition kept_if (P : usbdevice H -> Prop) (k : nat)
    (s s' : daemon H) (t : list event) : Prop :=
  P (slot s k) -> kept k s s' t.

(** A slot without a FIFO; a slot that is not connected; and a slot that
    is neither connected nor has a FIFO. *)
Definition no_fifo (kb : usbdevice H) : Prop := infifo kb = 0%Z.

Definition unconnected (kb : usbdevice H) : Prop := IS_CONNECTED kb = false.

Definition unused (kb : usbdevice H) : Prop := unconnected kb /\ no_fifo kb.

End Kept.

(** *** The signal thread with its handlers installed *)

(** An activation of [sighandler] past line 49 has printed its message,
    and past line 50 it has entered [quit]. *)
Definition announced (p : process) (fr : frame) : Prop :=
  match fn fr with
  | InSighandler type =>
      (4 <= pc fr -> In (Caught type) (printed p))
      /\ (5 <= pc fr -> 1 <= shutdowns p)
  | _ => True
  end.

(** What holds from the moment [sigmain] has installed its handlers: no
    signal has its default action any more; [quit] has been entered only
    after a message, and the process has ended only after [quit] was
    entered. *)
Definition orderly (p : process) : Prop :=
  (forall g, handlers p g <> H_default)
  /\ Forall (announced p) (stack p)
  /\ (1 <= shutdowns p -> exists type, In (Caught type) (printed p))
  /\ (exited p = true -> 1 <= shutdowns p).

(** *** ckb-pinwheel: the angle of a key, lines 60 and 68-86 *)

(** A C [double] is a binary64 value ([float]); expressions in
    [double]s are evaluated in binary64 (FLT_EVAL_METHOD 0), rounding to
    nearest, ties to even.  A C [float] is kept as the [double] of the
    same value. *)

Section Pinwheel.
Local Open Scope float_scope.

(** [M_PI] of <math.h>: the [double] nearest to pi. *)
Definition M_PI : float := 0x1.921fb54442d18p+1.

(** [fmod] of <math.h> on [double]s: the result is exact, has the sign
    of [x] and a magnitude below that of [y]. *)
Definition fmod (x y : float) : float :=
  match Prim2SF x, Prim2SF y with
  | S754_nan, _ | _, S754_nan => nan
  | S754_infinity _, _ | _, S754_zero _ => nan
  | _, S754_infinity _ | S754_zero _, _ => x
  | S754_finite sx mx ex, S754_finite _ my ey =>
      let e := Z.min ex ey in
      let r := Z.rem (Zpos mx * 2 ^ (ex - e)) (Zpos my * 2 ^ (ey - e)) in
      SF2Prim (binary_normalize prec emax (if sx then - r else r) e sx)
  end.

(** The conversion of a [double] to [float] on assignment: the nearest
    binary32 value, ties to even. *)
Definition to_float (x : float) : float :=
  match Prim2SF x with
  | S754_finite s m e =>
      match binary_normalize 24 128 (if s then Zneg m else Zpos m) e s with
      | S754_finite s' m' e' =>
          SF2Prim (binary_normalize prec emax
                     (if s' then Zneg m' else Zpos m') e' s')
      | S754_zero s' => SF2Prim (S754_zero s')
      | S754_infinity s' => SF2Prim (S754_infinity s')
      | S754_nan => nan
      end
  | _ => x
  end.

(** [#define ANGLE(theta) fmod((theta) + M_PI * 2., M_PI * 2.)] *)
Definition ANGLE (theta : float) : float := fmod (theta + M_PI * 2) (M_PI * 2).

(** Lines 69-74: the global [frame] after [ckb_frame] has advanced it by
    [delta]; [ckb_start] sets it to 0 when it is negative. *)
Definition advance (frame delta : float) : float :=
  let frame := if frame <? 0 then 0 else frame in
  let frame := frame + delta in
  if 1 <? frame then frame - 1 else frame.

(** Line 76: [float position = ANGLE(-frame * M_PI * 2.)]. *)
Definition position (frame : float) : float :=
  to_float (ANGLE (- frame * M_PI * 2)).

(** Lines 80-84: [theta] for one key.  [centre] is the test of line 81
    and [angle] the value [atan2(x - key->x, y - key->y)] returned. *)
Definition raw_theta (centre : bool) (angle position : float) : float :=
  if centre then 0 else to_float (ANGLE (ANGLE angle - position)).

(** Lines 85-86: [if(symmetric && theta > M_PI) theta = M_PI * 2. - theta]. *)
Definition mirrored (symmetric : bool) (theta : float) : float :=
  if symmetric && (M_PI <? theta) then to_float (M_PI * 2 - theta) else theta.

End Pinwheel.

(** *** A sample USB layer and sample tables *)

(** The hardware behind a handle, as far as the examples need it:
    whether a send gets through, whether a reset brings the link back,
    and the lines [readcmd] has applied so far. *)
Record bench := { link_up : bool; resettable : bool; cmdlog : list string }.

Definition bench_set_queue (n : Z) (kb : usbdevice bench) : usbdevice bench :=
  {| connected := connected kb; infifo := infifo kb; queuecount := n;
     fwversion := fwversion kb; model := model kb; features := features kb;
     rest := rest kb |}.

Definition bench_set_rest (r : bench) (kb : usbdevice bench) : usbdevice bench :=
  {| connected := connected kb; infifo := infifo kb;
     queuecount := queuecount kb; fwversion := fwversion kb;
     model := model kb; features := features kb; rest := r |}.

(** Modelled from the spec: a USB layer after section 4.2.  A send on an
    empty queue reports that there was nothing to send; a successful
    send takes one message off the queue; a failed send reports 0 and
    leaves the queue alone; a reset reports 0 when it worked.  Every
    applied command line queues one message. *)
Definition bench_usbdequeue (kb : usbdevice bench) : Z * usbdevice bench :=
  if (queuecount kb =? 0)%Z then ((-1)%Z, kb)
  else if link_up (rest kb) then (64%Z, bench_set_queue (queuecount kb - 1) kb)
  else (0%Z, kb).

Definition bench_usb_tryreset (kb : usbdevice bench) : Z * usbdevice bench :=
  if resettable (rest kb)
  then (0%Z, bench_set_rest {| link_up := true; resettable := true;
                               cmdlog := cmdlog (rest kb) |} kb)
  else ((-1)%Z, kb).

Definition bench_readcmd (kb : usbdevice bench) (lines : list string) :
    usbdevice bench :=
  bench_set_queue (queuecount kb + Z.of_nat (length lines))
    (bench_set_rest {| link_up := link_up (rest kb);
                       resettable := resettable (rest kb);
                       cmdlog := cmdlog (rest kb) ++ lines |} kb).

#[export] Instance bench_helpers : Helpers bench :=
  {| OS_MAC := false;
     zero_rest := {| link_up := false; resettable := false; cmdlog := [] |};
     usbdequeue := bench_usbdequeue;
     usb_tryreset := bench_usb_tryreset;
     readcmd := bench_readcmd;
     updateindicators := fun kb => kb;
     inputclose := fun kb => kb;
     revertusb := fun kb => kb |}.

(** The root controller as lines 199-203 leave it, with its FIFO open. *)
Definition bench_root : usbdevice bench :=
  {| connected := false; infifo := 3; queuecount := 0; fwversion := 0;
     model := -1; features := 0; rest := zero_rest |}.

(** A keyboard with [queued] messages waiting. *)
Definition bench_keyboard (fw queued : Z) (up again : bool) : usbdevice bench :=
  {| connected := true; infifo := 4; queuecount := queued; fwversion := fw;
     model := 0; features := 0;
     rest := {| link_up := up; resettable := again; cmdlog := [] |} |}.

(** A daemon at the head of its first iteration: root controller, one
    keyboard in slot 1, and [lines] waiting on the keyboard's FIFO. *)
Definition bench_daemon (kb : usbdevice bench) (lines : list string) : daemon bench :=
  {| keyboard := [bench_root; kb];
     mutex := fun _ => Free;
     kblistmutex := Free;
     fifo := fun i => match i with
                      | 0 => ["notifyon 1"%string]
                      | 1 => lines
                      | _ => []
                      end;
     fps := 30;
     v120 := false |}.

#[export] Instance bench_platform : Platform :=
  {| FEAT_BIND := 1; FEAT_NOTIFY := 2;
     getkeymap := fun layout => Some layout;
     locale_keymap := "gb" |}.

(** The globals before [main] runs, and a command line without [--fps]. *)
Definition bench_settings : settings :=
  {| cfg_fps := 0; cfg_keymap_system := None; cfg_gid := 0;
     cfg_features_mask := 3; cfg_forceroot := false |}.

Definition bench_argv : list string :=
  ["ckb-daemon"; "--nonroot"; "--gid=100"; "--nonotify"]%string.

(** The signal thread installs its handlers and sleeps; SIGTERM arrives
    and [sighandler] runs up to and including the call of [quit]. *)
Definition in_shutdown : list action :=
  [Step; Step; Step; Step; Deliver SIGTERM; Step; Step; Step; Step; Step].

Definition bench_t0 : timespec := {| tv_sec := 100; tv_nsec := 0 |}.
Definition bench_t1 : timespec := {| tv_sec := 100; tv_nsec := 250000 |}.

(** A keyboard with firmware 0x0120 and a working link, two messages
    queued and one command line waiting. *)
Definition bench_backlog : daemon bench :=
  bench_daemon (bench_keyboard 288 2 true true) ["rgb ff0000"%string].

(** A keyboard with firmware 0x0120 whose link is down for good, nothing
    queued yet and one command line waiting; and the daemon after one
    and after two iterations. *)
Definition bench_stuck : daemon bench :=
  bench_daemon (bench_keyboard 288 0 false false) ["rgb ff0000"%string].

Definition bench_stuck_1 : daemon bench :=
  Eval vm_compute in state_of (tick bench_t0 bench_t1 bench_stuck).

Definition bench_stuck_2 : daemon bench :=
  Eval vm_compute in state_of (tick bench_t0 bench_t1 bench_stuck_1).

(** [tolower] in the C locale. *)
Definition c_tolower (c : ascii) : ascii :=
  let n := nat_of_ascii c in
  if Nat.leb 65 n && Nat.leb n 90 then ascii_of_nat (n + 32) else c.

(** An array of four characters that holds rubbish. *)
Definition bench_array : list ascii := ["#"; "#"; "#"; "#"]%char.

(** The table of [bench_backlog] with every mutex held by another
    thread. *)
Definition bench_contended : daemon bench :=
  {| keyboard := keyboard bench_backlog;
     mutex := fun _ => Other;
     kblistmutex := Other;
     fifo := fifo bench_backlog;
     fps := 30;
     v120 := false |}.

(** An entry of the table that is neither connected nor has a FIFO, with
    what a device left behind in its other members. *)
Definition bench_spare : usbdevice bench :=
  {| connected := false; infifo := 0; queuecount := 3; fwversion := 288;
     model := 7; features := 0; rest := zero_rest |}.

(** A table with such an entry between the root controller and a
    keyboard whose queue is empty: the entry's mutex is held by another
    thread, and a line waits where its FIFO would be. *)
Definition bench_idle : daemon bench :=
  {| keyboard := [bench_root; bench_spare; bench_keyboard 288 0 true true];
     mutex := fun i => match i with 1 => Other | _ => Free end;
     kblistmutex := Free;
     fifo := fun i => match i with
                      | 1 => ["mode 1"%string]
                      | 2 => ["rgb 00ff00"%string]
                      | _ => []
                      end;
     fps := 30;
     v120 := false |}.

(** A keyboard with firmware 0x0120 and an empty queue whose command
    channel is not open. *)
Definition bench_mute : daemon bench :=
  {| keyboard := [bench_root;
                  {| connected := true; infifo := 0; queuecount := 0;
                     fwversion := 288; model := 0; features := 0;
                     rest := {| link_up := true; resettable := true;
                                cmdlog := [] |} |}];
     mutex := fun _ => Free;
     kblistmutex := Free;
     fifo := fun _ => [];
     fps := 30;
     v120 := false |}.

(** A keyboard with firmware 0x0120 whose link is down for good, with a
    message queued and a command line waiting, in front of a keyboard
    with older firmware whose queue is empty. *)
Definition bench_late : daemon bench :=
  {| keyboard := [bench_root; bench_keyboard 288 1 false false;
                  bench_keyboard 256 0 true true];
     mutex := fun _ => Free;
     kblistmutex := Free;
     fifo := fun i => match i with 1 => ["rgb ff0000"%string] | _ => [] end;
     fps := 30;
     v120 := false |}.

(** ** Part II. Theorems *)

Section ClockFacts.
Local Open Scope Z_scope.

Lemma wrap_long_small z : - 2 ^ 63 <= z < 2 ^ 63 -> wrap_long z = z.
Proof.
  intros Hz. unfold wrap_long.
  rewrite Z.mod_small; lia.
Qed.

Lemma timespec_add_ns ts n :
  clock_reading ts -> 0 <= n <= 1000000000 ->
  to_ns (timespec_add ts n) = to_ns ts + n /\ normalised (timespec_add ts n).
Proof.
  intros [Hs Hn] Hr. unfold timespec_add, to_ns, normalised in *. cbn.
  rewrite (wrap_long_small (n + tv_nsec ts)) by lia.
  assert (Hq : 0 <= Z.quot (n + tv_nsec ts) 1000000000 <= 1).
  { rewrite Z.quot_div_nonneg by lia. split.
    - apply Z.div_pos; lia.
    - apply Z.lt_succ_r. apply Z.div_lt_upper_bound; lia. }
  rewrite wrap_long_small by lia.
  pose proof (Z.quot_rem' (n + tv_nsec ts) 1000000000) as Hqr.
  pose proof (Z.rem_bound_pos (n + tv_nsec ts) 1000000000) as Hb.
  repeat split; try lia.
Qed.

Lemma timespec_gt_ns a b :
  normalised a -> normalised b ->
  timespec_gt a b = (to_ns b <? to_ns a).
Proof.
  intros Ha Hb. unfold timespec_gt, to_ns, normalised in *.
  destruct (Z.ltb_spec (tv_sec b) (tv_sec a)) as [Hlt|Hge]; cbn.
  - symmetry. apply Z.ltb_lt. nia.
  - destruct (Z.eqb_spec (tv_sec a) (tv_sec b)) as [He|Hne]; cbn.
    + rewrite He.
      destruct (Z.ltb_spec (tv_nsec b) (tv_nsec a));
        symmetry; [apply Z.ltb_lt | apply Z.ltb_ge]; lia.
    + symmetry. apply Z.ltb_ge. nia.
Qed.

Lemma frame_interval_div fps v120 :
  0 < fps ->
  frame_interval fps v120 = 1000000000 / (fps * packets_per_frame v120)
  /\ 0 <= frame_interval fps v120 <= 1000000000.
Proof.
  intros Hf. unfold frame_interval.
  assert (Hm : 0 < packets_per_frame v120) by (destruct v120; cbn; lia).
  assert (H0 : 0 <= 1000000000 / fps) by (apply Z.div_pos; lia).
  rewrite (Z.quot_div_nonneg 1000000000 fps) by lia.
  rewrite Z.quot_div_nonneg by lia.
  rewrite Z.div_div by lia.
  split; [reflexivity|]. split.
  - apply Z.div_pos; nia.
  - apply Z.div_le_upper_bound; nia.
Qed.

(** C2.  For a frame rate [fps > 0] and the multiplier [m] of the tick
    (5, or 12 once [v120] is set), the time the loop sleeps until is the
    tick's start time plus [1e9 / (fps * m)] nanoseconds, unless that lies
    less than 100,000 ns after the current time, in which case it is the
    current time plus 100,000 ns: the later of the two points.  Measured
    from the current time, the sleep is what remains of the interval,
    and never less than 100,000 ns. *)
Theorem wake_deadline_clamped fps v120 time now :
  0 < fps -> clock_reading time -> clock_reading now ->
  (packets_per_frame v120 = 5 \/ packets_per_frame v120 = 12)
  /\ frame_interval fps v120 = 1000000000 / (fps * packets_per_frame v120)
  /\ to_ns (wake_deadline fps v120 time now) =
       (if to_ns time + 1000000000 / (fps * packets_per_frame v120)
             <? to_ns now + 100000
        then to_ns now + 100000
        else to_ns time + 1000000000 / (fps * packets_per_frame v120))
  /\ to_ns (wake_deadline fps v120 time now) =
       Z.max (to_ns time + 1000000000 / (fps * packets_per_frame v120))
             (to_ns now + 100000)
  /\ to_ns (wake_deadline fps v120 time now) - to_ns now =
       Z.max (to_ns time + 1000000000 / (fps * packets_per_frame v120)
              - to_ns now) 100000.
Proof.
  intros Hf Ht Hn.
  destruct (frame_interval_div fps v120 Hf) as [Hd Hr].
  destruct (timespec_add_ns time (frame_interval fps v120) Ht Hr) as [Ha Hna].
  destruct (timespec_add_ns now 100000 Hn ltac:(lia)) as [Hb Hnb].
  assert (Hw : to_ns (wake_deadline fps v120 time now) =
               (if to_ns time + 1000000000 / (fps * packets_per_frame v120)
                     <? to_ns now + 100000
                then to_ns now + 100000
                else to_ns time + 1000000000 / (fps * packets_per_frame v120))).
  { unfold wake_deadline. cbv zeta.
    rewrite (timespec_gt_ns _ _ Hna Hnb).
    destruct (Z.ltb_spec (to_ns (timespec_add now 100000))
                (to_ns (timespec_add time (frame_interval fps v120))));
      destruct (Z.ltb_spec
                  (to_ns time + 1000000000 / (fps * packets_per_frame v120))
                  (to_ns now + 100000)); lia. }
  split; [destruct v120; cbn; auto|].
  split; [exact Hd|]. split; [exact Hw|].
  rewrite Hw.
  destruct (Z.ltb_spec
              (to_ns time + 1000000000 / (fps * packets_per_frame v120))
              (to_ns now + 100000)); lia.
Qed.

Lemma wake_deadline_clamped_witness :
  to_ns (wake_deadline 30 false {| tv_sec := 100; tv_nsec := 999000000 |}
                                {| tv_sec := 101; tv_nsec := 5600000 |}) =
  Z.max (to_ns {| tv_sec := 100; tv_nsec := 999000000 |}
         + 1000000000 / (30 * packets_per_frame false))
        (to_ns {| tv_sec := 101; tv_nsec := 5600000 |} + 100000).
Proof.
  apply (wake_deadline_clamped 30 false
           {| tv_sec := 100; tv_nsec := 999000000 |}
           {| tv_sec := 101; tv_nsec := 5600000 |});
    [ reflexivity
    | unfold clock_reading, normalised; cbn; lia
    | unfold clock_reading, normalised; cbn; lia ].
Defined.

Example frame_interval_30 : frame_interval 30 false = 6666666.
Proof. reflexivity. Qed.

Example wake_deadline_late :
  wake_deadline 30 false {| tv_sec := 100; tv_nsec := 999000000 |}
                         {| tv_sec := 101; tv_nsec := 5600000 |}
  = {| tv_sec := 101; tv_nsec := 5700000 |}.
Proof. reflexivity. Qed.

End ClockFacts.

(** *** Computations in the state-and-trace monad *)

Section MonadFacts.
Context {H : Type} {helpers : Helpers H}.

Local Abbreviation state := (daemon H).
Local Abbreviation rel := (daemon H -> daemon H -> list event -> Prop).

Lemma bind_state {A B : Type} (c : M A) (k : A -> M B) (s : state) :
  state_of (bind c k s) = state_of (k (value_of (c s)) (state_of (c s))).
Proof.
  unfold bind, state_of, value_of.
  destruct (c s) as [[a s1] t1]. cbn.
  destruct (k a s1) as [[b s2] t2]. reflexivity.
Qed.

Lemma bind_trace {A B : Type} (c : M A) (k : A -> M B) (s : state) :
  trace_of (bind c k s)
  = trace_of (c s) ++ trace_of (k (value_of (c s)) (state_of (c s))).
Proof.
  unfold bind, state_of, value_of, trace_of.
  destruct (c s) as [[a s1] t1]. cbn.
  destruct (k a s1) as [[b s2] t2]. reflexivity.
Qed.

Lemma bind_value {A B : Type} (c : M A) (k : A -> M B) (s : state) :
  value_of (bind c k s) = value_of (k (value_of (c s)) (state_of (c s))).
Proof.
  unfold bind, state_of, value_of.
  destruct (c s) as [[a s1] t1]. cbn.
  destruct (k a s1) as [[b s2] t2]. reflexivity.
Qed.

Lemma run_in_ret {A : Type} (R : rel) (a : A) : sequential R -> run_in R (ret a).
Proof. intros [Hr _] s. apply Hr. Qed.

Lemma run_in_bind {A B : Type} (R : rel) (c : M A) (k : A -> M B) :
  sequential R -> run_in R c -> (forall a, run_in R (k a)) -> run_in R (bind c k).
Proof.
  intros [_ Ht] Hc Hk s. rewrite bind_state, bind_trace.
  eapply Ht; [apply Hc | apply Hk].
Qed.

Lemma run_in_when (R : rel) (b : bool) (c : M unit) :
  sequential R -> (b = true -> run_in R c) -> run_in R (when b c).
Proof.
  intros HR Hc. destruct b; cbn; [auto | apply run_in_ret, HR].
Qed.

Lemma run_in_for_each (R : rel) (body : nat -> M unit) (idx : list nat) :
  sequential R -> (forall i, i ∈ idx -> run_in R (body i)) ->
  run_in R (for_each idx body).
Proof.
  intros HR. induction idx as [|i idx IH]; intros Hb; cbn [for_each].
  - apply run_in_ret, HR.
  - apply run_in_bind; [exact HR | apply Hb; left | intros _].
    apply IH. intros j Hj. apply Hb. now right.
Qed.

Lemma for_each_app (body : nat -> M unit) (l1 l2 : list nat) (s : state) :
  for_each (l1 ++ l2) body s
  = bind (for_each l1 body) (fun _ => for_each l2 body) s.
Proof.
  revert s. induction l1 as [|i l1 IH]; intros s; cbn [for_each app].
  - unfold bind, ret. destruct (for_each l2 body s) as [[[] s2] t2]. reflexivity.
  - unfold bind in *. destruct (body i s) as [[[] s1] t1].
    rewrite IH.
    destruct (for_each l1 body s1) as [[[] s2] t2].
    destruct (for_each l2 body s2) as [[[] s3] t3].
    now rewrite app_assoc.
Qed.

End MonadFacts.

(** *** Traces *)

Section TraceFacts.

Lemma applied_app k t1 t2 : applied k (t1 ++ t2) = applied k t1 ++ applied k t2.
Proof.
  induction t1 as [|e t1 IH]; [reflexivity|].
  destruct e; cbn; auto.
  destruct (Nat.eqb i k); [rewrite IH; apply app_assoc | exact IH].
Qed.

Lemma sends_app k t1 t2 : sends k (t1 ++ t2) = sends k t1 + sends k t2.
Proof.
  induction t1 as [|e t1 IH]; [reflexivity|].
  destruct e; cbn; auto. rewrite IH. lia.
Qed.

Lemma fw_seen_app t1 t2 : fw_seen (t1 ++ t2) = fw_seen t1 || fw_seen t2.
Proof. apply existsb_app. Qed.

Lemma fifo_pass_ran_app t1 t2 :
  fifo_pass_ran (t1 ++ t2) = fifo_pass_ran t1 || fifo_pass_ran t2.
Proof. apply existsb_app. Qed.

Lemma touches_app k t1 t2 : touches k (t1 ++ t2) = touches k t1 || touches k t2.
Proof. apply existsb_app. Qed.

Lemma locked_app k t1 t2 : locked k (t1 ++ t2) = locked k t1 || locked k t2.
Proof. apply existsb_app. Qed.

Lemma observe_all_app h t1 t2 :
  observe_all h (t1 ++ t2)
  = match observe_all h t1 with
    | Some h' => observe_all h' t2
    | None => None
    end.
Proof.
  revert h. induction t1 as [|e t1 IH]; intros h; [reflexivity|].
  cbn. destruct (observe h e); auto.
Qed.

Lemma sends_touches k t : touches k t = false -> sends k t = 0.
Proof.
  induction t as [|e t IH]; [reflexivity|].
  unfold touches. cbn. intros Ht. apply orb_false_iff in Ht as [He Ht].
  destruct e; cbn in *; auto. rewrite He. auto.
Qed.

Lemma touches_In k e t : In e t -> about k e = true -> touches k t = true.
Proof.
  intros Hin He. apply existsb_exists. eauto.
Qed.

Lemma queue_seen_empty_app t1 t2 :
  queue_seen_empty (t1 ++ t2) = queue_seen_empty t1 || queue_seen_empty t2.
Proof. apply existsb_app. Qed.

Lemma queue_seen_touches t :
  (forall k, touches k t = false) -> queue_seen_empty t = false.
Proof.
  induction t as [|e t IH]; [reflexivity|].
  unfold touches, queue_seen_empty in *. cbn. intros Ht.
  rewrite IH.
  - rewrite orb_false_r. destruct e; auto.
    specialize (Ht i). cbn in Ht. now rewrite Nat.eqb_refl in Ht.
  - intros k. specialize (Ht k). now apply orb_false_iff in Ht.
Qed.

Lemma locked_touches k t : touches k t = false -> locked k t = false.
Proof.
  induction t as [|e t IH]; [reflexivity|].
  unfold touches, locked in *. cbn. intros Ht.
  apply orb_false_iff in Ht as [He Ht].
  rewrite (IH Ht), orb_false_r.
  destruct e as [[|i]| |[|i]| | | | | | | | | | | |]; auto.
Qed.

End TraceFacts.

(** *** The FIFO code: lines 226-230 and 242-250 *)

Section FifoFacts.
Context {H : Type} {helpers : Helpers H}.

Local Abbreviation state := (daemon H).

Lemma fupd_same {A : Type} (f : nat -> A) i x : fupd f i x i = x.
Proof. unfold fupd. now rewrite Nat.eqb_refl. Qed.

Lemma fupd_other {A : Type} (f : nat -> A) i j x : j <> i -> fupd f i x j = f j.
Proof. intros Hne. unfold fupd. now rewrite (proj2 (Nat.eqb_neq j i)). Qed.

Lemma slot_insert_ne (s : state) (k : list (usbdevice H)) i j kb :
  i <> j -> keyboard s = k ->
  default zero_slot (<[i := kb]> k !! j) = slot s j.
Proof.
  intros Hij <-. unfold slot. now rewrite list_lookup_insert_ne.
Qed.

Lemma slot_insert_zero (k : list (usbdevice H)) i :
  default zero_slot (<[i := zero_slot]> k !! i) = zero_slot.
Proof.
  destruct (decide (i < length k)) as [Hlt|Hge].
  - now rewrite list_lookup_insert_eq.
  - rewrite list_insert_ge by lia.
    rewrite (proj2 (lookup_ge_None k i)) by lia. reflexivity.
Qed.

Lemma fifo_rel_sequential : sequential (fifo_rel (H := H)).
Proof.
  split.
  - intros s. unfold fifo_rel. cbn. rewrite orb_false_r. repeat split; auto.
  - intros s1 s2 s3 t1 t2 (A1 & A2 & A3 & A4 & A5 & A6 & A7 & A8 & A9 & A10)
                          (B1 & B2 & B3 & B4 & B5 & B6 & B7 & B8 & B9 & B10).
    unfold fifo_rel. repeat split; try congruence.
    + intros h. now rewrite observe_all_app, A5, B5.
    + now rewrite fw_seen_app, B6, A6, orb_assoc.
    + intros k. now rewrite applied_app, <- app_assoc, B7, A7.
    + auto.
    + intros k. now rewrite touches_app, A9, B9.
    + now rewrite fifo_pass_ran_app, A10, B10.
Qed.

Lemma fifo_slot_rel i : run_in fifo_rel (fifo_slot i).
Proof.
  intros s. unfold fifo_slot, read_and_apply, readlines, call_void, get_slot,
    when, bind, ret, state_of, trace_of.
  cbn. destruct (infifo (slot s i) =? 0)%Z eqn:Hi; cbn.
  - apply fifo_rel_sequential.
  - destruct (fifo s i) as [|l ls] eqn:Hf; cbn;
      match goal with |- context [(288 <=? ?v)%Z] => destruct (288 <=? v)%Z eqn:Hfw end;
      cbn; unfold fifo_rel; cbn.
    all: repeat split; auto using length_insert.
    all: try (rewrite Hfw; cbn; now rewrite ?orb_true_r, ?orb_false_r).
    all: try (intros k; unfold fupd;
              destruct (Nat.eqb_spec k i) as [->|Hne];
              [ rewrite ?Nat.eqb_refl, ?Hf; cbn; now rewrite ?app_nil_r
              | now rewrite ?(proj2 (Nat.eqb_neq k i)), ?(proj2 (Nat.eqb_neq i k))
                  by congruence ]).
    all: intros k Hk; unfold slot; cbn;
      destruct (decide (i = k)) as [->|Hne];
      [ rewrite Hk in Hi; discriminate Hi
      | now rewrite list_lookup_insert_ne ].
Qed.

Lemma fifo_slot_only i : run_in (fifo_only i) (fifo_slot i).
Proof.
  intros s. unfold fifo_slot, read_and_apply, readlines, call_void, get_slot,
    when, bind, ret, state_of, trace_of.
  cbn. destruct (infifo (slot s i) =? 0)%Z eqn:Hi; cbn.
  - intros k _. auto.
  - destruct (fifo s i) as [|l ls] eqn:Hf; cbn;
      match goal with |- context [(288 <=? ?v)%Z] => destruct (288 <=? v)%Z eqn:Hfw end;
      cbn; intros k Hk; unfold slot, fupd; cbn;
      rewrite ?(proj2 (Nat.eqb_neq k i)), ?(proj2 (Nat.eqb_neq i k)),
        ?list_lookup_insert_ne by auto; auto.
Qed.

(** An open channel is emptied, and everything on it goes to [readcmd]. *)
Lemma fifo_slot_drains i (s : state) :
  infifo (slot s i) <> 0%Z ->
  fifo (state_of (fifo_slot i s)) i = []
  /\ applied i (trace_of (fifo_slot i s)) = fifo s i.
Proof.
  intros Hi. apply Z.eqb_neq in Hi.
  unfold fifo_slot, read_and_apply, readlines, call_void, get_slot,
    when, bind, ret, state_of, trace_of.
  cbn. rewrite Hi. cbn.
  destruct (fifo s i) as [|l ls] eqn:Hf; cbn;
    match goal with |- context [(288 <=? ?v)%Z] => destruct (288 <=? v)%Z eqn:Hfw end;
    cbn; unfold fupd; rewrite !Nat.eqb_refl, ?app_nil_r; auto.
Qed.

Lemma root_fifo_rel : run_in fifo_rel root_fifo.
Proof.
  intros s. unfold root_fifo, read_and_apply, readlines, call_void, get_slot,
    when, bind, ret, state_of, trace_of.
  cbn. destruct (infifo (slot s 0) =? 0)%Z eqn:Hi; cbn.
  - apply fifo_rel_sequential.
  - destruct (fifo s 0) as [|l ls] eqn:Hf; cbn; unfold fifo_rel; cbn.
    all: repeat split; auto using length_insert.
    all: try (now rewrite orb_false_r).
    all: try (intros k; unfold fupd; destruct k; cbn;
              now rewrite ?Hf, ?app_nil_r).
    all: intros k Hk; unfold slot; cbn;
      destruct (decide (0 = k)) as [<-|Hne];
      [ rewrite Hk in Hi; discriminate Hi
      | now rewrite list_lookup_insert_ne ].
Qed.

Lemma root_fifo_only : run_in (fifo_only 0) root_fifo.
Proof.
  intros s. unfold root_fifo, read_and_apply, readlines, call_void, get_slot,
    when, bind, ret, state_of, trace_of.
  cbn. destruct (infifo (slot s 0) =? 0)%Z eqn:Hi; cbn.
  - intros k _. auto.
  - destruct (fifo s 0) as [|l ls] eqn:Hf; cbn;
      intros k Hk; unfold slot, fupd; cbn;
      rewrite ?(proj2 (Nat.eqb_neq k 0)), ?list_lookup_insert_ne by auto;
      destruct k; try congruence; auto.
Qed.

Lemma root_fifo_drains (s : state) :
  infifo (slot s 0) <> 0%Z ->
  fifo (state_of (root_fifo s)) 0 = []
  /\ applied 0 (trace_of (root_fifo s)) = fifo s 0.
Proof.
  intros Hi. apply Z.eqb_neq in Hi.
  unfold root_fifo, read_and_apply, readlines, call_void, get_slot,
    when, bind, ret, state_of, trace_of.
  cbn. rewrite Hi. cbn.
  destruct (fifo s 0) as [|l ls] eqn:Hf; cbn; rewrite ?app_nil_r; auto.
Qed.

Lemma process_fifos_rel : run_in fifo_rel process_fifos.
Proof.
  intros s. unfold process_fifos.
  apply (run_in_for_each fifo_rel fifo_slot);
    [apply fifo_rel_sequential | intros i _; apply fifo_slot_rel].
Qed.

End FifoFacts.

(** *** The outer loop: lines 232-258 *)

Section SweepFacts.
Context {H : Type} {helpers : Helpers H}.

Local Abbreviation state := (daemon H).

Lemma for_each_fifo_drains idx (s : state) k :
  k ∈ idx -> infifo (slot s k) <> 0%Z ->
  fifo (state_of (for_each idx fifo_slot s)) k = []
  /\ applied k (trace_of (for_each idx fifo_slot s)) = fifo s k.
Proof.
  revert s.
  induction idx as [|i idx IH]; intros s Hin Hopen.
  - inversion Hin.
  - cbn [for_each]. rewrite bind_state, bind_trace, applied_app.
    destruct (decide (k = i)) as [->|Hne].
    + destruct (fifo_slot_drains i s Hopen) as [Hd Ha].
      pose proof (run_in_for_each fifo_rel fifo_slot idx fifo_rel_sequential
                    (fun j _ => fifo_slot_rel j) (state_of (fifo_slot i s)))
        as (_ & _ & _ & _ & _ & _ & Hc & _).
      specialize (Hc i). rewrite Hd in Hc.
      apply app_eq_nil in Hc as [Hc1 Hc2].
      rewrite Hc1, Hc2, Ha, app_nil_r. auto.
    + destruct (fifo_slot_only i s k Hne) as (Hs & Hf & Ha).
      rewrite Ha. cbn [app]. rewrite <- Hf.
      apply IH.
      * apply elem_of_cons in Hin as [?|?]; [contradiction | assumption].
      * now rewrite Hs.
Qed.

Lemma process_fifos_drains (s : state) k :
  k < DEV_MAX s -> infifo (slot s k) <> 0%Z ->
  fifo (state_of (process_fifos s)) k = []
  /\ applied k (trace_of (process_fifos s)) = fifo s k.
Proof.
  intros Hk. apply for_each_fifo_drains. apply elem_of_seq. lia.
Qed.

Lemma sweep_rel_sequential : sequential (sweep_rel (H := H)).
Proof.
  split.
  - intros s. unfold sweep_rel. cbn. rewrite orb_false_r. repeat split; auto.
  - intros s1 s2 s3 t1 t2 (A1 & A2 & A3 & A4 & A5 & A6 & A7 & A8 & A9 & A10)
                          (B1 & B2 & B3 & B4 & B5 & B6 & B7 & B8 & B9 & B10).
    unfold sweep_rel. repeat split; try congruence.
    + now rewrite observe_all_app, A4, B4.
    + intros k. rewrite locked_app, B5, A5.
      destruct (locked k t1), (locked k t2); reflexivity.
    + now rewrite fw_seen_app, B6, A6, orb_assoc.
    + intros k. now rewrite applied_app, <- app_assoc, B7, A7.
    + auto.
    + rewrite fifo_pass_ran_app in H0. apply orb_false_iff in H0 as [H1 H2].
      rewrite fw_seen_app. destruct (A9 H1) as [-> _], (B9 H2) as [-> _].
      reflexivity.
    + rewrite fifo_pass_ran_app in H0. apply orb_false_iff in H0 as [H1 H2].
      destruct (A9 H1) as [_ A], (B9 H2) as [_ B].
      destruct (A k) as [A' _], (B k) as [B' _]. congruence.
    + rewrite fifo_pass_ran_app in H0. apply orb_false_iff in H0 as [H1 H2].
      destruct (A9 H1) as [_ A], (B9 H2) as [_ B].
      destruct (A k) as [_ A'], (B k) as [_ B'].
      now rewrite applied_app, A', B'.
    + now rewrite fifo_pass_ran_app, queue_seen_empty_app, A10, B10.
Qed.

#[local] Arguments process_fifos : simpl never.

Ltac sweep_slot_cases :=
  unfold sweep_slot, call_status, call_void, closeusb, get_slot,
    pthread_mutex_lock, pthread_mutex_unlock, IS_CONNECTED, set_keyboard,
    when, bind, ret, state_of, trace_of, slot;
  cbn;
  match goal with
  | |- context [connected ?x] => destruct (connected x) eqn:Hc
  end; cbn;
  [ match goal with
    | |- context [usbdequeue ?x] => destruct (usbdequeue x) as [? ?] eqn:Hd
    end; cbn;
    match goal with
    | |- context [if (?r =? 0)%Z then _ else _] => destruct (r =? 0)%Z eqn:Hr
    end; cbn;
    [ match goal with
      | |- context [usb_tryreset ?x] =>
          destruct (usb_tryreset x) as [? ?] eqn:Ht
      end; cbn;
      match goal with
      | |- context [negb (?r =? 0)%Z] => destruct (r =? 0)%Z eqn:Hr2
      end; cbn | ];
    try (match goal with
         | |- context [(queuecount ?x =? 0)%Z] =>
             destruct (queuecount x =? 0)%Z eqn:Hq
         end; cbn;
         [ match goal with
           | |- context [process_fifos ?x] =>
               pose proof (process_fifos_rel x) as Hp;
               destruct (process_fifos x) as [[[] s4] t4];
               unfold state_of, trace_of, fifo_rel in Hp;
               cbn [fst snd keyboard mutex kblistmutex fifo fps v120] in Hp;
               destruct Hp as (P1 & P2 & P3 & P4 & P5 & P6 & P7 & P8 & P9 & P10)
           end; cbn | ]);
    try match goal with
        | P : mutex _ = _ |- _ => rewrite P
        end;
    rewrite ?fupd_same; cbn
  | ].

Lemma sweep_slot_rel i : run_in sweep_rel (sweep_slot i).
Proof.
  intros s. sweep_slot_cases.
  6: apply sweep_rel_sequential.
  all: unfold sweep_rel; cbn [keyboard mutex kblistmutex fifo fps v120].
  all: repeat split.
  all: try congruence.
  all: rewrite ?length_insert in *; try congruence.
  (* lock discipline *)
  all: try solve
    [ unfold list_only, holds, give_back; cbn;
      rewrite ?observe_all_app, ?P5; cbn;
      unfold holds, give_back; cbn; rewrite ?Nat.eqb_refl; cbn;
      unfold give_back; cbn; rewrite ?Nat.eqb_refl; reflexivity ].
  (* the device mutex *)
  all: try solve
    [ intros k; unfold locked; cbn; rewrite ?existsb_app;
      try (fold (locked k t4); rewrite (locked_touches k t4 (P9 k))); cbn;
      unfold fupd; destruct (Nat.eqb_spec i k) as [->|Hne];
      [ now rewrite ?Nat.eqb_refl
      | now rewrite (proj2 (Nat.eqb_neq k i)) by congruence ] ].
  (* v120 *)
  all: try solve
    [ unfold fw_seen in *; cbn; rewrite ?existsb_app; cbn;
      rewrite ?orb_false_r; auto ].
  (* lines *)
  all: try solve
    [ intros k; cbn; rewrite ?applied_app; cbn; rewrite ?app_nil_r; auto ].
  (* no FIFO pass *)
  all: try solve
    [ match goal with
      | Hg : fifo_pass_ran _ = false |- _ =>
          unfold fifo_pass_ran in Hg; cbn in Hg;
          rewrite ?existsb_app in Hg; cbn in Hg;
          rewrite ?orb_true_r in Hg; discriminate Hg
      end ].
  (* a pass runs when the queue is empty *)
  all: try solve
    [ unfold fifo_pass_ran, queue_seen_empty; cbn; rewrite ?existsb_app; cbn;
      rewrite ?Hq, ?orb_true_r; cbn; now rewrite ?orb_true_r ].
  (* all-zero slots *)
  all: intros k Hk; destruct (decide (k = i)) as [->|Hne];
    [ unfold slot in Hk; rewrite Hk in Hc; discriminate Hc | ].
  all: unfold slot; cbn [keyboard];
    rewrite ?list_lookup_insert_ne by congruence.
  all: try (change (slot s4 k = zero_slot); apply P8;
            unfold slot; cbn [keyboard];
            rewrite ?list_lookup_insert_ne by congruence).
  all: exact Hk.
Qed.

Lemma sweep_slot_at i : run_in (sweep_at i) (sweep_slot i).
Proof.
  intros s. sweep_slot_cases.
  6: { unfold sweep_at. cbn. repeat split; try lia; try discriminate; tauto. }
  all: unfold sweep_at; cbn [keyboard mutex kblistmutex fifo fps v120].
  all: split; [|split].
  (* the calls are about slot [i] *)
  all: try solve
    [ intros k; unfold touches; cbn; rewrite ?existsb_app;
      try (fold (touches k t4); rewrite (P9 k)); cbn;
      destruct (Nat.eqb_spec i k); cbn; intros Hk;
      [ congruence | discriminate Hk ] ].
  (* at most one send *)
  all: try solve
    [ cbn; rewrite ?sends_app, ?(sends_touches i t4 (P9 i)), ?Nat.eqb_refl;
      cbn; lia ].
  (* a failed send and a failed reset *)
  all: intros r Hs Hf Hne.
  all: try solve
    [ split; [unfold slot; cbn [keyboard]; apply slot_insert_zero | cbn; tauto] ].
  all: exfalso; cbn in Hs, Hf; rewrite ?in_app_iff in Hs, Hf; cbn in Hs, Hf.
  all: try
    match goal with
    | P : forall k, touches k ?t = false |- _ =>
        assert (Hnot : forall e, about i e = true -> ~ In e t)
          by (intros e He Hin; specialize (P i);
              rewrite (touches_In i e t Hin He) in P; discriminate P)
    end.
  all: rewrite ?Z.eqb_eq, ?Z.eqb_neq in *.
  all: repeat
    match goal with
    | Hx : _ \/ _ |- _ => destruct Hx as [Hx|Hx]
    | Hx : False |- _ => destruct Hx
    | Hx : @eq event _ _ |- _ =>
        first [discriminate Hx | injection Hx as Hx; subst]
    | Hx : In ?e ?t, Hn : forall e, about ?j e = true -> ~ In e ?t |- _ =>
        exact (Hn e (Nat.eqb_refl j) Hx)
    end; try congruence.
Qed.

Lemma sweep_touches idx (s : state) k :
  touches k (trace_of (for_each idx sweep_slot s)) = true -> k ∈ idx.
Proof.
  revert s. induction idx as [|i idx IH]; intros s; cbn [for_each].
  - discriminate.
  - rewrite bind_trace, touches_app. intros Ht.
    apply orb_true_iff in Ht as [Ht|Ht].
    + apply (proj1 (sweep_slot_at i s)) in Ht. subst. left.
    + right. eapply IH, Ht.
Qed.

Lemma sweep_untouched idx (s : state) k :
  k ∉ idx -> touches k (trace_of (for_each idx sweep_slot s)) = false.
Proof.
  intros Hk. destruct (touches _ _) eqn:Ht; [|reflexivity].
  apply sweep_touches in Ht. contradiction.
Qed.

Lemma sweep_slot_untouched i (s : state) k :
  k <> i -> touches k (trace_of (sweep_slot i s)) = false.
Proof.
  intros Hk. destruct (touches _ _) eqn:Ht; [|reflexivity].
  apply (proj1 (sweep_slot_at i s)) in Ht. contradiction.
Qed.

Lemma for_each_sweep_rel idx : run_in sweep_rel (for_each idx sweep_slot).
Proof.
  apply run_in_for_each; [apply sweep_rel_sequential|].
  intros i _. apply sweep_slot_rel.
Qed.

Lemma sweep_sends_once idx (s : state) k :
  NoDup idx -> sends k (trace_of (for_each idx sweep_slot s)) <= 1.
Proof.
  intros Hnd. revert s. induction Hnd as [|i idx Hi Hnd IH]; intros s.
  - cbn. lia.
  - cbn [for_each]. rewrite bind_trace, sends_app.
    destruct (decide (k = i)) as [->|Hne].
    + rewrite (sends_touches i (trace_of (for_each idx _ _)))
        by now apply sweep_untouched.
      pose proof (proj1 (proj2 (sweep_slot_at i s))). lia.
    + rewrite (sends_touches k (trace_of (sweep_slot i s)))
        by now apply sweep_slot_untouched.
      apply IH.
Qed.

Lemma sweep_closes idx (s : state) i r :
  NoDup idx ->
  In (EvDequeue i 0) (trace_of (for_each idx sweep_slot s)) ->
  In (EvTryReset i r) (trace_of (for_each idx sweep_slot s)) ->
  r <> 0%Z ->
  slot (state_of (for_each idx sweep_slot s)) i = zero_slot
  /\ In (EvCloseUsb i) (trace_of (for_each idx sweep_slot s)).
Proof.
  intros Hnd. revert s. induction Hnd as [|j idx Hj Hnd IH]; intros s.
  - cbn. tauto.
  - cbn [for_each]. rewrite bind_state, bind_trace, !in_app_iff.
    set (s1 := state_of (sweep_slot j s)).
    intros Hs Hf Hr.
    assert (Hown : forall e, about i e = true ->
                     In e (trace_of (sweep_slot j s)) -> i = j).
    { intros e He Hin. apply (proj1 (sweep_slot_at j s)).
      eapply touches_In; eauto. }
    assert (Hrest : forall e, about i e = true ->
                      In e (trace_of (for_each idx sweep_slot s1)) -> i ∈ idx).
    { intros e He Hin. eapply sweep_touches, touches_In; eauto. }
    destruct Hs as [Hs|Hs].
    + assert (i = j) as -> by (eapply Hown, Hs; apply Nat.eqb_refl).
      destruct Hf as [Hf|Hf].
      * destruct (proj2 (proj2 (sweep_slot_at j s)) r Hs Hf Hr) as [Hz Hc].
        split; [|now left].
        now apply (for_each_sweep_rel idx s1).
      * exfalso. apply Hj. eapply Hrest, Hf. apply Nat.eqb_refl.
    + assert (Hin : i ∈ idx) by (eapply Hrest, Hs; apply Nat.eqb_refl).
      destruct Hf as [Hf|Hf].
      * exfalso. apply Hj.
        assert (i = j) as <- by (eapply Hown, Hf; apply Nat.eqb_refl).
        exact Hin.
      * destruct (IH s1 Hs Hf Hr) as [Hz Hc]. split; [exact Hz | now right].
Qed.

End SweepFacts.

(** *** One iteration of the loop: lines 223-269 *)

Section TickFacts.
Context {H : Type} {helpers : Helpers H}.

Local Abbreviation state := (daemon H).

#[local] Arguments root_fifo : simpl never.
#[local] Arguments sweep : simpl never.

Lemma tick_run time now (s : state) :
  let s2 := state_of (sweep_phase s) in
  let s' := match kblistmutex s2 with
            | Self => set_mutex ListLock Free s2
            | _ => s2
            end in
  let d := wake_deadline (fps s') (v120 s') time now in
  tick time now s
  = (d, s', EvLock ListLock :: trace_of (root_phase s) ++ trace_of (sweep_phase s)
                 ++ [EvUnlock ListLock; EvNanosleep d]).
Proof.
  unfold sweep_phase, root_phase.
  unfold tick, bind, pthread_mutex_lock, pthread_mutex_unlock, state_of, trace_of.
  cbn. destruct (root_fifo _) as [[[] s1] t1]. cbn.
  destruct (sweep s1) as [[[] s2] t2]. cbn.
  reflexivity.
Qed.

Lemma root_phase_rel (s : state) :
  fifo_rel (set_mutex ListLock Self s) (state_of (root_phase s))
    (trace_of (root_phase s)).
Proof. apply root_fifo_rel. Qed.

Lemma sweep_phase_rel (s : state) :
  sweep_rel (state_of (root_phase s)) (state_of (sweep_phase s))
    (trace_of (sweep_phase s)).
Proof. apply for_each_sweep_rel. Qed.

Lemma tick_trace time now (s : state) :
  trace_of (tick time now s)
  = EvLock ListLock :: trace_of (root_phase s) ++ trace_of (sweep_phase s)
      ++ [EvUnlock ListLock; EvNanosleep (value_of (tick time now s))].
Proof. now rewrite tick_run. Qed.

Lemma tick_state time now (s : state) :
  state_of (tick time now s)
  = set_mutex ListLock Free (state_of (sweep_phase s)).
Proof.
  rewrite tick_run. cbv zeta. unfold state_of at 1. cbn [fst snd].
  destruct (sweep_phase_rel s) as (Hl & _).
  destruct (root_phase_rel s) as (_ & Hl' & _).
  rewrite Hl, Hl'. reflexivity.
Qed.

Lemma tick_value time now (s : state) :
  value_of (tick time now s)
  = wake_deadline (fps (state_of (tick time now s)))
      (v120 (state_of (tick time now s))) time now.
Proof. now rewrite tick_run. Qed.

Lemma tick_keeps_fps time now (s : state) :
  fps (state_of (tick time now s)) = fps s.
Proof.
  rewrite tick_state. cbn [fps set_mutex].
  destruct (root_phase_rel s) as (_ & _ & Rf & _).
  destruct (sweep_phase_rel s) as (_ & Sf & _).
  now rewrite Sf, Rf.
Qed.

Lemma root_fifo_quiet (s : state) :
  fw_seen (trace_of (root_fifo s)) = false.
Proof.
  unfold root_fifo, read_and_apply, readlines, call_void, get_slot,
    when, bind, ret, trace_of.
  cbn. destruct (infifo (slot s 0) =? 0)%Z; cbn; [reflexivity|].
  destruct (fifo s 0); reflexivity.
Qed.

Lemma not_touched_not_in k t e :
  touches k t = false -> about k e = true -> ~ In e t.
Proof.
  intros Ht He Hin. rewrite (touches_In k e t Hin He) in Ht. discriminate.
Qed.

(** A call about slot [i] is a call of the outer loop. *)
Lemma tick_about time now (s : state) i e :
  about i e = true -> In e (trace_of (tick time now s)) ->
  In e (trace_of (sweep_phase s)).
Proof.
  intros He. rewrite tick_trace.
  destruct (root_phase_rel s) as (_ & _ & _ & _ & _ & _ & _ & _ & Rt & _).
  intros [Hx|Hx]; [subst; discriminate He|].
  apply in_app_iff in Hx as [Hx|Hx];
    [exfalso; eapply not_touched_not_in; eauto|].
  apply in_app_iff in Hx as [Hx|Hx]; [exact Hx|].
  destruct Hx as [Hx|[Hx|[]]]; subst; discriminate He.
Qed.

(** C1.  In every iteration of the loop, [usbdequeue] is called at most
    once on any slot, whatever the length of its queue; and when that
    call reports a failed send (0) and the [usb_tryreset] that follows
    reports failure (non-zero), [closeusb] is called on the slot and at
    the end of the iteration the slot is no longer connected. *)
Theorem tick_sends_once_and_closes time now (s : state) :
  (forall i, sends i (trace_of (tick time now s)) <= 1)
  /\ (forall i r,
        In (EvDequeue i 0) (trace_of (tick time now s)) ->
        In (EvTryReset i r) (trace_of (tick time now s)) ->
        r <> 0%Z ->
        In (EvCloseUsb i) (trace_of (tick time now s))
        /\ IS_CONNECTED (slot (state_of (tick time now s)) i) = false).
Proof.
  split.
  - intros i. rewrite tick_trace. cbn [sends]. rewrite !sends_app. cbn [sends].
    destruct (root_phase_rel s) as (_ & _ & _ & _ & _ & _ & _ & _ & Rt & _).
    rewrite (sends_touches i _ (Rt i)).
    pose proof (sweep_sends_once (seq 0 (DEV_MAX (state_of (root_phase s))))
                  (state_of (root_phase s)) i (NoDup_seq _ _)) as Hs.
    fold (sweep (state_of (root_phase s))) in Hs. fold (sweep_phase s) in Hs.
    lia.
  - intros i r Hs Hf Hr.
    apply (tick_about time now s i) in Hs; [|apply Nat.eqb_refl].
    apply (tick_about time now s i) in Hf; [|apply Nat.eqb_refl].
    destruct (sweep_closes (seq 0 (DEV_MAX (state_of (root_phase s))))
                (state_of (root_phase s)) i r (NoDup_seq _ _) Hs Hf Hr)
      as [Hz Hc].
    fold (sweep (state_of (root_phase s))) in Hz, Hc.
    fold (sweep_phase s) in Hz, Hc.
    split.
    + rewrite tick_trace. right. apply in_app_iff. right.
      apply in_app_iff. now left.
    + rewrite tick_state. unfold IS_CONNECTED.
      change (slot (set_mutex ListLock Free (state_of (sweep_phase s))) i)
        with (slot (state_of (sweep_phase s)) i).
      now rewrite Hz.
Qed.

(** C6.  Along every iteration of the loop the lock discipline holds:
    [kblistmutex] is taken first, every device mutex taken during the
    sweep is given back - by [pthread_mutex_unlock], or by [closeusb]
    tearing the slot down on the path of a failed send and failed reset -
    before [kblistmutex] is given back, and [kblistmutex] is given back
    before the sleep.  In the state the iteration ends in, [kblistmutex]
    is free and so is every device mutex the sweep took. *)
Theorem tick_lock_discipline time now (s : state) :
  observe_all nothing_held (trace_of (tick time now s)) = Some nothing_held
  /\ kblistmutex (state_of (tick time now s)) = Free
  /\ (forall i, mutex (state_of (tick time now s)) i
               = if locked i (trace_of (tick time now s)) then Free
                 else mutex s i).
Proof.
  destruct (root_phase_rel s) as (Rm & _ & _ & _ & Ro & _ & _ & _ & Rt & _).
  destruct (sweep_phase_rel s) as (_ & _ & _ & So & Sm & _).
  rewrite tick_trace, tick_state. repeat split.
  - cbn [observe_all observe nothing_held list_held dev_held].
    fold list_only.
    rewrite observe_all_app, Ro, observe_all_app, So. reflexivity.
  - intros i. cbn [mutex set_mutex]. rewrite Sm, Rm. cbn [mutex set_mutex].
    unfold locked at 2. cbn [existsb]. rewrite !existsb_app. cbn [existsb].
    fold (locked i (trace_of (root_phase s))).
    fold (locked i (trace_of (sweep_phase s))).
    rewrite (locked_touches i _ (Rt i)). cbn [orb].
    now rewrite orb_false_r.
Qed.

(** The multiplier an iteration uses for its sleep follows [v120] as
    the sweep leaves it, and [v120] is set then exactly when it was set
    before or a firmware version of at least 0x0120 was read, which
    takes a pass over the FIFOs. *)
Lemma tick_sleep_multiplier time now (s : state) :
  value_of (tick time now s)
  = wake_deadline (fps s) (v120 (state_of (tick time now s))) time now
  /\ multiplier (state_of (tick time now s))
     = (if v120 (state_of (tick time now s)) then 12 else 5)%Z
  /\ v120 (state_of (tick time now s))
     = v120 s || fw_seen (trace_of (tick time now s))
  /\ implb (fw_seen (trace_of (tick time now s)))
           (queue_seen_empty (trace_of (tick time now s))) = true.
Proof.
  destruct (root_phase_rel s) as (_ & _ & Rf & _ & _ & Rv & _).
  destruct (sweep_phase_rel s) as (_ & Sf & _ & _ & _ & Sv & _ & _ & Sg & Sq).
  assert (Hq : fw_seen (trace_of (root_phase s)) = false)
    by apply root_fifo_quiet.
  assert (Hfw : fw_seen (trace_of (tick time now s))
                = fw_seen (trace_of (sweep_phase s))).
  { rewrite tick_trace. unfold fw_seen at 1. cbn [existsb].
    rewrite !existsb_app. cbn [existsb].
    fold (fw_seen (trace_of (root_phase s))).
    fold (fw_seen (trace_of (sweep_phase s))).
    rewrite Hq. cbn [orb]. now rewrite orb_false_r. }
  assert (Hv : v120 (state_of (tick time now s))
               = v120 s || fw_seen (trace_of (tick time now s))).
  { rewrite Hfw, tick_state. cbn [v120 set_mutex].
    rewrite Sv, Rv, Hq. cbn [v120 set_mutex]. now rewrite orb_false_r. }
  repeat split.
  - rewrite tick_value. f_equal. apply tick_keeps_fps.
  - exact Hv.
  - rewrite Hfw.
    destruct (fw_seen (trace_of (sweep_phase s))) eqn:Hs; [|reflexivity].
    cbn [implb]. rewrite tick_trace. unfold queue_seen_empty. cbn [existsb].
    rewrite !existsb_app.
    fold (queue_seen_empty (trace_of (sweep_phase s))).
    rewrite <- Sq.
    destruct (fifo_pass_ran (trace_of (sweep_phase s))) eqn:Hp.
    + now rewrite orb_true_r.
    + destruct (Sg eq_refl) as [Hno _]. congruence.
Qed.

(** Lines only move from a slot's FIFO to [readcmd] for that slot, in
    arrival order; the root controller's FIFO is read at the head of the
    iteration; the other FIFOs are read only by the pass of lines
    241-250, which runs exactly when line 240 finds a queue empty; and a
    pass empties every open FIFO of the table. *)
Lemma tick_lines_move time now (s : state) :
  (forall k, applied k (trace_of (tick time now s))
             ++ fifo (state_of (tick time now s)) k = fifo s k)
  /\ (infifo (slot s 0) <> 0%Z -> fifo (state_of (tick time now s)) 0 = [])
  /\ fifo_pass_ran (trace_of (tick time now s))
     = queue_seen_empty (trace_of (tick time now s))
  /\ (queue_seen_empty (trace_of (tick time now s)) = false ->
      forall k, k <> 0 ->
        fifo (state_of (tick time now s)) k = fifo s k
        /\ applied k (trace_of (tick time now s)) = [])
  /\ (forall (s0 : state) k,
        k < DEV_MAX s0 -> infifo (slot s0 k) <> 0%Z ->
        fifo (state_of (process_fifos s0)) k = []
        /\ applied k (trace_of (process_fifos s0)) = fifo s0 k).
Proof.
  destruct (root_phase_rel s) as (_ & _ & _ & _ & _ & _ & Rc & _ & Rt & Rp).
  destruct (sweep_phase_rel s) as (_ & _ & _ & _ & _ & _ & Sc & _ & Sg & Sq).
  assert (Ha : forall k, applied k (trace_of (tick time now s))
                 = applied k (trace_of (root_phase s))
                   ++ applied k (trace_of (sweep_phase s))).
  { intros k. rewrite tick_trace. cbn [applied]. rewrite !applied_app.
    cbn [applied]. now rewrite app_nil_r. }
  assert (Hp : fifo_pass_ran (trace_of (tick time now s))
               = fifo_pass_ran (trace_of (sweep_phase s))).
  { rewrite tick_trace. unfold fifo_pass_ran at 1. cbn [existsb].
    rewrite !existsb_app. cbn [existsb].
    fold (fifo_pass_ran (trace_of (root_phase s))).
    fold (fifo_pass_ran (trace_of (sweep_phase s))).
    rewrite Rp. cbn [orb]. now rewrite orb_false_r. }
  assert (Hq : queue_seen_empty (trace_of (tick time now s))
               = queue_seen_empty (trace_of (sweep_phase s))).
  { rewrite tick_trace. unfold queue_seen_empty at 1. cbn [existsb].
    rewrite !existsb_app. cbn [existsb].
    fold (queue_seen_empty (trace_of (root_phase s))).
    fold (queue_seen_empty (trace_of (sweep_phase s))).
    rewrite (queue_seen_touches _ Rt). cbn [orb]. now rewrite orb_false_r. }
  split; [|split; [|split; [|split]]].
  - intros k. rewrite Ha, tick_state. cbn [fifo set_mutex].
    rewrite <- app_assoc, Sc. apply Rc.
  - intros Hopen. rewrite tick_state. cbn [fifo set_mutex].
    destruct (root_fifo_drains (set_mutex ListLock Self s) Hopen) as [Hd _].
    fold (root_phase s) in Hd.
    pose proof (Sc 0) as Hc. rewrite Hd in Hc.
    now apply app_eq_nil in Hc.
  - now rewrite Hp, Hq.
  - rewrite Hq, <- Sq. intros Hno k Hk.
    destruct (Sg Hno) as [_ Hg]. destruct (Hg k) as [Hf Hn].
    destruct (root_fifo_only (set_mutex ListLock Self s) k Hk) as (_ & Hf' & Hn').
    fold (root_phase s) in Hf', Hn'.
    rewrite Ha, tick_state. cbn [fifo set_mutex].
    rewrite Hf, Hf', Hn, Hn'. auto.
  - intros s0 k. apply process_fifos_drains.
Qed.

End TickFacts.

(** *** Shutdown: lines 21-39 *)

Section QuitFacts.
Context {H : Type} {helpers : Helpers H}.

Local Abbreviation state := (daemon H).

Lemma quit_slot_run i (s : state) :
  trace_of (quit_slot i s) = quit_slot_calls s i
  /\ kblistmutex (state_of (quit_slot i s)) = kblistmutex s
  /\ length (keyboard (state_of (quit_slot i s))) = length (keyboard s)
  /\ (forall j, j <> i ->
        slot (state_of (quit_slot i s)) j = slot s j
        /\ mutex (state_of (quit_slot i s)) j = mutex s j)
  /\ (IS_CONNECTED (slot s i) = true ->
      slot (state_of (quit_slot i s)) i = zero_slot
      /\ mutex (state_of (quit_slot i s)) i = Free).
Proof.
  unfold quit_slot, quit_slot_calls, timedlock_result, pthread_mutex_timedlock,
    call_void, closeusb, get_slot, when, bind, ret, state_of, trace_of,
    IS_CONNECTED.
  cbn. destruct (connected (slot s i)) eqn:Hc; cbn.
  2: { repeat split; auto; discriminate. }
  destruct OS_MAC; cbn; [|destruct (mutex s i) eqn:Hm; cbn].
  all: rewrite ?length_insert.
  all: repeat split; try reflexivity.
  all: first
    [ solve [ unfold slot; cbn [keyboard set_keyboard];
              rewrite ?list_lookup_insert_ne by congruence; reflexivity ]
    | solve [ cbn [mutex]; rewrite ?fupd_other by congruence; reflexivity ]
    | solve [ unfold slot; cbn [keyboard]; apply slot_insert_zero ]
    | solve [ cbn [mutex]; apply fupd_same ] ].
Qed.

Lemma quit_slot_calls_ext (s s0 : state) i :
  slot s i = slot s0 i -> mutex s i = mutex s0 i ->
  quit_slot_calls s i = quit_slot_calls s0 i.
Proof.
  intros Hs Hm. unfold quit_slot_calls, timedlock_result. cbn [get_mutex].
  now rewrite Hs, Hm.
Qed.

Lemma quit_loop idx (s s0 : state) :
  NoDup idx ->
  (forall j, j ∈ idx -> slot s j = slot s0 j /\ mutex s j = mutex s0 j) ->
  trace_of (for_each idx quit_slot s) = flat_map (quit_slot_calls s0) idx
  /\ kblistmutex (state_of (for_each idx quit_slot s)) = kblistmutex s
  /\ length (keyboard (state_of (for_each idx quit_slot s)))
     = length (keyboard s)
  /\ (forall j, j ∉ idx ->
        slot (state_of (for_each idx quit_slot s)) j = slot s j
        /\ mutex (state_of (for_each idx quit_slot s)) j = mutex s j)
  /\ (forall j, j ∈ idx -> IS_CONNECTED (slot s0 j) = true ->
        mutex (state_of (for_each idx quit_slot s)) j = Free).
Proof.
  intros Hnd. revert s. induction Hnd as [|i idx Hi Hnd IH]; intros s Hag.
  - cbn. repeat split; auto. intros j Hj. inversion Hj.
  - cbn [for_each flat_map]. rewrite bind_state, bind_trace.
    destruct (quit_slot_run i s) as (Ht & Hl & Hn & Hf & Hc).
    set (s1 := state_of (quit_slot i s)) in *.
    destruct (Hag i ltac:(left)) as [Hsi Hmi].
    assert (Hag1 : forall j, j ∈ idx ->
              slot s1 j = slot s0 j /\ mutex s1 j = mutex s0 j).
    { intros j Hj. assert (j <> i) by (intros ->; contradiction).
      destruct (Hf j ltac:(assumption)) as [-> ->].
      apply Hag. now right. }
    destruct (IH s1 Hag1) as (It & Il & In' & If & Ic).
    repeat split.
    + rewrite Ht, It. f_equal. now apply quit_slot_calls_ext.
    + congruence.
    + congruence.
    + apply not_elem_of_cons in H0 as [Hji Hjx].
      destruct (If j Hjx) as [-> _]. now apply Hf.
    + apply not_elem_of_cons in H0 as [Hji Hjx].
      destruct (If j Hjx) as [_ ->]. now apply Hf.
    + intros j Hj Hcon. apply elem_of_cons in Hj as [->|Hj].
      * destruct (If i Hi) as [_ ->]. apply Hc. now rewrite Hsi.
      * now apply Ic.
Qed.

Lemma timedlock_run l (s : state) :
  trace_of (pthread_mutex_timedlock l s) = [EvTimedLock l (timedlock_result s l)]
  /\ keyboard (state_of (pthread_mutex_timedlock l s)) = keyboard s
  /\ (forall l', l' <> l ->
        get_mutex (state_of (pthread_mutex_timedlock l s)) l' = get_mutex s l')
  /\ (timedlock_result s l = true ->
      get_mutex (state_of (pthread_mutex_timedlock l s)) l = Self)
  /\ (timedlock_result s l = false ->
      state_of (pthread_mutex_timedlock l s) = s).
Proof.
  unfold pthread_mutex_timedlock, timedlock_result, state_of, trace_of.
  destruct OS_MAC; cbn; [|destruct (get_mutex s l) eqn:Hm; cbn].
  all: repeat split; try reflexivity; try discriminate.
  all: intros.
  all: repeat match goal with
              | x : lock_id |- _ => destruct x
              end; cbn; try reflexivity; try congruence.
  all: first [ apply fupd_other; congruence | apply fupd_same ].
Qed.

Lemma quit_run (s : state) :
  trace_of (quit s) = quit_calls s
  /\ (timedlock_result s ListLock = true ->
      kblistmutex (state_of (quit s)) = Free)
  /\ mutex (state_of (quit s)) 0 = Free
  /\ (forall j, j ∈ seq 1 (DEV_MAX s - 1) -> IS_CONNECTED (slot s j) = true ->
        mutex (state_of (quit s)) j = Free).
Proof.
  unfold quit, quit_calls. rewrite !bind_state, !bind_trace.
  destruct (timedlock_run ListLock s) as (At & Ak & Am & Ay & An).
  set (sA := state_of (pthread_mutex_timedlock ListLock s)) in *.
  assert (Hdm : DEV_MAX sA = DEV_MAX s) by (unfold DEV_MAX; now rewrite Ak).
  assert (Hag : forall j, j ∈ seq 1 (DEV_MAX sA - 1) ->
            slot sA j = slot s j /\ mutex sA j = mutex s j).
  { intros j _. split; [unfold slot; now rewrite Ak|].
    apply (Am (DevLock j)). discriminate. }
  destruct (quit_loop (seq 1 (DEV_MAX sA - 1)) sA s (NoDup_seq _ _) Hag)
    as (Bt & Bl & _ & Bf & Bc).
  set (sB := state_of (for_each (seq 1 (DEV_MAX sA - 1)) quit_slot sA)) in *.
  assert (H0 : 0 ∉ seq 1 (DEV_MAX sA - 1))
    by (intros Hin; apply elem_of_seq in Hin; lia).
  destruct (Bf 0 H0) as [Bs0 Bm0].
  destruct (timedlock_run (DevLock 0) sB) as (Ct & Ck & Cm & Cy & Cn).
  set (sC := state_of (pthread_mutex_timedlock (DevLock 0) sB)) in *.
  assert (Hres : timedlock_result sB (DevLock 0) = timedlock_result s (DevLock 0)).
  { assert (E : mutex sA 0 = mutex s 0)
      by (apply (Am (DevLock 0)); discriminate).
    unfold timedlock_result. cbn [get_mutex]. now rewrite Bm0, E. }
  assert (HlC : kblistmutex sC = kblistmutex sA).
  { rewrite <- Bl. apply (Cm ListLock). discriminate. }
  repeat split.
  - rewrite At, Bt, Ct, Hres, Hdm. reflexivity.
  - intros Hok. unfold closeusb, usbdeinit, pthread_mutex_unlock, state_of.
    cbn. rewrite HlC. specialize (Ay Hok). cbn in Ay. rewrite Ay. reflexivity.
  - unfold closeusb, usbdeinit, pthread_mutex_unlock, state_of.
    cbn. destruct (kblistmutex sC); reflexivity.
  - intros j Hj Hcon. rewrite <- Hdm in Hj.
    assert (Hj0 : j <> 0) by (apply elem_of_seq in Hj; lia).
    assert (mutex sC j = Free) as HmC.
    { change (get_mutex sC (DevLock j) = Free).
      rewrite Cm by congruence. cbn [get_mutex]. now apply Bc. }
    unfold closeusb, usbdeinit, pthread_mutex_unlock, state_of.
    cbn [fst snd bind]. unfold bind. cbn [fst snd get_mutex set_mutex set_keyboard
      kblistmutex mutex keyboard].
    destruct (kblistmutex sC); cbn [mutex set_mutex]; now rewrite fupd_other.
Qed.

(** C7.  [quit] makes exactly the calls [quit_calls] lists, in that
    order: after trying [kblistmutex], for every slot from 1 up that is
    connected when [quit] starts, in index order, it tries the slot's
    mutex, stops input ([inputclose]), reverts the device to its stock
    input mode ([revertusb]) and releases its handle ([closeusb]); only
    then does it try the root controller's mutex, release the root
    controller's handle and deinitialise the USB subsystem; unlocking
    [kblistmutex] is its last call. *)
Theorem quit_call_order (s : state) :
  trace_of (quit s)
  = [EvTimedLock ListLock (timedlock_result s ListLock)]
    ++ flat_map (fun i =>
                   if IS_CONNECTED (slot s i)
                   then [EvTimedLock (DevLock i) (timedlock_result s (DevLock i));
                         EvInputClose i; EvRevertUsb i; EvCloseUsb i]
                   else [])
         (seq 1 (DEV_MAX s - 1))
    ++ [EvTimedLock (DevLock 0) (timedlock_result s (DevLock 0));
        EvCloseUsb 0; EvUsbDeinit; EvUnlock ListLock].
Proof. apply quit_run. Qed.

(** C4.  When [quit] returns, every lock it acquired - [kblistmutex],
    the mutex of a connected device, the root controller's mutex - is
    free: [kblistmutex] by the unlock on line 38, a slot's mutex by the
    teardown of the slot in [closeusb]. *)
Theorem quit_releases_locks (s : state) (l : lock_id) :
  In (EvTimedLock l true) (trace_of (quit s)) ->
  get_mutex (state_of (quit s)) l = Free.
Proof.
  destruct (quit_run s) as (Ht & Hl & H0 & Hd). rewrite Ht.
  unfold quit_calls. rewrite !in_app_iff. intros [Hin|[Hin|Hin]].
  - destruct Hin as [Hin|[]]. injection Hin as <- Hok. cbn. now apply Hl.
  - apply in_flat_map in Hin as (i & Hi & Hin).
    unfold quit_slot_calls in Hin.
    destruct (IS_CONNECTED (slot s i)) eqn:Hc; [|destruct Hin].
    destruct Hin as [Hin|[Hin|[Hin|[Hin|[]]]]]; try discriminate Hin.
    injection Hin as <- _. cbn. apply Hd; [|exact Hc].
    now apply list_elem_of_In.
  - destruct Hin as [Hin|[Hin|[Hin|[Hin|[]]]]]; try discriminate Hin.
    injection Hin as <- _. exact H0.
Qed.

End QuitFacts.

(** *** The loop and [quit] on the sample tables *)

Section Bench.

Example bench_backlog_trace :
  trace_of (tick bench_t0 bench_t1 bench_backlog)
  = [EvLock ListLock;
     EvReadlines 0 ["notifyon 1"%string]; EvReadcmd 0 ["notifyon 1"%string];
     EvLock (DevLock 1); EvDequeue 1 64; EvQueuecount 1 1; EvUnlock (DevLock 1);
     EvUnlock ListLock;
     EvNanosleep {| tv_sec := 100; tv_nsec := 6666666 |}].
Proof. reflexivity. Qed.

Example bench_stuck_trace_1 :
  trace_of (tick bench_t0 bench_t1 bench_stuck)
  = [EvLock ListLock;
     EvReadlines 0 ["notifyon 1"%string]; EvReadcmd 0 ["notifyon 1"%string];
     EvLock (DevLock 1); EvDequeue 1 (-1); EvQueuecount 1 0;
     EvReadlines 0 []; EvFwversion 0 0;
     EvReadlines 1 ["rgb ff0000"%string]; EvReadcmd 1 ["rgb ff0000"%string];
     EvFwversion 1 288;
     EvUpdateIndicators 1; EvUnlock (DevLock 1);
     EvUnlock ListLock;
     EvNanosleep {| tv_sec := 100; tv_nsec := 2777777 |}].
Proof. reflexivity. Qed.

Example bench_stuck_trace_2 :
  trace_of (tick bench_t0 bench_t1 bench_stuck_1)
  = [EvLock ListLock; EvReadlines 0 [];
     EvLock (DevLock 1); EvDequeue 1 0; EvTryReset 1 (-1); EvCloseUsb 1;
     EvUnlock ListLock;
     EvNanosleep {| tv_sec := 100; tv_nsec := 2777777 |}].
Proof. reflexivity. Qed.

Example bench_stuck_trace_3 :
  trace_of (tick bench_t0 bench_t1 bench_stuck_2)
  = [EvLock ListLock; EvReadlines 0 []; EvUnlock ListLock;
     EvNanosleep {| tv_sec := 100; tv_nsec := 2777777 |}].
Proof. reflexivity. Qed.

Lemma tick_sends_once_and_closes_witness :
  In (EvCloseUsb 1) (trace_of (tick bench_t0 bench_t1 bench_stuck_1))
  /\ IS_CONNECTED (slot (state_of (tick bench_t0 bench_t1 bench_stuck_1)) 1)
     = false.
Proof.
  apply (proj2 (tick_sends_once_and_closes bench_t0 bench_t1 bench_stuck_1)
           1 (-1)%Z).
  - vm_compute. auto 10.
  - vm_compute. auto 10.
  - discriminate.
Defined.

(** C3 as stated fails in both directions.  With a backlog, a connected
    keyboard reporting firmware 0x0120 before and after the iteration
    leaves the multiplier at 5; and two iterations after a keyboard with
    firmware 0x0120 was seen and then closed, no slot is connected or
    reports any firmware version, yet the multiplier is 12.  Nor is an
    empty queue enough: a connected keyboard with firmware 0x0120 whose
    command channel is not open is passed over by the pass it sets off,
    and one that is closed earlier in the iteration is gone when the
    pass set off by another keyboard runs; both leave the multiplier
    at 5. *)
Lemma multiplier_counterexample :
  (IS_CONNECTED (slot bench_backlog 1) = true
   /\ fwversion (slot bench_backlog 1) = 288%Z
   /\ IS_CONNECTED (slot (state_of (tick bench_t0 bench_t1 bench_backlog)) 1)
      = true
   /\ fwversion (slot (state_of (tick bench_t0 bench_t1 bench_backlog)) 1)
      = 288%Z
   /\ multiplier (state_of (tick bench_t0 bench_t1 bench_backlog)) = 5%Z)
  /\ ((forall i, IS_CONNECTED (slot bench_stuck_2 i) = false
                 /\ fwversion (slot bench_stuck_2 i) = 0%Z)
      /\ (forall i,
            IS_CONNECTED
              (slot (state_of (tick bench_t0 bench_t1 bench_stuck_2)) i) = false
            /\ fwversion
                 (slot (state_of (tick bench_t0 bench_t1 bench_stuck_2)) i)
               = 0%Z)
      /\ multiplier (state_of (tick bench_t0 bench_t1 bench_stuck_2)) = 12%Z)
  /\ (IS_CONNECTED (slot bench_mute 1) = true
      /\ fwversion (slot bench_mute 1) = 288%Z
      /\ infifo (slot bench_mute 1) = 0%Z
      /\ queue_seen_empty (trace_of (tick bench_t0 bench_t1 bench_mute)) = true
      /\ slot (state_of (tick bench_t0 bench_t1 bench_mute)) 1
         = slot bench_mute 1
      /\ multiplier (state_of (tick bench_t0 bench_t1 bench_mute)) = 5%Z)
  /\ (IS_CONNECTED (slot bench_late 1) = true
      /\ fwversion (slot bench_late 1) = 288%Z
      /\ infifo (slot bench_late 1) <> 0%Z
      /\ queue_seen_empty (trace_of (tick bench_t0 bench_t1 bench_late)) = true
      /\ closed 1 (trace_of (tick bench_t0 bench_t1 bench_late)) = true
      /\ multiplier (state_of (tick bench_t0 bench_t1 bench_late)) = 5%Z).
Proof.
  split; [repeat split|split; [split; [|split]|split]].
  - intros [|[|i]]; split; reflexivity.
  - intros [|[|i]]; split; reflexivity.
  - reflexivity.
  - repeat split.
  - repeat split. discriminate.
Qed.

(** C5 as stated fails: a complete line waits on the FIFO of a connected
    keyboard whose outgoing queue is not empty after the send; the
    iteration applies nothing for that slot and leaves the line on the
    FIFO, while the root controller's line is applied.  And in an
    iteration in which the pass does run, a line that waits on the FIFO
    of a keyboard closed earlier in the iteration stays where it is. *)
Lemma command_intake_counterexample :
  IS_CONNECTED (slot bench_backlog 1) = true
  /\ infifo (slot bench_backlog 1) <> 0%Z
  /\ fifo bench_backlog 1 = ["rgb ff0000"%string]
  /\ applied 1 (trace_of (tick bench_t0 bench_t1 bench_backlog)) = []
  /\ fifo (state_of (tick bench_t0 bench_t1 bench_backlog)) 1
     = ["rgb ff0000"%string]
  /\ applied 0 (trace_of (tick bench_t0 bench_t1 bench_backlog))
     = ["notifyon 1"%string]
  /\ (infifo (slot bench_late 1) <> 0%Z
      /\ fifo bench_late 1 = ["rgb ff0000"%string]
      /\ queue_seen_empty (trace_of (tick bench_t0 bench_t1 bench_late)) = true
      /\ closed 1 (trace_of (tick bench_t0 bench_t1 bench_late)) = true
      /\ applied 1 (trace_of (tick bench_t0 bench_t1 bench_late)) = []
      /\ fifo (state_of (tick bench_t0 bench_t1 bench_late)) 1
         = ["rgb ff0000"%string]).
Proof. repeat split; discriminate. Qed.

(** The checker is not vacuous: it refuses a run that gives
    [kblistmutex] back while a device mutex is still held, and one that
    sleeps under [kblistmutex]. *)
Example observe_refuses_leak :
  observe_all nothing_held
    [EvLock ListLock; EvLock (DevLock 1); EvDequeue 1 64; EvUnlock ListLock]
  = None.
Proof. reflexivity. Qed.

Example observe_refuses_sleep_under_lock :
  observe_all nothing_held [EvLock ListLock; EvNanosleep bench_t1] = None.
Proof. reflexivity. Qed.

Example bench_quit_trace :
  trace_of (quit bench_backlog)
  = [EvTimedLock ListLock true;
     EvTimedLock (DevLock 1) true; EvInputClose 1; EvRevertUsb 1; EvCloseUsb 1;
     EvTimedLock (DevLock 0) true; EvCloseUsb 0; EvUsbDeinit;
     EvUnlock ListLock].
Proof. reflexivity. Qed.

Lemma quit_releases_locks_witness :
  get_mutex (state_of (quit bench_backlog)) (DevLock 1) = Free.
Proof.
  apply (quit_releases_locks bench_backlog (DevLock 1)).
  vm_compute. auto 10.
Defined.

End Bench.

(** *** Start-up *)

Section StartupFacts.
Context {platform : Platform} {H : Type} {helpers : Helpers H}.
Local Open Scope Z_scope.

Lemma read_parameter_fps st argument :
  sscanf_u "--fps=" argument = None ->
  cfg_fps (read_parameter st argument) = cfg_fps st.
Proof.
  intros Hno. unfold read_parameter. rewrite Hno.
  destruct (sscanf_s9 _ _); [reflexivity|].
  destruct (sscanf_u "--gid=" _); [reflexivity|].
  repeat (match goal with |- context [if ?b then _ else _] => destruct b end;
          try reflexivity).
Qed.

Lemma read_parameters_fps args st :
  Forall (fun a => sscanf_u "--fps=" a = None) args ->
  cfg_fps (fold_left read_parameter args st) = cfg_fps st.
Proof.
  intros Hall. revert st. induction Hall as [|a args Ha Hall IH]; intros st.
  - reflexivity.
  - cbn [fold_left]. rewrite IH. now apply read_parameter_fps.
Qed.

Lemma main_startup_sets_fps running uid usb argv st0 st :
  main_startup running uid usb argv st0 = EntersLoop st ->
  cfg_fps st <> 0
  /\ (cfg_fps st0 = 0 ->
      Forall (fun a => sscanf_u "--fps=" a = None) (tl argv) ->
      cfg_fps st = 30).
Proof.
  unfold main_startup. destruct running; [discriminate|].
  set (st1 := fold_left read_parameter (tl argv) (set_forceroot true st0)).
  destruct (negb (uid =? 0) && cfg_forceroot st1); [discriminate|].
  set (st2 := if cfg_fps st1 =? 0 then setfps 30 st1 else st1).
  assert (Hk : forall k, cfg_fps (match cfg_keymap_system st2 with
                                  | None => set_keymap_system k st2
                                  | Some _ => st2
                                  end) = cfg_fps st2)
    by (intros k; destruct (cfg_keymap_system st2); reflexivity).
  destruct (negb (usb =? 0)); [discriminate|].
  intros Heq. injection Heq as <-. rewrite Hk. unfold st2. split.
  - destruct (Z.eqb_spec (cfg_fps st1) 0); [cbn; lia | assumption].
  - intros H0 Hno.
    assert (H1 : cfg_fps st1 = 0)
      by (unfold st1; now rewrite read_parameters_fps).
    rewrite H1. reflexivity.
Qed.

(** C10.  Whenever [main] reaches the loop the frame rate is not zero;
    when the frame rate was unset (0) at the start and no argument is an
    [--fps=] flag, it is 30; and the first iteration of the loop still
    has that frame rate when it computes its sleep. *)
Theorem main_startup_fps running uid usb argv st0 st :
  main_startup running uid usb argv st0 = EntersLoop st ->
  cfg_fps st <> 0
  /\ (cfg_fps st0 = 0 ->
      Forall (fun a => sscanf_u "--fps=" a = None) (tl argv) ->
      cfg_fps st = 30)
  /\ (forall (s : daemon H) time now,
        fps s = cfg_fps st ->
        value_of (tick time now s)
        = wake_deadline (cfg_fps st) (v120 (state_of (tick time now s)))
            time now).
Proof.
  intros Hrun. split; [|split].
  - now apply (main_startup_sets_fps running uid usb argv st0).
  - now apply (main_startup_sets_fps running uid usb argv st0).
  - intros s time now <-. rewrite tick_value. f_equal. apply tick_keeps_fps.
Qed.

End StartupFacts.

Section BenchStartup.
Local Open Scope Z_scope.

Example main_startup_no_fps :
  main_startup false 1000 0 bench_argv bench_settings
  = EntersLoop {| cfg_fps := 30; cfg_keymap_system := Some "gb"%string;
                  cfg_gid := 100; cfg_features_mask := 1;
                  cfg_forceroot := false |}.
Proof. reflexivity. Qed.

Example main_startup_fps_zero :
  main_startup false 0 0 ["ckb-daemon"; "--fps=0"]%string bench_settings
  = EntersLoop {| cfg_fps := 30; cfg_keymap_system := Some "gb"%string;
                  cfg_gid := 0; cfg_features_mask := 3;
                  cfg_forceroot := true |}.
Proof. reflexivity. Qed.

Example main_startup_fps_60 :
  main_startup false 0 0 ["ckb-daemon"; "--fps=60"; "--layout=de"]%string
    bench_settings
  = EntersLoop {| cfg_fps := 60; cfg_keymap_system := Some "de"%string;
                  cfg_gid := 0; cfg_features_mask := 3;
                  cfg_forceroot := true |}.
Proof. reflexivity. Qed.

Example main_startup_not_root :
  main_startup false 1000 0 ["ckb-daemon"; "--fps=60"]%string bench_settings
  = Exited 0.
Proof. reflexivity. Qed.

Lemma main_startup_fps_witness :
  cfg_fps {| cfg_fps := 30; cfg_keymap_system := Some "gb"%string;
             cfg_gid := 100; cfg_features_mask := 1;
             cfg_forceroot := false |} <> 0
  /\ cfg_fps {| cfg_fps := 30; cfg_keymap_system := Some "gb"%string;
                cfg_gid := 100; cfg_features_mask := 1;
                cfg_forceroot := false |} = 30.
Proof.
  destruct (main_startup_fps (helpers := bench_helpers)
              false 1000 0 bench_argv bench_settings _
              main_startup_no_fps) as (Hnz & H30 & _).
  split; [exact Hnz|]. apply H30; [reflexivity|].
  repeat constructor.
Defined.

End BenchStartup.

(** *** The signal thread *)

Section SignalFacts.

Lemma boot_inv usb : signal_inv (boot usb).
Proof.
  unfold boot, signal_inv. destruct (usb =? 0)%Z; cbn; split; try lia.
  all: try discriminate.
  intros _. exists [], 0. repeat split; auto.
Qed.

Lemma frame_ok_mono (p p' : process) fr :
  (forall g, handlers p g = H_sighandler2 -> handlers p' g = H_sighandler2) ->
  frame_ok p fr -> frame_ok p' fr.
Proof.
  intros Hm. unfold frame_ok. destruct (fn fr); auto.
  intros (Hpc & H1 & H2 & H3). repeat split; auto.
Qed.

Lemma replaced_of_past_quit (p : process) hs :
  Forall (frame_ok p) hs -> existsb past_quit hs = true ->
  forall g, handlers p g = H_sighandler2.
Proof.
  intros Hall Hex. apply existsb_exists in Hex as (fr & Hin & Hpq).
  rewrite Forall_forall in Hall. specialize (Hall fr).
  assert (Hok : frame_ok p fr) by (apply Hall; now apply list_elem_of_In).
  unfold past_quit in Hpq. unfold frame_ok in Hok.
  destruct (fn fr); try discriminate.
  apply Nat.leb_le in Hpq. destruct Hok as (_ & H1 & H2 & H3).
  intros []; [apply H1 | apply H2 | apply H3]; lia.
Qed.

Lemma frames_ok_mono (p p' : process) hs :
  (forall g, handlers p g = H_sighandler2 -> handlers p' g = H_sighandler2) ->
  Forall (frame_ok p) hs -> Forall (frame_ok p') hs.
Proof.
  intros Hm Hall. eapply Forall_impl; [exact Hall|].
  intros fr. now apply frame_ok_mono.
Qed.

Lemma set_pending_inv g b p : signal_inv p -> signal_inv (set_pending g b p).
Proof.
  intros [Hn Hrun]. split; [exact Hn|]. intros Hex.
  destruct (Hrun Hex) as (hs & m & Hst & Hm & Hok & Hq & Hc).
  exists hs, m. repeat split; auto.
Qed.

Lemma enter_inv g p : exited p = false -> signal_inv p -> signal_inv (enter g p).
Proof.
  intros Hex [Hn Hrun]. unfold enter.
  destruct (Hrun Hex) as (hs & m & Hst & Hm & Hok & Hq & Hc).
  destruct (handlers p g) eqn:Hg.
  - split; [exact Hn | discriminate].
  - split; [exact Hn | intros _].
    exists ({| fn := InSighandler (signum g); pc := 0 |} :: hs), m.
    assert (Hnone : existsb past_quit hs = false).
    { destruct (existsb past_quit hs) eqn:Hp; [|reflexivity].
      rewrite (replaced_of_past_quit p hs Hok Hp g) in Hg. discriminate. }
    cbn. rewrite Hst, Hq, Hnone. repeat split; auto.
    + constructor; [|exact Hok]. unfold frame_ok. cbn. repeat split; lia.
    + destruct Hc as [Hc|Hc]; [now left | congruence].
  - split; [exact Hn | intros _].
    exists ({| fn := InSighandler2 (signum g); pc := 0 |} :: hs), m.
    cbn. rewrite Hst, Hq. repeat split; auto.
    + constructor; [exact I | exact Hok].
    + now destruct (existsb past_quit hs).
Qed.

Lemma deliver_inv g p : signal_inv p -> signal_inv (deliver g p).
Proof.
  intros Hp. unfold deliver.
  destruct (exited p) eqn:Hex; [exact Hp|].
  destruct (blocked p g); [now apply set_pending_inv | now apply enter_inv].
Qed.

Lemma release_inv p : exited p = false -> signal_inv p -> signal_inv (release p).
Proof.
  intros Hex Hp. unfold release.
  destruct (find _ _) as [g|]; [|exact Hp].
  apply enter_inv; [exact Hex | now apply set_pending_inv].
Qed.

Lemma step_inv p : signal_inv p -> signal_inv (step p).
Proof.
  intros [Hn Hrun]. unfold step.
  destruct (exited p) eqn:Hex; [split; [exact Hn | congruence]|].
  destruct (Hrun eq_refl) as (hs & m & Hst & Hm & Hok & Hq & Hc).
  rewrite Hst. destruct hs as [|[f k] hs].
  - (* the thread is in [sigmain] *)
    assert (Hs0 : shutdowns p = 0)
      by (destruct Hc as [?|Hc]; [assumption | discriminate Hc]).
    cbn [app fn pc code].
    destruct m as [|[|[|[|m]]]]; try lia; cbn.
    4: { split; [exact Hn | intros _; exact (Hrun eq_refl)]. }
    all: split; [cbn; lia | cbn; intros _].
    all: eexists [], _; repeat split; eauto; lia.
  - (* the thread is in a handler *)
    apply Forall_cons in Hok as [Hf Hok].
    cbn [quiet_above] in Hq. apply andb_true_iff in Hq as [Hq Hqf].
    destruct f as [|type|type]; [destruct Hf| |].
    + (* [sighandler] *)
      assert (Hnone : existsb past_quit hs = false)
        by (destruct (existsb past_quit hs); [discriminate Hqf | reflexivity]).
      unfold frame_ok in Hf. cbn [fn pc] in Hf. destruct Hf as (Hk & H1 & H2 & H3).
      assert (Hs0 : k <= 4 -> shutdowns p = 0).
      { intros Hk4. destruct Hc as [?|Hc]; [assumption|].
        cbn [existsb] in Hc. unfold past_quit at 1 in Hc. cbn [fn pc] in Hc.
        rewrite Hnone, orb_false_r in Hc.
        apply Nat.leb_le in Hc. lia. }
      cbn [app fn pc code].
      destruct k as [|[|[|[|[|[|[|k]]]]]]]; try lia; cbn.
      7: { split; [exact Hn | discriminate]. }
      all: split; [cbn; lia | cbn; intros _].
      all: eexists (_ :: hs), m; repeat split; eauto.
      all: try (cbn [quiet_above]; rewrite Hq, Hnone; reflexivity).
      all: try (left; apply Hs0; lia).
      all: try (now right).
      all: constructor;
        [ unfold frame_ok; cbn; repeat split; intros; try lia; auto with lia
        | eapply frames_ok_mono; [|exact Hok]; cbn; intros g Hg;
          try destruct (signal_eqb g _); auto ].
    + (* [sighandler2] *)
      cbn [app fn pc code].
      assert (Hrest : signal_inv
                        (set_stack (hs ++ [{| fn := Sigmain; pc := m |}]) p)).
      { split; [exact Hn | cbn; intros _]. exists hs, m. repeat split; eauto. }
      destruct k as [|[|k]]; cbn.
      2, 3: apply release_inv; [exact Hex | exact Hrest].
      split; [exact Hn | cbn; intros _].
      eexists (_ :: hs), m.
      split; [reflexivity|]. split; [exact Hm|]. split; [|split].
      * constructor; [exact I|].
        eapply frames_ok_mono; [|exact Hok]; auto.
      * cbn [quiet_above returning fn]. rewrite Hq.
        now destruct (existsb past_quit hs).
      * exact Hc.
Qed.

Lemma run_all_inv acts p : signal_inv p -> signal_inv (run_all acts p).
Proof.
  revert p. induction acts as [|a acts IH]; intros p Hp; [exact Hp|].
  cbn. apply IH. destruct a; [now apply deliver_inv | now apply step_inv].
Qed.













End SignalFacts.

Section Acknowledgements.












End Acknowledgements.

Section SignalClaims.





End SignalClaims.

Section BenchSignals.

Example in_shutdown_state :
  shutdowns (run_all in_shutdown (boot 0)) = 1
  /\ exited (run_all in_shutdown (boot 0)) = false
  /\ printed (run_all in_shutdown (boot 0)) = [Caught 15]
  /\ blocked (run_all in_shutdown (boot 0)) SIGTERM = true
  /\ blocked (run_all in_shutdown (boot 0)) SIGINT = false.
Proof. repeat split. Qed.

(** SIGINT and another SIGTERM arrive while [quit] runs: SIGINT is
    acknowledged, SIGTERM is held back until the process ends. *)
Example signals_during_shutdown :
  let p := run_all (in_shutdown
                    ++ [Deliver SIGINT; Step; Step; Deliver SIGTERM; Step; Step;
                        Step; Step]) (boot 0) in
  printed p = [Caught 15; Ignoring 2]
  /\ pending p SIGTERM = true
  /\ shutdowns p = 1 /\ exited p = true.
Proof. repeat split. Qed.

(** Two SIGINTs arrive while [quit] runs, the second one while the first
    is being acknowledged: it is held back until [sighandler2] returns
    and acknowledged then. *)
Example signal_held_back :
  let p := run_all (in_shutdown
                    ++ [Deliver SIGINT; Deliver SIGINT; Deliver SIGINT; Step])
             (boot 0) in
  printed p = [Caught 15; Ignoring 2]
  /\ pending p SIGINT = true
  /\ printed (run_all [Step; Step; Step] p)
     = [Caught 15; Ignoring 2; Ignoring 2]
  /\ pending (run_all [Step; Step; Step] p) SIGINT = false
  /\ stack (run_all [Step; Step; Step] p) = stack (run_all in_shutdown (boot 0)).
Proof. repeat split. Qed.



End BenchSignals.

(** *** More on [timespec_add]: lines 10-14 *)

Section ClockArithmetic.
Local Open Scope Z_scope.

Lemma rem_second_neg a :
  a < 0 -> - 1000000000 < Z.rem a 1000000000 <= 0.
Proof.
  intros Ha. replace a with (- - a) by lia. rewrite Z.rem_opp_l'.
  pose proof (Z.rem_bound_pos (- a) 1000000000 ltac:(lia) ltac:(lia)). lia.
Qed.

(** Away from the ends of [long] nothing wraps. *)
Lemma timespec_add_exact ts n :
  - 2 ^ 62 <= tv_sec ts <= 2 ^ 62 + 2 ^ 61 ->
  - 1000000000 < tv_nsec ts < 1000000000 ->
  - 2 ^ 62 < n < 2 ^ 62 ->
  timespec_add ts n
  = {| tv_sec := tv_sec ts + Z.quot (n + tv_nsec ts) 1000000000;
       tv_nsec := Z.rem (n + tv_nsec ts) 1000000000 |}.
Proof.
  intros Hs Hn Hr. unfold timespec_add.
  rewrite (wrap_long_small (n + tv_nsec ts)) by lia.
  assert (Hq : - 2 ^ 60 <= Z.quot (n + tv_nsec ts) 1000000000 <= 2 ^ 60).
  { pose proof (Z.quot_rem' (n + tv_nsec ts) 1000000000) as Hqr.
    destruct (Z.le_gt_cases 0 (n + tv_nsec ts)) as [Hp|Hp].
    - pose proof (Z.rem_bound_pos (n + tv_nsec ts) 1000000000 Hp ltac:(lia)).
      lia.
    - pose proof (rem_second_neg (n + tv_nsec ts) Hp).
      lia. }
  rewrite wrap_long_small by lia.
  reflexivity.
Qed.

(** X1.  [timespec_add] moves a clock reading by exactly [nanoseconds],
    forwards or backwards: read as a number of nanoseconds, the result
    is the reading plus the argument. *)
Theorem timespec_add_adds ts n :
  clock_reading ts -> - 2 ^ 62 < n < 2 ^ 62 ->
  to_ns (timespec_add ts n) = to_ns ts + n.
Proof.
  intros [Hs Hn] Hr. unfold normalised in Hn.
  rewrite timespec_add_exact by lia.
  unfold to_ns. cbn [tv_sec tv_nsec].
  pose proof (Z.quot_rem' (n + tv_nsec ts) 1000000000). lia.
Qed.

Lemma timespec_add_adds_witness :
  to_ns (timespec_add {| tv_sec := 100; tv_nsec := 250000000 |} (-500000000))
  = to_ns {| tv_sec := 100; tv_nsec := 250000000 |} + -500000000.
Proof.
  apply (timespec_add_adds {| tv_sec := 100; tv_nsec := 250000000 |} (-500000000)).
  - unfold clock_reading, normalised; cbn; lia.
  - lia.
Defined.

(** X2.  [timespec_add] does not borrow.  The result of moving a clock
    reading is normalised ([0 <= tv_nsec < 1e9]) exactly when
    [nanoseconds + tv_nsec] is not negative or is a whole number of
    seconds; when that sum is negative, the division and remainder of
    lines 12-13 truncate towards zero and [tv_nsec] comes out in
    [(-1e9, 0]]. *)
Theorem timespec_add_normalised ts n :
  clock_reading ts -> - 2 ^ 62 < n < 2 ^ 62 ->
  (normalised (timespec_add ts n)
   <-> 0 <= n + tv_nsec ts \/ Z.rem (n + tv_nsec ts) 1000000000 = 0)
  /\ (n + tv_nsec ts < 0 ->
      - 1000000000 < tv_nsec (timespec_add ts n) <= 0).
Proof.
  intros [Hs Hn] Hr. unfold normalised in Hn.
  rewrite timespec_add_exact by lia.
  unfold normalised. cbn [tv_sec tv_nsec].
  destruct (Z.le_gt_cases 0 (n + tv_nsec ts)) as [Hp|Hp].
  - pose proof (Z.rem_bound_pos (n + tv_nsec ts) 1000000000 Hp ltac:(lia)).
    split; [tauto | lia].
  - pose proof (rem_second_neg (n + tv_nsec ts) Hp).
    split; [split; [lia | intros [?|?]; lia] | lia].
Qed.

Lemma timespec_add_normalised_witness :
  - 1000000000
  < tv_nsec (timespec_add {| tv_sec := 100; tv_nsec := 250000000 |} (-500000000))
  <= 0.
Proof.
  apply (timespec_add_normalised
           {| tv_sec := 100; tv_nsec := 250000000 |} (-500000000)).
  - unfold clock_reading, normalised; cbn; lia.
  - lia.
  - cbn; lia.
Defined.

Example timespec_add_backwards :
  timespec_add {| tv_sec := 100; tv_nsec := 250000000 |} (-500000000)
  = {| tv_sec := 100; tv_nsec := -250000000 |}.
Proof. reflexivity. Qed.

(** X3.  Two forward moves of a clock reading are one: adding [a] and
    then [b] nanoseconds gives the same [struct timespec] as adding
    [a + b], and it is normalised. *)
Theorem timespec_add_twice ts a b :
  clock_reading ts -> 0 <= a < 2 ^ 61 -> 0 <= b < 2 ^ 61 ->
  timespec_add (timespec_add ts a) b = timespec_add ts (a + b)
  /\ normalised (timespec_add ts (a + b)).
Proof.
  intros [Hs Hn] Ha Hb. unfold normalised in Hn.
  rewrite (timespec_add_exact ts a) by lia.
  rewrite (timespec_add_exact ts (a + b)) by lia.
  pose proof (Z.rem_bound_pos (a + tv_nsec ts) 1000000000 ltac:(lia) ltac:(lia))
    as Hra.
  assert (Hqa : 0 <= Z.quot (a + tv_nsec ts) 1000000000 <= 2 ^ 60).
  { pose proof (Z.quot_rem' (a + tv_nsec ts) 1000000000). lia. }
  rewrite timespec_add_exact; cbn [tv_sec tv_nsec]; try lia.
  rewrite !Z.quot_div_nonneg, !Z.rem_mod_nonneg in * by lia.
  replace (a + b + tv_nsec ts)
    with (b + (a + tv_nsec ts) mod 1000000000
          + (a + tv_nsec ts) / 1000000000 * 1000000000)
    by (pose proof (Z.div_mod (a + tv_nsec ts) 1000000000 ltac:(lia)); lia).
  rewrite Z.div_add, Z.mod_add by lia.
  split.
  - f_equal. lia.
  - unfold normalised. cbn [tv_nsec]. apply Z.mod_pos_bound. lia.
Qed.

Lemma timespec_add_twice_witness :
  timespec_add (timespec_add {| tv_sec := 100; tv_nsec := 999000000 |} 6666666)
    100000
  = timespec_add {| tv_sec := 100; tv_nsec := 999000000 |} (6666666 + 100000).
Proof.
  apply (timespec_add_twice {| tv_sec := 100; tv_nsec := 999000000 |}
           6666666 100000).
  - unfold clock_reading, normalised; cbn; lia.
  - lia.
  - lia.
Defined.

End ClockArithmetic.

(** *** The frame interval: line 262 *)

Section IntervalFacts.
Local Open Scope Z_scope.

(** X22.  The interval of line 262 never grows with the frame rate; it
    is never longer with 12 packets per frame than with 5; and it is 0 -
    so that only the minimum of 100,000 ns paces the loop - exactly
    when the frame rate times the packets per frame exceeds 10^9. *)
Theorem frame_interval_monotone fps fps' v120 :
  0 < fps <= fps' ->
  frame_interval fps' v120 <= frame_interval fps v120
  /\ frame_interval fps true <= frame_interval fps false
  /\ (frame_interval fps v120 = 0
      <-> 1000000000 < fps * packets_per_frame v120).
Proof.
  intros Hf.
  destruct (frame_interval_div fps v120 ltac:(lia)) as [-> _].
  destruct (frame_interval_div fps' v120 ltac:(lia)) as [-> _].
  destruct (frame_interval_div fps true ltac:(lia)) as [-> _].
  destruct (frame_interval_div fps false ltac:(lia)) as [-> _].
  assert (Hm : 0 < packets_per_frame v120) by (destruct v120; cbn; lia).
  cbn [packets_per_frame].
  split; [|split].
  - apply Z.div_le_compat_l; nia.
  - apply Z.div_le_compat_l; lia.
  - split.
    + intros H0. apply Z.div_small_iff in H0; [|nia]. lia.
    + intros Hbig. apply Z.div_small. lia.
Qed.

Lemma frame_interval_monotone_witness :
  frame_interval 60 true <= frame_interval 30 true.
Proof. apply (frame_interval_monotone 30 60 true). lia. Defined.

Example frame_interval_samples :
  frame_interval 30 true = 2777777 /\ frame_interval 60 false = 3333333
  /\ frame_interval 60 true = 1388888
  /\ frame_interval 200000001 false = 0.
Proof. repeat split. Qed.

End IntervalFacts.

(** *** [localecase]: lines 74-89 *)

Section LocaleFacts.
Variable tolower : ascii -> ascii.

Lemma poke_app (pre post : list ascii) x c :
  poke (pre ++ x :: post) (length pre) c = Some (pre ++ c :: post).
Proof.
  unfold poke. rewrite length_app. cbn [length].
  destruct (Nat.ltb_spec (length pre) (length pre + S (length post))); [|lia].
  f_equal. replace (length pre) with (length pre + 0) at 1 by lia.
  now rewrite insert_app_r.
Qed.

(** The loop while the bound [ldst] lies ahead and inside the array:
    it stops at the end of [src] or on reaching [ldst], whichever comes
    first. *)
Lemma localecase_loop_bounded src : forall pre post ldst,
  length pre < ldst <= length pre + length post ->
  localecase_loop tolower (pre ++ post) (length pre) ldst src
  = Some (pre
          ++ map (locale_char tolower) (take (ldst - length pre) (chars src))
          ++ drop (min (strlen src) (ldst - length pre)) post,
          length pre + min (strlen src) (ldst - length pre - 1)).
Proof.
  induction src as [|s src IH]; intros pre post ldst Hd.
  - cbn. rewrite take_nil. cbn. now rewrite Nat.add_0_r.
  - cbn [localecase_loop chars]. unfold strlen. cbn [chars].
    destruct (Ascii.eqb s zero).
    { cbn. rewrite take_nil. cbn. now rewrite Nat.add_0_r. }
    destruct post as [|x post]; [cbn in Hd; lia|].
    rewrite poke_app. cbn zeta. cbn [length] in *. fold (strlen src).
    destruct (Nat.eqb_spec (S (length pre)) ldst) as [He|Hne].
    + subst ldst. replace (S (length pre) - length pre) with 1 by lia.
      replace (1 - 1) with 0 by lia.
      rewrite Nat.min_0_r, Nat.add_0_r.
      replace (min (S (strlen src)) 1) with 1 by lia.
      reflexivity.
    + rewrite (cons_middle _ pre post), app_assoc.
      replace (S (length pre)) with (length (pre ++ [locale_char tolower s]))
        by (rewrite length_app; cbn; lia).
      rewrite IH by (rewrite length_app; cbn; lia).
      rewrite length_app. cbn [length].
      replace (ldst - length pre) with (S (ldst - (length pre + 1))) by lia.
      replace (S (ldst - (length pre + 1)) - 1) with (ldst - (length pre + 1))
        by lia.
      rewrite <- Nat.succ_min_distr.
      cbn [firstn map skipn]. rewrite <- app_assoc. cbn [app].
      do 2 f_equal. lia.
Qed.

(** The loop when the bound can never be met: it is behind [dst], or
    beyond the end of the array. *)
Lemma localecase_loop_unbounded src : forall buf dst ldst,
  ldst <= dst \/ length buf < ldst -> dst <= length buf ->
  (dst + strlen src <= length buf ->
   exists buf', localecase_loop tolower buf dst ldst src
                = Some (buf', dst + strlen src)
                /\ length buf' = length buf)
  /\ (length buf < dst + strlen src ->
      localecase_loop tolower buf dst ldst src = None).
Proof.
  induction src as [|s src IH]; intros buf dst ldst Hd Hcap.
  - cbn. split; [intros _; exists buf; now rewrite Nat.add_0_r | lia].
  - cbn [localecase_loop]. unfold strlen. cbn [chars].
    destruct (Ascii.eqb s zero).
    { cbn. split; [intros _; exists buf; now rewrite Nat.add_0_r | lia]. }
    cbn [length]. fold (strlen src). unfold poke.
    destruct (Nat.ltb_spec dst (length buf)) as [Hin|Hout].
    + cbn zeta.
      destruct (Nat.eqb_spec (S dst) ldst) as [He|Hne]; [lia|].
      destruct (IH (<[dst := locale_char tolower s]> buf) (S dst) ldst) as [Hok Hno].
      { rewrite length_insert. lia. }
      { rewrite length_insert. lia. }
      rewrite length_insert in Hok, Hno.
      split.
      * intros Hfit. destruct Hok as (buf' & -> & Hlen); [lia|].
        exists buf'. split; [f_equal; f_equal; lia | exact Hlen].
      * intros Hbig. apply Hno. lia.
    + split; [lia | reflexivity].
Qed.

Lemma localecase_bounded buf n src :
  1 <= n <= length buf ->
  localecase tolower buf n src
  = Some (map (locale_char tolower) (take (n - 1) (chars src))
          ++ zero :: drop (S (min (strlen src) (n - 1))) buf).
Proof.
  intros Hn. unfold localecase. cbn [Nat.add].
  pose proof (localecase_loop_bounded src [] buf n) as Hl.
  cbn [length app Nat.add] in Hl. rewrite Nat.sub_0_r in Hl.
  rewrite Hl by lia. clear Hl.
  set (k := min (strlen src) (n - 1)).
  assert (Hk : k <= strlen src /\ k <= n - 1) by (unfold k; lia).
  assert (Hsplit : map (locale_char tolower) (take n (chars src))
                   ++ drop (min (strlen src) n) buf
                   = map (locale_char tolower) (take k (chars src))
                     ++ match drop k (chars src) with
                        | [] => drop k buf
                        | c :: _ => locale_char tolower c :: drop (S k) buf
                        end).
  { destruct (Nat.le_gt_cases (strlen src) (n - 1)) as [Hle|Hgt].
    - assert (k = strlen src) as -> by (unfold k; lia).
      unfold strlen in *. rewrite !firstn_all2 by lia.
      rewrite (drop_ge (chars src)) by lia.
      do 2 f_equal. lia.
    - assert (k = n - 1) as -> by (unfold k; lia).
      unfold strlen in *.
      replace n with (S (n - 1)) at 1 by lia.
      destruct (drop (n - 1) (chars src)) as [|c rest] eqn:Hdrop.
      { apply (f_equal length) in Hdrop. rewrite length_drop in Hdrop.
        cbn in Hdrop. lia. }
      rewrite <- (take_drop (n - 1) (chars src)) at 1.
      rewrite Hdrop.
      rewrite take_app_ge by (rewrite length_take; lia).
      rewrite length_take.
      replace (S (n - 1) - min (n - 1) (length (chars src))) with 1 by lia.
      change (take 1 (c :: rest)) with [c].
      rewrite map_app, <- app_assoc. cbn [map app].
      do 3 f_equal. lia. }
  rewrite Hsplit. clear Hsplit.
  assert (Hpre : take (n - 1) (chars src) = take k (chars src)).
  { destruct (Nat.le_gt_cases (strlen src) (n - 1)) as [Hle|Hgt].
    - assert (k = strlen src) as -> by (unfold k; lia).
      unfold strlen in *. now rewrite !firstn_all2 by lia.
    - now assert (k = n - 1) as -> by (unfold k; lia). }
  rewrite Hpre. clear Hpre. clearbody k.
  assert (Hlen : length (map (locale_char tolower) (take k (chars src))) = k).
  { rewrite length_map, length_take. unfold strlen in Hk. lia. }
  destruct (drop k buf) as [|x post] eqn:Hdrop.
  { apply (f_equal length) in Hdrop. rewrite length_drop in Hdrop.
    cbn in Hdrop. lia. }
  assert (Hpost : drop (S k) buf = post).
  { replace (S k) with (k + 1) by lia. rewrite <- drop_drop, Hdrop. reflexivity. }
  rewrite Hpost.
  destruct (drop k (chars src)); rewrite <- Hlen at 2; apply poke_app.
Qed.

(** X4.  With a bound [length] between 1 and the size of the array,
    [localecase] is a bounded copy: the array then starts with the first
    [length - 1] characters of [src] (all of them, if there are fewer),
    each lower-cased and with [_] turned into [-], followed by a NUL;
    what the array held after that NUL is left as it was. *)
Theorem localecase_copies buf n src :
  1 <= n <= length buf ->
  localecase tolower buf n src
  = Some (map (locale_char tolower) (take (n - 1) (chars src))
          ++ zero :: drop (S (min (strlen src) (n - 1))) buf).
Proof. apply localecase_bounded. Qed.

(** X5.  [localecase] stays inside the array exactly when its bound is
    between 1 and the size of the array, or [src] with its NUL fits
    into the array anyway.  A bound of 0 is never met - [dst] is
    compared with [ldst] only after it was advanced - so with 0 the
    function is an unbounded copy. *)
Theorem localecase_in_bounds buf n src :
  is_Some (localecase tolower buf n src)
  <-> 1 <= n <= length buf \/ strlen src < length buf.
Proof.
  destruct (decide (1 <= n <= length buf)) as [Hn|Hn].
  - rewrite localecase_bounded by exact Hn. split; [now left | eauto].
  - unfold localecase. cbn [Nat.add].
    destruct (localecase_loop_unbounded src buf 0 n ltac:(lia) ltac:(lia))
      as [Hok Hno].
    cbn [Nat.add] in Hok, Hno.
    destruct (Nat.le_gt_cases (strlen src) (length buf)) as [Hle|Hgt].
    + destruct (Hok Hle) as (buf' & -> & Hlen). unfold poke. rewrite Hlen.
      destruct (Nat.ltb_spec (strlen src) (length buf)).
      * split; [now right | eauto].
      * split; [intros [? ?]; discriminate | lia].
    + rewrite (Hno Hgt). split; [intros [? ?]; discriminate | lia].
Qed.

Lemma cstring_app_nul (l r : list ascii) :
  cstring (l ++ zero :: r) = cstring (l ++ [zero]).
Proof.
  induction l as [|c l IH]; cbn; [reflexivity|].
  destruct (Ascii.eqb c zero); [reflexivity | now rewrite IH].
Qed.

(** X6.  The array of line 160 is exactly large enough.  Whatever it
    held, and whatever the locale's name, [localecase] stays inside it
    and cuts nothing off: the layout is chosen by lines 162-194 from the
    whole name, lower-cased and with every [_] turned into [-]. *)
Theorem detect_keymap_exact stack loc :
  detect_keymap tolower stack loc
  = Some (keymap_of_locale
            (cstring (map (locale_char tolower) (chars loc) ++ [zero]))).
Proof.
  unfold detect_keymap. cbv zeta.
  rewrite localecase_bounded by (rewrite length_map, length_seq; lia).
  rewrite length_map, length_seq.
  replace (strlen loc + 1 - 1) with (strlen loc) by lia.
  unfold strlen at 1. rewrite firstn_all.
  now rewrite cstring_app_nul.
Qed.

End LocaleFacts.

Section BenchLocale.

Lemma localecase_copies_witness :
  localecase c_tolower bench_array 4 "En_US.UTF-8"
  = Some ["e"; "n"; "-"; zero]%char.
Proof.
  exact (localecase_copies c_tolower bench_array 4 "En_US.UTF-8"
           ltac:(cbn; lia)).
Defined.

(** With a bound of 1 only the NUL is stored; with a bound of 0 the
    copy runs off the end of the array. *)
Example localecase_bound_1 :
  localecase c_tolower bench_array 1 "En_US.UTF-8"
  = Some [zero; "#"; "#"; "#"]%char.
Proof. reflexivity. Qed.

Example localecase_bound_0 :
  localecase c_tolower bench_array 0 "En_US.UTF-8" = None
  /\ localecase c_tolower bench_array 0 "C" = Some ["c"; zero; "#"; "#"]%char.
Proof. split; reflexivity. Qed.

Example detect_keymap_samples :
  detect_keymap c_tolower (fun _ => "#"%char) "de_DE.UTF-8" = Some keymap_de
  /\ detect_keymap c_tolower (fun _ => "#"%char) "sv_SE" = Some keymap_se
  /\ detect_keymap c_tolower (fun _ => "#"%char) "en_US.UTF-8" = Some keymap_us
  /\ detect_keymap c_tolower (fun _ => "#"%char) "en_GB.UTF-8" = Some keymap_gb
  /\ detect_keymap c_tolower (fun _ => "#"%char) "C" = Some keymap_gb.
Proof. repeat split. Qed.

End BenchLocale.

(** *** The layout of a locale: lines 162-194 *)

Section LayoutFacts.

Lemma strstr_prefix (haystack needle : string) :
  String.prefix needle haystack = true -> strstr haystack needle = true.
Proof. intros Hp. destruct haystack; cbn [strstr]; now rewrite Hp. Qed.

Lemma prefix_append (needle b : string) :
  String.prefix needle (needle +:+ b) = true.
Proof.
  induction needle as [|c needle IH]; simpl.
  - now destruct b.
  - destruct (ascii_dec c c); [exact IH | congruence].
Qed.

Lemma strstr_found (a needle b : string) :
  strstr (a +:+ needle +:+ b) needle = true.
Proof.
  induction a as [|c a IH].
  - change (strstr (needle +:+ b) needle = true). apply strstr_prefix, prefix_append.
  - simpl. rewrite IH. apply orb_true_r.
Qed.

Lemma prefix_occurs c needle s :
  String.prefix needle s = true -> occurs c needle = true -> occurs c s = true.
Proof.
  revert s. induction needle as [|d needle IH]; intros s; [discriminate 2|].
  destruct s as [|e s]; [discriminate 1|]. cbn.
  destruct (ascii_dec d e) as [->|]; [|discriminate 1].
  intros Hp Ho. apply orb_true_iff in Ho as [->|Ho]; [reflexivity|].
  rewrite (IH s Hp Ho). apply orb_true_r.
Qed.

Lemma strstr_occurs c s needle :
  strstr s needle = true -> occurs c needle = true -> occurs c s = true.
Proof.
  induction s as [|d s IH]; cbn [strstr]; intros Hs Ho.
  - rewrite orb_false_r in Hs. eapply prefix_occurs; eauto.
  - apply orb_true_iff in Hs as [Hs|Hs]; [eapply prefix_occurs; eauto|].
    cbn. rewrite (IH Hs Ho). apply orb_true_r.
Qed.

(** X7.  Lines 162-194 look for [de-] anywhere in the lower-cased
    locale name and look for it first: a name that contains [de-], at
    whatever position and whatever else it contains, selects the German
    layout.  Every pattern they look for contains a [-]: a name without
    one selects the fallback, [keymap_gb]. *)
Theorem keymap_of_locale_match (a b s : string) :
  keymap_of_locale (a +:+ "de-" +:+ b) = keymap_de
  /\ (occurs "-" s = false -> keymap_of_locale s = keymap_gb).
Proof.
  split.
  - unfold keymap_of_locale. now rewrite strstr_found.
  - intros Hno.
    assert (Hn : forall needle, occurs "-" needle = true -> strstr s needle = false).
    { intros needle Hd. destruct (strstr s needle) eqn:Hs; [|reflexivity].
      rewrite (strstr_occurs _ _ _ Hs Hd) in Hno. discriminate. }
    unfold keymap_of_locale. now rewrite !Hn.
Qed.

Lemma keymap_of_locale_match_witness : keymap_of_locale "posix" = keymap_gb.
Proof.
  apply (proj2 (keymap_of_locale_match "" "" "posix")). reflexivity.
Defined.

(** The match is not anchored: a code set can select a layout. *)
Example keymap_of_locale_codeset :
  keymap_of_locale "en-us.code-1" = keymap_de
  /\ keymap_of_locale "en-us.iso8859-1" = keymap_us.
Proof. split; reflexivity. Qed.

End LayoutFacts.

(** *** The command line: lines 111-150 *)

Section ParameterFacts.
Context {platform : Platform}.
Local Open Scope Z_scope.

Lemma strip_prefix_dashes p argument :
  strip_prefix "--" argument = None ->
  strip_prefix (String "-" (String "-" p)) argument = None.
Proof.
  destruct argument as [|c1 [|c2 r]]; cbn [strip_prefix]; try reflexivity.
  - now destruct (Ascii.eqb "-" c1).
  - destruct (Ascii.eqb "-" c1); [|reflexivity].
    destruct (Ascii.eqb "-" c2); [discriminate|reflexivity].
Qed.

(** X10.  An argument that does not start with two dashes - a file
    name, a single-dash option, the empty string - is skipped: it
    changes no setting and is not reported. *)
Theorem read_parameter_other st argument :
  strip_prefix "--" argument = None -> read_parameter st argument = st.
Proof.
  intros Hno. unfold read_parameter, sscanf_u, sscanf_s9.
  rewrite !(strip_prefix_dashes _ _ Hno).
  assert (Hne : forall flag,
            String.eqb argument (String "-" (String "-" flag)) = false).
  { intros flag. apply String.eqb_neq. intros ->. cbn in Hno. discriminate. }
  now rewrite !Hne.
Qed.

Lemma layout_not_fps argument layout :
  sscanf_s9 "--layout=" argument = Some layout ->
  sscanf_u "--fps=" argument = None.
Proof.
  unfold sscanf_s9, sscanf_u.
  destruct argument as [|c1 [|c2 [|c3 r]]]; cbn [strip_prefix];
    try discriminate.
  - now destruct (Ascii.eqb "-" c1).
  - destruct (Ascii.eqb "-" c1); [|discriminate].
    now destruct (Ascii.eqb "-" c2).
  - destruct (Ascii.eqb "-" c1); [|discriminate].
    destruct (Ascii.eqb "-" c2); [|discriminate].
    destruct (Ascii.eqb_spec "l" c3) as [<-|]; [|discriminate].
    reflexivity.
Qed.

Lemma read_parameter_layout st argument layout :
  sscanf_s9 "--layout=" argument = Some layout ->
  read_parameter st argument = set_keymap_system (getkeymap layout) st.
Proof.
  intros Hl. unfold read_parameter.
  now rewrite (layout_not_fps _ _ Hl), Hl.
Qed.

Lemma read_parameter_keymap st argument :
  sscanf_s9 "--layout=" argument = None ->
  cfg_keymap_system (read_parameter st argument) = cfg_keymap_system st.
Proof.
  intros Hno. unfold read_parameter. rewrite Hno.
  destruct (sscanf_u "--fps=" _); [reflexivity|].
  destruct (sscanf_u "--gid=" _); [reflexivity|].
  repeat (match goal with |- context [if ?b then _ else _] => destruct b end;
          try reflexivity).
Qed.

Lemma read_parameters_keymap args st :
  Forall (fun a => sscanf_s9 "--layout=" a = None) args ->
  cfg_keymap_system (fold_left read_parameter args st) = cfg_keymap_system st.
Proof.
  intros Hall. revert st. induction Hall as [|a args Ha Hall IH]; intros st.
  - reflexivity.
  - cbn [fold_left]. rewrite IH. now apply read_parameter_keymap.
Qed.

Lemma read_parameters_last_layout before arg after layout st :
  sscanf_s9 "--layout=" arg = Some layout ->
  Forall (fun a => sscanf_s9 "--layout=" a = None) after ->
  cfg_keymap_system (fold_left read_parameter (before ++ arg :: after) st)
  = getkeymap layout.
Proof.
  intros Hl Hafter. rewrite fold_left_app. cbn [fold_left].
  rewrite read_parameters_keymap by exact Hafter.
  now rewrite (read_parameter_layout _ _ _ Hl).
Qed.

Lemma read_parameter_forceroot st argument :
  cfg_forceroot (read_parameter st argument)
  = cfg_forceroot st && negb (String.eqb argument "--nonroot").
Proof.
  destruct (String.eqb_spec argument "--nonroot") as [->|Hne].
  - cbn. now rewrite andb_false_r.
  - rewrite andb_true_r. unfold read_parameter.
    destruct (sscanf_u "--fps=" _); [reflexivity|].
    destruct (sscanf_s9 _ _); [reflexivity|].
    destruct (sscanf_u "--gid=" _); [reflexivity|].
    destruct (String.eqb argument "--nobind"); [reflexivity|].
    destruct (String.eqb argument "--nonotify"); [reflexivity|].
    destruct (String.eqb_spec argument "--nonroot"); [contradiction|reflexivity].
Qed.

Lemma read_parameters_forceroot args st :
  cfg_forceroot (fold_left read_parameter args st)
  = cfg_forceroot st && negb (existsb (fun a => String.eqb a "--nonroot") args).
Proof.
  revert st. induction args as [|a args IH]; intros st; cbn [fold_left existsb].
  - now rewrite andb_true_r.
  - rewrite IH, read_parameter_forceroot, negb_orb. now rewrite andb_assoc.
Qed.

Lemma existsb_eqb_In (x : string) args :
  existsb (fun a => String.eqb a x) args = true <-> In x args.
Proof.
  rewrite existsb_exists. split.
  - intros (a & Hin & He). apply String.eqb_eq in He. now subst.
  - intros Hin. exists x. split; [exact Hin | apply String.eqb_refl].
Qed.

(** X11.  [main] leaves through the [exit] of line 147 exactly when no
    other instance is running, [getuid] is not 0 and no argument is
    [--nonroot], wherever in the command line it stands; the status it
    exits with is 0. *)
Theorem main_startup_root_check running uid usb argv st0 :
  (main_startup running uid usb argv st0 = Exited 0
   <-> running = false /\ uid <> 0 /\ ~ In "--nonroot"%string (tl argv))
  /\ (forall status,
        main_startup running uid usb argv st0 = Exited status -> status = 0).
Proof.
  unfold main_startup. destruct running.
  { split; [split; [discriminate | intros [? _]; discriminate] | discriminate]. }
  rewrite read_parameters_forceroot. cbn [cfg_forceroot set_forceroot andb].
  destruct (existsb _ (tl argv)) eqn:Hex.
  - apply existsb_eqb_In in Hex. rewrite andb_false_r.
    destruct (negb (usb =? 0)); split; try discriminate;
      (split; [discriminate | intros (_ & _ & Hno); contradiction]).
  - assert (Hno : ~ In "--nonroot"%string (tl argv)).
    { intros Hin. apply existsb_eqb_In in Hin. congruence. }
    rewrite andb_true_r.
    destruct (Z.eqb_spec uid 0) as [->|Hu]; cbn [negb].
    + destruct (negb (usb =? 0)); split; try discriminate;
        (split; [discriminate | intros (_ & Hu & _); contradiction]).
    + split; [split; auto | intros status Hs; now injection Hs].
Qed.

(** X12.  When [main] reaches the loop a keymap is set.  The last
    [--layout=] argument decides, whether its name is known or not: a
    known name selects its keymap; an unknown one resets
    [keymap_system], so that the locale's layout is taken even when an
    earlier [--layout=] named a known one.  Without any [--layout=]
    argument the keymap is the one set before [main], or else the
    locale's. *)
Theorem main_startup_layout running uid usb argv st0 st :
  main_startup running uid usb argv st0 = EntersLoop st ->
  cfg_keymap_system st <> None
  /\ (forall before arg after layout,
        tl argv = before ++ arg :: after ->
        sscanf_s9 "--layout=" arg = Some layout ->
        Forall (fun a => sscanf_s9 "--layout=" a = None) after ->
        cfg_keymap_system st
        = Some (default locale_keymap (getkeymap layout)))
  /\ (Forall (fun a => sscanf_s9 "--layout=" a = None) (tl argv) ->
      cfg_keymap_system st
      = Some (default locale_keymap (cfg_keymap_system st0))).
Proof.
  unfold main_startup. destruct running; [discriminate|].
  set (st1 := fold_left read_parameter (tl argv) (set_forceroot true st0)).
  destruct (negb (uid =? 0) && cfg_forceroot st1); [discriminate|].
  set (st2 := if cfg_fps st1 =? 0 then setfps 30 st1 else st1).
  assert (Hk : cfg_keymap_system st2 = cfg_keymap_system st1)
    by (unfold st2; now destruct (cfg_fps st1 =? 0)).
  destruct (negb (usb =? 0)); [discriminate|].
  intros Heq. injection Heq as <-.
  assert (Hfinal : cfg_keymap_system
                     (match cfg_keymap_system st2 with
                      | Some _ => st2
                      | None => set_keymap_system (Some locale_keymap) st2
                      end)
                   = Some (default locale_keymap (cfg_keymap_system st1))).
  { rewrite <- Hk. now destruct (cfg_keymap_system st2) eqn:Hs. }
  rewrite Hfinal. split; [discriminate|]. split.
  - intros before arg after layout Hargs Hl Hafter.
    unfold st1. rewrite Hargs.
    now rewrite (read_parameters_last_layout _ _ _ _ _ Hl Hafter).
  - intros Hnone. unfold st1. now rewrite read_parameters_keymap.
Qed.

Lemma land_submask m k : Z.land (Z.land m k) m = Z.land m k.
Proof.
  apply Z.bits_inj'. intros n Hn. rewrite !Z.land_spec.
  now destruct (Z.testbit m n), (Z.testbit k n).
Qed.

Lemma read_parameter_mask st argument :
  cfg_features_mask (read_parameter st argument)
  = if String.eqb argument "--nobind"
    then Z.land (cfg_features_mask st)
           (Z.land (Z.lnot FEAT_BIND) (Z.lnot FEAT_NOTIFY))
    else if String.eqb argument "--nonotify"
         then Z.land (cfg_features_mask st) (Z.lnot FEAT_NOTIFY)
         else cfg_features_mask st.
Proof.
  destruct (String.eqb_spec argument "--nobind") as [->|Hb]; [reflexivity|].
  destruct (String.eqb_spec argument "--nonotify") as [->|Hn]; [reflexivity|].
  unfold read_parameter.
  destruct (sscanf_u "--fps=" _); [reflexivity|].
  destruct (sscanf_s9 _ _); [reflexivity|].
  destruct (sscanf_u "--gid=" _); [reflexivity|].
  destruct (String.eqb_spec argument "--nobind"); [contradiction|].
  destruct (String.eqb_spec argument "--nonotify"); [contradiction|].
  now destruct (String.eqb argument "--nonroot").
Qed.

(** The mask after the whole command line: the bits of [FEAT_BIND] are
    gone when [--nobind] was there, those of [FEAT_NOTIFY] when
    [--nobind] or [--nonotify] was. *)
Lemma read_parameters_mask args st :
  cfg_features_mask (fold_left read_parameter args st)
  = Z.land (cfg_features_mask st)
      (Z.land
         (if existsb (fun a => String.eqb a "--nobind") args
          then Z.lnot FEAT_BIND else -1)
         (if existsb (fun a => String.eqb a "--nobind") args
             || existsb (fun a => String.eqb a "--nonotify") args
          then Z.lnot FEAT_NOTIFY else -1)).
Proof.
  revert st. induction args as [|a args IH]; intros st; cbn [fold_left existsb].
  - cbn. now rewrite Z.land_m1_r.
  - rewrite IH, read_parameter_mask.
    apply Z.bits_inj'. intros n Hn.
    destruct (String.eqb a "--nobind"); cbn [orb].
    + destruct (existsb _ args), (existsb _ args); cbn [orb];
        rewrite !Z.land_spec, ?Z.lnot_spec, ?Z.bits_m1 by exact Hn;
        now destruct (Z.testbit (cfg_features_mask st) n),
                     (Z.testbit FEAT_BIND n), (Z.testbit FEAT_NOTIFY n).
    + destruct (String.eqb a "--nonotify"); cbn [orb];
        destruct (existsb _ args), (existsb _ args); cbn [orb];
        rewrite !Z.land_spec, ?Z.lnot_spec, ?Z.bits_m1 by exact Hn;
        now destruct (Z.testbit (cfg_features_mask st) n),
                     (Z.testbit FEAT_BIND n), (Z.testbit FEAT_NOTIFY n).
Qed.

Lemma mask_without_notify args st :
  In "--nonotify"%string args \/ In "--nobind"%string args ->
  Z.land (cfg_features_mask (fold_left read_parameter args st)) FEAT_NOTIFY = 0.
Proof.
  intros Hin. rewrite read_parameters_mask.
  assert (Hc : existsb (fun a => String.eqb a "--nobind") args
               || existsb (fun a => String.eqb a "--nonotify") args = true).
  { apply orb_true_iff. destruct Hin as [Hin|Hin];
      apply existsb_eqb_In in Hin; auto. }
  rewrite Hc. apply Z.bits_inj'. intros n Hn.
  match goal with |- context [if ?b then _ else _] => destruct b end;
    rewrite !Z.land_spec, ?Z.lnot_spec, ?Z.bits_m1, Z.bits_0 by exact Hn;
    now destruct (Z.testbit (cfg_features_mask st) n),
                 (Z.testbit FEAT_BIND n), (Z.testbit FEAT_NOTIFY n).
Qed.

Lemma mask_without_bind args st :
  In "--nobind"%string args ->
  Z.land (cfg_features_mask (fold_left read_parameter args st)) FEAT_BIND = 0.
Proof.
  intros Hin. rewrite read_parameters_mask.
  apply existsb_eqb_In in Hin. rewrite Hin. cbn [orb].
  apply Z.bits_inj'. intros n Hn.
  rewrite !Z.land_spec, !Z.lnot_spec, Z.bits_0 by exact Hn.
  now destruct (Z.testbit (cfg_features_mask st) n),
               (Z.testbit FEAT_BIND n), (Z.testbit FEAT_NOTIFY n).
Qed.

Lemma mask_kept args st :
  ~ In "--nobind"%string args -> ~ In "--nonotify"%string args ->
  cfg_features_mask (fold_left read_parameter args st) = cfg_features_mask st.
Proof.
  intros Hb Hn. rewrite read_parameters_mask.
  destruct (existsb (fun a => String.eqb a "--nobind") args) eqn:Eb;
    [apply existsb_eqb_In in Eb; contradiction|].
  destruct (existsb (fun a => String.eqb a "--nonotify") args) eqn:En;
    [apply existsb_eqb_In in En; contradiction|].
  cbn. now rewrite Z.land_m1_r.
Qed.

(** X8.  The command line only ever takes features away.  Whatever the
    arguments and their order, the feature mask after lines 113-141 has
    no bit that it had not before; with [--nobind] anywhere it has no
    bit of [FEAT_BIND] and none of [FEAT_NOTIFY]; with [--nonotify]
    anywhere it has no bit of [FEAT_NOTIFY]; with neither it is
    unchanged. *)
Theorem features_mask_only_cleared args st :
  let mask := cfg_features_mask (fold_left read_parameter args st) in
  Z.land mask (cfg_features_mask st) = mask
  /\ (In "--nobind"%string args ->
      Z.land mask FEAT_BIND = 0 /\ Z.land mask FEAT_NOTIFY = 0)
  /\ (In "--nonotify"%string args -> Z.land mask FEAT_NOTIFY = 0)
  /\ (~ In "--nobind"%string args -> ~ In "--nonotify"%string args ->
      mask = cfg_features_mask st).
Proof.
  cbv zeta. split; [|split; [|split]].
  - rewrite read_parameters_mask. apply land_submask.
  - intros Hin. split; [now apply mask_without_bind|].
    apply mask_without_notify. now right.
  - intros Hin. apply mask_without_notify. now left.
  - apply mask_kept.
Qed.

End ParameterFacts.

(** *** The root controller: lines 197-202 *)

Section RootFacts.
Context {platform : Platform} {H : Type} {helpers : Helpers H}.
Local Open Scope Z_scope.

(** X9.  After lines 199-202 the table has [DEV_MAX] entries; all but
    the first are all-zero; the first, the root controller, is all-zero
    but for its model, -1, and its features, [FEAT_NOTIFY] as far as the
    command line left it in the mask: none when [--nonotify] or
    [--nobind] was given. *)
Theorem make_root_table dev_max args st :
  let st' := fold_left read_parameter args st in
  let keyboard : list (usbdevice H) := make_root dev_max st' in
  length keyboard = dev_max
  /\ (forall i, (0 < i < dev_max)%nat -> keyboard !! i = Some zero_slot)
  /\ ((0 < dev_max)%nat ->
      exists root,
        keyboard !! 0%nat = Some root
        /\ root = set_features (Z.land FEAT_NOTIFY (cfg_features_mask st'))
                    (set_model (-1) zero_slot)
        /\ (In "--nonotify"%string args \/ In "--nobind"%string args ->
            features root = 0)
        /\ (~ In "--nonotify"%string args -> ~ In "--nobind"%string args ->
            features root = Z.land FEAT_NOTIFY (cfg_features_mask st))).
Proof.
  cbv zeta. unfold make_root. cbv zeta.
  split; [now rewrite !length_alter, length_replicate|]. split.
  - intros i Hi.
    rewrite !list_lookup_alter_ne by lia.
    apply lookup_replicate_2. lia.
  - intros Hd. destruct dev_max as [|n]; [lia|].
    cbn [replicate alter list_alter].
    eexists. split; [reflexivity|]. split; [reflexivity|].
    cbn [features set_features]. split.
    + intros Hin. rewrite Z.land_comm. now apply mask_without_notify.
    + intros Hn' Hb'. now rewrite mask_kept.
Qed.

End RootFacts.

Section BenchParameters.
Local Open Scope Z_scope.

Lemma read_parameter_other_witness :
  read_parameter bench_settings "-v" = bench_settings.
Proof. apply (read_parameter_other bench_settings "-v"). reflexivity. Defined.

Lemma main_startup_layout_witness :
  cfg_keymap_system
    {| cfg_fps := 60; cfg_keymap_system := Some "de"%string;
       cfg_gid := 0; cfg_features_mask := 3; cfg_forceroot := true |}
  = Some (default locale_keymap (getkeymap "de")).
Proof.
  apply (proj1 (proj2 (main_startup_layout false 0 0
                         ["ckb-daemon"; "--fps=60"; "--layout=de"]%string
                         bench_settings _ main_startup_fps_60))
           ["--fps=60"%string] "--layout=de"%string [] "de"%string).
  - reflexivity.
  - reflexivity.
  - constructor.
Defined.

(** A known layout followed by one that does not scan: the second is
    not a [--layout=] argument and the first stays. *)
Example main_startup_two_layouts :
  main_startup false 0 0 ["ckb-daemon"; "--layout=de"; "--layout="]%string
    bench_settings
  = EntersLoop {| cfg_fps := 30; cfg_keymap_system := Some "de"%string;
                  cfg_gid := 0; cfg_features_mask := 3;
                  cfg_forceroot := true |}.
Proof. reflexivity. Qed.

Lemma features_mask_only_cleared_witness :
  Z.land (cfg_features_mask
            (fold_left read_parameter ["--gid=5"; "--nobind"]%string
               bench_settings)) FEAT_BIND = 0
  /\ Z.land (cfg_features_mask
               (fold_left read_parameter ["--gid=5"; "--nobind"]%string
                  bench_settings)) FEAT_NOTIFY = 0.
Proof.
  apply (proj1 (proj2 (features_mask_only_cleared
                         ["--gid=5"; "--nobind"]%string bench_settings))).
  cbn. auto.
Defined.

Lemma make_root_table_witness :
  exists root : usbdevice bench,
    make_root 3 (fold_left read_parameter ["--nonotify"]%string bench_settings)
      !! 0%nat = Some root
    /\ features root = 0.
Proof.
  destruct (proj2 (proj2 (make_root_table (H := bench) 3 ["--nonotify"]%string
                            bench_settings)) ltac:(lia))
    as (root & Hroot & _ & Hnone & _).
  exists root. split; [exact Hroot | apply Hnone; cbn; auto].
Defined.

Example make_root_sample :
  make_root 3 (fold_left read_parameter ["--nonroot"]%string bench_settings)
  = [ {| connected := false; infifo := 0; queuecount := 0; fwversion := 0;
         model := -1; features := 2; rest := zero_rest |};
      zero_slot; zero_slot ] :> list (usbdevice bench).
Proof. reflexivity. Qed.

End BenchParameters.

(** *** The calls of one iteration: lines 223-269 *)

Section CallPattern.
Context {H : Type} {helpers : Helpers H}.

Local Abbreviation state := (daemon H).

#[local] Arguments process_fifos : simpl never.
#[local] Arguments root_fifo : simpl never.
#[local] Arguments sweep : simpl never.

Lemma fifo_events_sequential : sequential (fifo_events (H := H)).
Proof.
  split; [reflexivity|].
  intros s1 s2 s3 t1 t2 H1 H2. unfold fifo_events in *.
  now rewrite forallb_app, H1, H2.
Qed.

Lemma fifo_slot_events i : run_in fifo_events (fifo_slot i).
Proof.
  intros s.
  unfold fifo_slot, read_and_apply, readlines, call_void, get_slot, when, bind,
    ret, state_of, trace_of, fifo_events.
  cbn. destruct (infifo (slot s i) =? 0)%Z; cbn; [reflexivity|].
  destruct (fifo s i); cbn;
    match goal with
    | |- context [(288 <=? ?v)%Z] => destruct (288 <=? v)%Z
    end; reflexivity.
Qed.

Lemma root_fifo_events : run_in fifo_events root_fifo.
Proof.
  intros s.
  unfold root_fifo, read_and_apply, readlines, call_void, get_slot, when, bind,
    ret, state_of, trace_of, fifo_events.
  cbn. destruct (infifo (slot s 0) =? 0)%Z; cbn; [reflexivity|].
  destruct (fifo s 0); reflexivity.
Qed.

Lemma process_fifos_events : run_in fifo_events process_fifos.
Proof.
  intros s. unfold process_fifos.
  apply (run_in_for_each fifo_events fifo_slot);
    [apply fifo_events_sequential | intros i _; apply fifo_slot_events].
Qed.

Lemma sweep_slot_calls i (s : state) : slot_calls i (trace_of (sweep_slot i s)).
Proof.
  unfold sweep_slot, call_status, call_void, closeusb, get_slot,
    pthread_mutex_lock, pthread_mutex_unlock, IS_CONNECTED, set_keyboard,
    when, bind, ret, state_of, trace_of, slot.
  cbn.
  match goal with
  | |- context [connected ?x] => destruct (connected x)
  end; cbn; [|constructor].
  match goal with
  | |- context [usbdequeue ?x] => destruct (usbdequeue x) as [sent kb1]
  end; cbn.
  destruct (Z.eqb_spec sent 0) as [->|Hsent]; cbn.
  - match goal with
    | |- context [usb_tryreset ?x] => destruct (usb_tryreset x) as [r kb2]
    end; cbn.
    destruct (Z.eqb_spec r 0) as [->|Hr]; cbn; [|now constructor].
    match goal with
    | |- context [(queuecount ?x =? 0)%Z] =>
        destruct (Z.eqb_spec (queuecount x) 0) as [Hq|Hq]
    end; cbn.
    + match goal with
      | |- context [process_fifos ?x] =>
          pose proof (process_fifos_events x) as Hp;
          destruct (process_fifos x) as [[[] s4] t4]
      end; cbn.
      rewrite Hq. rewrite <- app_assoc.
      apply (slot_idle i 0 t4 Hp).
    + now apply (slot_busy i 0).
  - match goal with
    | |- context [(queuecount ?x =? 0)%Z] =>
        destruct (Z.eqb_spec (queuecount x) 0) as [Hq|Hq]
    end; cbn.
    + match goal with
      | |- context [process_fifos ?x] =>
          pose proof (process_fifos_events x) as Hp;
          destruct (process_fifos x) as [[[] s4] t4]
      end; cbn.
      rewrite Hq. rewrite <- app_assoc.
      pose proof (slot_idle i sent t4 Hp) as Hi.
      unfold recovered in Hi. now rewrite (proj2 (Z.eqb_neq sent 0) Hsent) in Hi.
    + pose proof (slot_busy i sent _ Hq) as Hb.
      unfold recovered in Hb. now rewrite (proj2 (Z.eqb_neq sent 0) Hsent) in Hb.
Qed.

Lemma for_each_sweep_calls idx (s : state) :
  exists per_slot,
    trace_of (for_each idx sweep_slot s) = concat per_slot
    /\ Forall2 slot_calls idx per_slot.
Proof.
  revert s. induction idx as [|i idx IH]; intros s; cbn [for_each].
  - exists []. split; [reflexivity | constructor].
  - rewrite bind_trace.
    destruct (IH (state_of (sweep_slot i s))) as (per & -> & Hper).
    exists (trace_of (sweep_slot i s) :: per). split; [reflexivity|].
    constructor; [apply sweep_slot_calls | exact Hper].
Qed.

Lemma tick_calls time now (s : state) :
  exists root per_slot,
    trace_of (tick time now s)
    = EvLock ListLock :: root ++ concat per_slot
      ++ [EvUnlock ListLock; EvNanosleep (value_of (tick time now s))]
    /\ forallb fifo_event root = true
    /\ Forall2 slot_calls (seq 0 (DEV_MAX s)) per_slot.
Proof.
  rewrite tick_trace.
  destruct (for_each_sweep_calls (seq 0 (DEV_MAX (state_of (root_phase s))))
              (state_of (root_phase s))) as (per & Hper & Hcalls).
  exists (trace_of (root_phase s)), per. split; [|split].
  - unfold sweep_phase, sweep. now rewrite Hper.
  - apply root_fifo_events.
  - destruct (root_phase_rel s) as (_ & _ & _ & Hlen & _).
    unfold DEV_MAX in *. now rewrite Hlen in Hcalls.
Qed.

Lemma about_not_fifo i e : about i e = true -> fifo_event e = false.
Proof. destruct e as [[|j]| |[|j]| | | | | | | | | | | |]; cbn; congruence. Qed.

Lemma about_same i j e : about i e = true -> about j e = true -> i = j.
Proof.
  destruct e as [[|k]| |[|k]| | | | | | | | | | | |]; cbn; try discriminate;
    intros Hi Hj; apply Nat.eqb_eq in Hi, Hj; congruence.
Qed.

Lemma not_in_pass e pass :
  forallb fifo_event pass = true -> fifo_event e = false -> ~ In e pass.
Proof.
  intros Hp He Hin. rewrite forallb_forall in Hp.
  rewrite (Hp e Hin) in He. discriminate.
Qed.

(** Every call of the body for slot [j] is about slot [j] or belongs to
    the pass over the FIFOs. *)
Lemma slot_calls_kinds j t e :
  slot_calls j t -> In e t -> about j e = true \/ fifo_event e = true.
Proof.
  intros Hc Hin.
  destruct (fifo_event e) eqn:Hf; [now right | left].
  destruct Hc as [|r Hr|sent q Hq|sent pass Hp]; cbn in Hin.
  - destruct Hin.
  - destruct Hin as [<-|[<-|[<-|[<-|[]]]]]; cbn; apply Nat.eqb_refl.
  - unfold recovered in Hin. destruct (sent =? 0)%Z; cbn in Hin;
      repeat (destruct Hin as [<-|Hin]; [cbn; apply Nat.eqb_refl|]);
      destruct Hin.
  - unfold recovered in Hin. destruct (sent =? 0)%Z; cbn in Hin;
      repeat (destruct Hin as [<-|Hin]; [cbn; apply Nat.eqb_refl|]);
      (apply in_app_iff in Hin as [Hin|Hin];
       [exfalso; now apply (not_in_pass e pass)|]);
      repeat (destruct Hin as [<-|Hin]; [cbn; apply Nat.eqb_refl|]);
      destruct Hin.
Qed.

Lemma slot_calls_own j t e i :
  slot_calls j t -> In e t -> about i e = true -> i = j.
Proof.
  intros Hc Hin He.
  destruct (slot_calls_kinds j t e Hc Hin) as [Hj|Hf].
  - now apply (about_same i j e).
  - rewrite (about_not_fifo i e He) in Hf. discriminate.
Qed.

Lemma concat_slot_calls idx per i :
  NoDup idx -> Forall2 slot_calls idx per ->
  exists t, slot_calls i t
            /\ forall e, about i e = true -> (In e (concat per) <-> In e t).
Proof.
  intros Hnd Hall. induction Hall as [|j t idx per Hj Hall IH].
  - exists []. split; [constructor | reflexivity].
  - apply NoDup_cons in Hnd as [Hni Hnd].
    destruct (IH Hnd) as (t' & Ht' & Hin'). cbn [concat].
    destruct (decide (i = j)) as [->|Hne].
    + exists t. split; [exact Hj|]. intros e He. rewrite in_app_iff.
      split; [|now left]. intros [Hin|Hin]; [exact Hin|].
      exfalso. apply in_concat in Hin as (u & Hu & Hin).
      apply list_elem_of_In in Hu.
      apply list_elem_of_lookup in Hu as (n & Hn).
      destruct (Forall2_lookup_r _ _ _ _ _ Hall Hn) as (k & Hk & Hc).
      assert (j = k) by (eapply slot_calls_own; eauto). subst k.
      apply Hni. eapply list_elem_of_lookup_2; eauto.
    + exists t'. split; [exact Ht'|]. intros e He.
      rewrite in_app_iff, Hin' by exact He.
      split; [|now right]. intros [Hin|Hin]; [|exact Hin].
      exfalso. apply Hne. eapply slot_calls_own; eauto.
Qed.

(** The calls of an iteration about slot [i] are those of one run of
    the body. *)
Lemma tick_slot_calls time now (s : state) i :
  exists t, slot_calls i t
            /\ forall e, about i e = true ->
                 (In e (trace_of (tick time now s)) <-> In e t).
Proof.
  destruct (tick_calls time now s) as (root & per & Htr & Hroot & Hper).
  destruct (concat_slot_calls _ per i (NoDup_seq 0 (DEV_MAX s)) Hper)
    as (t & Ht & Hin).
  exists t. split; [exact Ht|]. intros e He.
  rewrite <- (Hin e He), Htr. cbn [In]. rewrite !in_app_iff. cbn [In].
  pose proof (about_not_fifo i e He) as Hf.
  split.
  - intros [<-|[Hr|[Hp|[<-|[<-|[]]]]]]; try discriminate He; [|exact Hp].
    exfalso. now apply (not_in_pass e root).
  - intros Hp. right. right. now left.
Qed.

Ltac slot_events :=
  repeat match goal with
    | Hx : In _ (_ ++ _) |- _ => apply in_app_iff in Hx
    | Hx : In _ (_ :: _) |- _ => destruct Hx as [Hx|Hx]
    | Hx : In _ [] |- _ => destruct Hx
    | Hx : _ \/ _ |- _ => destruct Hx as [Hx|Hx]
    | Hx : @eq event _ _ |- _ =>
        first [discriminate Hx | injection Hx as Hx; try subst]
    | Hx : In ?e ?pass, Hp : forallb fifo_event ?pass = true |- _ =>
        exfalso; exact (not_in_pass e pass Hp eq_refl Hx)
    end.

Lemma slot_calls_release i t :
  slot_calls i t ->
  (In (EvLock (DevLock i)) t ->
   In (EvCloseUsb i) t \/ In (EvUnlock (DevLock i)) t)
  /\ (In (EvUnlock (DevLock i)) t -> In (EvLock (DevLock i)) t)
  /\ (In (EvCloseUsb i) t ->
      ~ In (EvUnlock (DevLock i)) t
      /\ ~ In (EvUpdateIndicators i) t
      /\ In (EvDequeue i 0) t
      /\ exists r, r <> 0%Z /\ In (EvTryReset i r) t)
  /\ (forall r, In (EvTryReset i r) t ->
      forall sent, In (EvDequeue i sent) t -> sent = 0%Z)
  /\ (In (EvUpdateIndicators i) t <-> In (EvQueuecount i 0) t).
Proof.
  intros Hc. destruct Hc as [|r Hr|sent q Hq|sent pass Hp];
    [| |unfold recovered; destruct (Z.eqb_spec sent 0) as [->|Hs]; cbn [app]..].
  all: split; [|split; [|split; [|split; [|split]]]].
  all: try (intros Hx; slot_events; fail).
  all: try (intros r' Hx sent' Hy; slot_events; congruence).
  all: try (intros _; cbn; rewrite ?in_app_iff; cbn; eauto 10; fail).
  all: try (intros Hx; slot_events; cbn; rewrite ?in_app_iff; cbn; eauto 10; fail).
  all: try (intros _; repeat split;
            [ intros Hx; slot_events
            | intros Hx; slot_events
            | cbn; eauto 10
            | exists r; split; [exact Hr | cbn; eauto 10] ]).
Qed.

(** X14.  How an iteration lets go of a device.  A device mutex the
    loop locks is given back by [pthread_mutex_unlock], or the device is
    handed to [closeusb] - never both: on the path of line 238 the loop
    itself makes no unlock call and no [updateindicators] call for the
    device.  [closeusb] is called only after a send that returned 0 and
    a reset that returned non-zero; a reset is tried only after a send
    that returned 0; a mutex is unlocked only if it was locked; and
    [updateindicators] is called exactly when line 240 found the queue
    empty. *)
Theorem tick_release_paths time now (s : state) i :
  let tr := trace_of (tick time now s) in
  (In (EvLock (DevLock i)) tr ->
   In (EvCloseUsb i) tr \/ In (EvUnlock (DevLock i)) tr)
  /\ (In (EvUnlock (DevLock i)) tr -> In (EvLock (DevLock i)) tr)
  /\ (In (EvCloseUsb i) tr ->
      ~ In (EvUnlock (DevLock i)) tr
      /\ ~ In (EvUpdateIndicators i) tr
      /\ In (EvDequeue i 0) tr
      /\ exists r, r <> 0%Z /\ In (EvTryReset i r) tr)
  /\ (forall r, In (EvTryReset i r) tr ->
      forall sent, In (EvDequeue i sent) tr -> sent = 0%Z)
  /\ (In (EvUpdateIndicators i) tr <-> In (EvQueuecount i 0) tr).
Proof.
  cbv zeta.
  destruct (tick_slot_calls time now s i) as (t & Hc & Hin).
  destruct (slot_calls_release i t Hc) as (H1 & H2 & H3 & H4 & H5).
  assert (Hab : forall e, about i e = true ->
                  (In e (trace_of (tick time now s)) <-> In e t))
    by exact Hin.
  pose proof (Nat.eqb_refl i) as Hi.
  rewrite !(Hab (EvLock (DevLock i))), !(Hab (EvCloseUsb i)),
    !(Hab (EvUnlock (DevLock i))), !(Hab (EvUpdateIndicators i)),
    !(Hab (EvDequeue i 0)), !(Hab (EvQueuecount i 0)) by exact Hi.
  split; [exact H1|]. split; [exact H2|]. split; [|split; [|exact H5]].
  - intros Hx. destruct (H3 Hx) as (A & B & C & r & Hr & D).
    repeat split; auto. exists r. split; [exact Hr|].
    now apply (Hab (EvTryReset i r)).
  - intros r Hx sent Hy.
    apply (Hab (EvTryReset i r) Hi) in Hx.
    apply (Hab (EvDequeue i sent) Hi) in Hy. eauto.
Qed.

End CallPattern.

(** *** The loop: lines 220-270 *)

Section LoopFacts.
Context {H : Type} {helpers : Helpers H}.

Local Abbreviation state := (daemon H).

Lemma tick_latch time now (s : state) :
  v120 (state_of (tick time now s))
  = v120 s || fw_seen (trace_of (tick time now s)).
Proof.
  destruct (root_phase_rel s) as (_ & _ & _ & _ & _ & Rv & _).
  destruct (sweep_phase_rel s) as (_ & _ & _ & _ & _ & Sv & _).
  rewrite tick_trace, tick_state. cbn [v120 set_mutex].
  rewrite Sv, Rv. cbn [v120 set_mutex].
  unfold fw_seen at 3. cbn [existsb]. rewrite !existsb_app. cbn [existsb].
  fold (fw_seen (trace_of (root_phase s))).
  fold (fw_seen (trace_of (sweep_phase s))).
  destruct (v120 s), (fw_seen (trace_of (root_phase s))),
    (fw_seen (trace_of (sweep_phase s))); reflexivity.
Qed.

Lemma tick_keeps_table time now (s : state) :
  DEV_MAX (state_of (tick time now s)) = DEV_MAX s.
Proof.
  destruct (root_phase_rel s) as (_ & _ & _ & Rl & _).
  destruct (sweep_phase_rel s) as (_ & _ & Sl & _).
  rewrite tick_state. unfold DEV_MAX in *. cbn [keyboard set_mutex].
  now rewrite Sl, Rl.
Qed.

Lemma deadlines_app t1 t2 : deadlines (t1 ++ t2) = deadlines t1 ++ deadlines t2.
Proof.
  induction t1 as [|e t1 IH]; [reflexivity|].
  destruct e; cbn; auto. now rewrite IH.
Qed.

Lemma deadlines_none t :
  (forall e, In e t -> exists j, about j e = true \/ fifo_event e = true) ->
  deadlines t = [].
Proof.
  induction t as [|e t IH]; intros Hk; [reflexivity|].
  destruct (Hk e ltac:(now left)) as (j & [Ha|Hf]);
    destruct e as [[|k]| |[|k]| | | | | | | | | | | |]; try discriminate;
    cbn; apply IH; intros e' He'; apply Hk; now right.
Qed.

Lemma tick_sleeps_once time now (s : state) :
  deadlines (trace_of (tick time now s))
  = [wake_deadline (fps s) (v120 (state_of (tick time now s))) time now].
Proof.
  destruct (tick_calls time now s) as (root & per & Htr & Hroot & Hper).
  rewrite Htr. cbn [deadlines]. rewrite !deadlines_app. cbn [deadlines].
  assert (Hr : deadlines root = []).
  { apply deadlines_none. intros e Hin. exists 0. right.
    rewrite forallb_forall in Hroot. now apply Hroot. }
  assert (Hp : deadlines (concat per) = []).
  { clear Htr. induction Hper as [|j t idx per Hj Hper IH]; [reflexivity|].
    cbn [concat]. rewrite deadlines_app, IH, app_nil_r.
    apply deadlines_none. intros e Hin. exists j.
    now apply (slot_calls_kinds j t). }
  rewrite Hr, Hp. cbn [app]. rewrite tick_value. now rewrite tick_keeps_fps.
Qed.

(** X15.  Across any number of iterations of the loop the frame rate and
    the size of the table stay what they were; [v120] is set at the end
    exactly when it was set at the start or one of the iterations read a
    firmware version of at least 0x0120 on line 247; every iteration
    sleeps exactly once; and from a start with [v120] set, every
    iteration sleeps until the deadline computed with 12 packets per
    frame, whatever is or is not connected by then. *)
Theorem frames_latch clock (s : state) :
  fps (state_of (frames clock s)) = fps s
  /\ DEV_MAX (state_of (frames clock s)) = DEV_MAX s
  /\ v120 (state_of (frames clock s))
     = v120 s || fw_seen (trace_of (frames clock s))
  /\ length (deadlines (trace_of (frames clock s))) = length clock
  /\ (v120 s = true ->
      deadlines (trace_of (frames clock s))
      = map (fun r => wake_deadline (fps s) true (fst r) (snd r)) clock).
Proof.
  revert s. induction clock as [|[time now] clock IH]; intros s.
  - cbn. rewrite orb_false_r. auto.
  - cbn [frames]. rewrite bind_state, bind_trace.
    destruct (IH (state_of (tick time now s))) as (If & Id & Iv & Il & Iw).
    rewrite If, Id, Iv, tick_keeps_fps, tick_keeps_table, tick_latch in *.
    rewrite fw_seen_app, deadlines_app, tick_sleeps_once, orb_assoc.
    cbn [app length map fst snd].
    repeat split; auto.
    intros Hv. rewrite Hv in *. cbn [orb] in *.
    now rewrite (Iw eq_refl), tick_latch, Hv.
Qed.

End LoopFacts.

(** *** More on [quit]: lines 21-39 *)

Section QuitMore.
Context {H : Type} {helpers : Helpers H}.

Local Abbreviation state := (daemon H).

Lemma quit_slot_calls_forget (s1 s2 : state) i :
  keyboard s1 = keyboard s2 ->
  map forget_outcome (quit_slot_calls s1 i)
  = map forget_outcome (quit_slot_calls s2 i).
Proof.
  intros Hk. unfold quit_slot_calls, slot. rewrite Hk.
  now destruct (IS_CONNECTED _).
Qed.

(** X16.  [quit] does not look at what [pthread_mutex_timedlock]
    returns.  Started on the same device table, it makes the same calls
    in the same order whether it got every lock or none of them: a lock
    that times out delays the teardown of a device, it does not skip
    it. *)
Theorem quit_ignores_lock_outcomes (s1 s2 : state) :
  keyboard s1 = keyboard s2 ->
  map forget_outcome (trace_of (quit s1))
  = map forget_outcome (trace_of (quit s2)).
Proof.
  intros Hk.
  destruct (quit_run s1) as (-> & _). destruct (quit_run s2) as (-> & _).
  unfold quit_calls, DEV_MAX. rewrite Hk.
  rewrite !map_app. cbn [map forget_outcome]. do 2 f_equal.
  induction (seq 1 (length (keyboard s2) - 1)) as [|i idx IH];
    [reflexivity|].
  cbn [flat_map]. rewrite !map_app, IH. f_equal.
  now apply quit_slot_calls_forget.
Qed.

End QuitMore.

Section BenchCalls.

Lemma tick_release_paths_witness :
  In (EvDequeue 1 0) (trace_of (tick bench_t0 bench_t1 bench_stuck_1)).
Proof.
  destruct (tick_release_paths bench_t0 bench_t1 bench_stuck_1 1)
    as (_ & _ & Hclosed & _).
  destruct Hclosed as (_ & _ & Hsend & _); [vm_compute; auto 10 | exact Hsend].
Defined.

Lemma frames_latch_witness :
  deadlines (trace_of (frames [(bench_t0, bench_t1); (bench_t1, bench_t1)]
                         bench_stuck_1))
  = map (fun r => wake_deadline (fps bench_stuck_1) true (fst r) (snd r))
      [(bench_t0, bench_t1); (bench_t1, bench_t1)].
Proof.
  apply (proj2 (proj2 (proj2 (proj2
           (frames_latch [(bench_t0, bench_t1); (bench_t1, bench_t1)]
              bench_stuck_1))))).
  reflexivity.
Defined.

Example bench_contended_quit :
  trace_of (quit bench_contended)
  = [EvTimedLock ListLock false;
     EvTimedLock (DevLock 1) false; EvInputClose 1; EvRevertUsb 1; EvCloseUsb 1;
     EvTimedLock (DevLock 0) false; EvCloseUsb 0; EvUsbDeinit;
     EvUnlock ListLock].
Proof. reflexivity. Qed.

Lemma quit_ignores_lock_outcomes_witness :
  map forget_outcome (trace_of (quit bench_contended))
  = map forget_outcome (trace_of (quit bench_backlog)).
Proof.
  apply (quit_ignores_lock_outcomes bench_contended bench_backlog).
  reflexivity.
Defined.

End BenchCalls.

(** *** More on the signal thread: lines 41-72 *)

Section SignalMore.

Lemma run_all_app a1 a2 p : run_all (a1 ++ a2) p = run_all a2 (run_all a1 p).
Proof. apply fold_left_app. Qed.

(** [sigmain] asleep on line 69 stays asleep. *)
Lemma asleep_stays m :
  run_all (repeat Step m) (run_all (repeat Step 3) (boot 0))
  = run_all (repeat Step 3) (boot 0).
Proof.
  induction m as [|m IH]; [reflexivity|].
  cbn [repeat]. unfold run_all at 1. cbn [fold_left act].
  change (step (run_all (repeat Step 3) (boot 0)))
    with (run_all (repeat Step 3) (boot 0)).
  exact IH.
Qed.

Lemma asleep_from k :
  3 <= k ->
  run_all (repeat Step k) (boot 0) = run_all (repeat Step 3) (boot 0).
Proof.
  intros Hk. replace k with (3 + (k - 3)) by lia.
  rewrite repeat_app, run_all_app. apply asleep_stays.
Qed.



(** X18.  A termination signal that reaches the signal thread before
    [sigmain] has installed the handler for it (lines 65-67 install
    them one at a time, SIGTERM first, after line 64 has unblocked all
    three) has its default action: the process ends at once, without a
    message and without [quit], and nothing runs afterwards. *)
Theorem signal_before_handlers k g :
  k <= match g with SIGTERM => 0 | SIGINT => 1 | SIGQUIT => 2 end ->
  let p := run_all (repeat Step k ++ [Deliver g]) (boot 0) in
  exited p = true /\ shutdowns p = 0 /\ printed p = []
  /\ forall acts, shutdowns (run_all acts p) = 0 /\ printed (run_all acts p) = [].
Proof.
  intros Hk. cbv zeta.
  assert (Hdead : forall p acts, exited p = true -> run_all acts p = p).
  { intros p acts Hex. induction acts as [|a acts IH]; [reflexivity|].
    unfold run_all in *. cbn [fold_left].
    assert (act p a = p) as ->; [|exact IH].
    destruct a; cbn; [unfold deliver | unfold step]; now rewrite Hex. }
  destruct g; destruct k as [|[|[|k]]]; try lia.
  all: repeat split; intros; rewrite ?Hdead by reflexivity; reflexivity.
Qed.

Lemma signal_before_handlers_witness :
  exited (run_all (repeat Step 1 ++ [Deliver SIGINT]) (boot 0)) = true
  /\ shutdowns (run_all (repeat Step 1 ++ [Deliver SIGINT]) (boot 0)) = 0.
Proof.
  destruct (signal_before_handlers 1 SIGINT ltac:(cbn; lia)) as (Hx & Hs & _).
  split; [exact Hx | exact Hs].
Defined.

Lemma announced_mono (p p' : process) fr :
  (forall m, In m (printed p) -> In m (printed p')) ->
  shutdowns p <= shutdowns p' ->
  announced p fr -> announced p' fr.
Proof.
  intros Hp Hs. unfold announced. destruct (fn fr); auto.
  intros [H1 H2]. split; intros Hpc; [apply Hp, H1, Hpc | specialize (H2 Hpc); lia].
Qed.

Lemma orderly_same p q :
  handlers q = handlers p -> stack q = stack p -> printed q = printed p ->
  shutdowns q = shutdowns p -> exited q = exited p ->
  orderly p -> orderly q.
Proof.
  unfold orderly, announced. intros -> -> -> -> ->. auto.
Qed.

Lemma orderly_enter g p : exited p = false -> orderly p -> orderly (enter g p).
Proof.
  intros Hx (Hh & Hst & Hsh & Hex). unfold enter.
  destruct (handlers p g) eqn:Hg; [now destruct (Hh g)| |].
  all: repeat split; cbn; auto; try congruence.
  all: constructor; [unfold announced; cbn; try split; lia || exact I|].
  all: eapply Forall_impl; [exact Hst|]; intros fr; now apply announced_mono.
Qed.

Lemma orderly_deliver g p : orderly p -> orderly (deliver g p).
Proof.
  intros Ho. unfold deliver.
  destruct (exited p) eqn:Hx; [exact Ho|].
  destruct (blocked p g); [|now apply orderly_enter].
  now apply (orderly_same p).
Qed.

Lemma orderly_release p : exited p = false -> orderly p -> orderly (release p).
Proof.
  intros Hx Ho. unfold release.
  destruct (find _ _) as [g|]; [|exact Ho].
  apply orderly_enter; [exact Hx|]. now apply (orderly_same p).
Qed.

Lemma orderly_step p : orderly p -> orderly (step p).
Proof.
  intros Ho. pose proof Ho as (Hh & Hst & Hsh & Hex). unfold step.
  destruct (exited p) eqn:Hx; [exact Ho|].
  destruct (stack p) as [|[f k] rest] eqn:Hs; [exact Ho|].
  apply Forall_cons in Hst as [Hf Hst].
  assert (Hpop : orderly (release (set_stack rest p))).
  { apply orderly_release; [exact Hx|].
    unfold orderly. cbn. rewrite Hx. repeat split; auto. }
  destruct f as [|type|type]; cbn [fn pc code].
  - (* [sigmain] *)
    destruct k as [|[|[|[|[|k]]]]]; cbn.
    4: exact Ho.
    4, 5: exact Hpop.
    all: unfold orderly; cbn; rewrite Hx.
    all: repeat split; auto; try discriminate.
    all: try (intros g; destruct (signal_eqb g _); [discriminate | apply Hh]).
    all: constructor; [exact I|].
    all: eapply Forall_impl; [exact Hst|]; intros fr; now apply announced_mono.
  - (* [sighandler] *)
    unfold announced in Hf. cbn [fn pc] in Hf. destruct Hf as [Hf1 Hf2].
    destruct k as [|[|[|[|[|[|[|[|k]]]]]]]]; cbn.
    8, 9: exact Hpop.
    all: unfold orderly; cbn; rewrite ?Hx.
    all: repeat split; auto; try discriminate; try lia.
    all: try (intros g; destruct (signal_eqb g _); [discriminate | apply Hh]).
    all: try (intros _; exists type; apply in_app_iff; right; now left).
    all: try (intros _; exists type; apply Hf1; lia).
    all: try (intros _; apply Hf2; lia).
    all: try (constructor;
              [ unfold announced; cbn; split; intros Hpc; try lia;
                first [ apply in_app_iff; right; now left | apply Hf1; lia
                      | specialize (Hf2 ltac:(lia)); lia ]
              | eapply Forall_impl; [exact Hst|]; intros fr;
                apply announced_mono; cbn; auto;
                intros m Hm; apply in_app_iff; now left ]).
    all: try (eapply Forall_impl; [exact Hst|]; intros fr;
              apply announced_mono; cbn; auto).
  - (* [sighandler2] *)
    destruct k as [|[|[|k]]]; cbn.
    2, 3, 4: exact Hpop.
    all: unfold orderly; cbn; rewrite ?Hx.
    all: repeat split; auto; try discriminate.
    all: try (intros Hx1; destruct (Hsh Hx1) as (ty & Hty); exists ty;
              apply in_app_iff; now left).
    all: try (constructor; [exact I|]).
    all: eapply Forall_impl; [exact Hst|]; intros fr;
      apply announced_mono; cbn; auto;
      intros m Hm; apply in_app_iff; now left.
Qed.

Lemma orderly_run_all acts p : orderly p -> orderly (run_all acts p).
Proof.
  revert p. induction acts as [|a acts IH]; intros p Ho; [exact Ho|].
  cbn. apply IH. destruct a; [now apply orderly_deliver | now apply orderly_step].
Qed.

(** X19.  Once [sigmain] has installed its handlers, the process does
    not end without a shutdown: whenever and in whatever order signals
    arrive from then on, if the process has ended then [quit] was
    entered - exactly once - and a message naming the signal that was
    caught was printed before. *)
Theorem exit_follows_shutdown k acts :
  3 <= k ->
  let p := run_all (repeat Step k ++ acts) (boot 0) in
  exited p = true ->
  shutdowns p = 1 /\ exists type, In (Caught type) (printed p).
Proof.
  intros Hk. cbv zeta. rewrite run_all_app, (asleep_from k Hk).
  set (p0 := run_all (repeat Step 3) (boot 0)).
  assert (Hi : signal_inv p0) by apply run_all_inv, boot_inv.
  assert (Ho : orderly p0).
  { repeat split; cbn; try discriminate; try lia.
    - now intros [].
    - repeat constructor. }
  destruct (orderly_run_all acts p0 Ho) as (_ & _ & Hsh & Hex).
  destruct (run_all_inv acts p0 Hi) as [Hle _].
  intros Hx. specialize (Hex Hx). split; [lia | apply Hsh, Hex].
Qed.

Lemma exit_follows_shutdown_witness :
  shutdowns (run_all (repeat Step 3
                      ++ [Deliver SIGTERM; Step; Deliver SIGINT]
                      ++ repeat Step 7) (boot 0)) = 1
  /\ exists type,
       In (Caught type)
         (printed (run_all (repeat Step 3
                            ++ [Deliver SIGTERM; Step; Deliver SIGINT]
                            ++ repeat Step 7) (boot 0))).
Proof.
  apply (exit_follows_shutdown 3
           ([Deliver SIGTERM; Step; Deliver SIGINT] ++ repeat Step 7)).
  - lia.
  - reflexivity.
Defined.

End SignalMore.

(** *** What the loop and [quit] leave alone *)

Section KeptFacts.
Context {H : Type} {helpers : Helpers H}.

Local Abbreviation state := (daemon H).

#[local] Arguments process_fifos : simpl never.
#[local] Arguments root_fifo : simpl never.
#[local] Arguments sweep : simpl never.

Lemma kept_if_sequential P k : sequential (kept_if (H := H) P k).
Proof.
  split.
  - intros s _. repeat split.
  - intros s1 s2 s3 t1 t2 HA HB HP.
    destruct (HA HP) as (A1 & A2 & A3 & A4).
    destruct HB as (B1 & B2 & B3 & B4); [now rewrite A1|].
    repeat split; try congruence. now rewrite forallb_app, A4, B4.
Qed.

Lemma slot_insert_other (s : state) i k kb :
  i <> k -> slot (set_keyboard (<[i := kb]> (keyboard s)) s) k = slot s k.
Proof.
  intros Hne. unfold slot. cbn [keyboard set_keyboard].
  now rewrite list_lookup_insert_ne.
Qed.

Lemma call_status_kept P k f ev i :
  i <> k -> (forall r, names k (ev i r) = false) ->
  run_in (kept_if P k) (call_status f ev i).
Proof.
  intros Hne Hev s _. unfold call_status, state_of, trace_of.
  destruct (f (slot s i)) as [r kb]. cbn [fst snd].
  repeat split; [now apply slot_insert_other|].
  cbn. now rewrite Hev.
Qed.

Lemma call_void_kept P k f ev i :
  i <> k -> names k (ev i) = false -> run_in (kept_if P k) (call_void f ev i).
Proof.
  intros Hne Hev s _. unfold call_void, state_of, trace_of. cbn [fst snd].
  repeat split; [now apply slot_insert_other|].
  cbn. now rewrite Hev.
Qed.

Lemma closeusb_kept P k i : i <> k -> run_in (kept_if P k) (closeusb i).
Proof.
  intros Hne s _. unfold closeusb, state_of, trace_of. cbn [fst snd].
  assert (Hik : Nat.eqb i k = false) by now apply Nat.eqb_neq.
  repeat split.
  - change (slot (set_keyboard (<[i := zero_slot]> (keyboard s)) s) k = slot s k).
    now apply slot_insert_other.
  - cbn. apply fupd_other. congruence.
  - cbn. now rewrite Hik.
Qed.

Lemma names_lock k l : l <> DevLock k -> forall b,
  names k (EvLock l) = false /\ names k (EvUnlock l) = false
  /\ names k (EvTimedLock l b) = false.
Proof.
  intros Hne b. destruct l as [|i]; cbn; [auto|].
  assert (Nat.eqb i k = false) as -> by (apply Nat.eqb_neq; congruence). auto.
Qed.

Lemma set_mutex_other k l o (s : state) :
  l <> DevLock k ->
  slot (set_mutex l o s) k = slot s k
  /\ mutex (set_mutex l o s) k = mutex s k
  /\ fifo (set_mutex l o s) k = fifo s k.
Proof.
  intros Hne. destruct l as [|i]; cbn; repeat split.
  apply fupd_other. congruence.
Qed.

Lemma one_call k e :
  names k e = false -> forallb (fun e => negb (names k e)) [e] = true.
Proof. intros He. cbn [forallb]. now rewrite He. Qed.

Lemma lock_kept P k l :
  l <> DevLock k -> run_in (kept_if P k) (pthread_mutex_lock l).
Proof.
  intros Hne s _. unfold pthread_mutex_lock, state_of, trace_of. cbn [fst snd].
  destruct (set_mutex_other k l Self s Hne) as (A & B & C).
  destruct (names_lock k l Hne true) as (N & _).
  repeat split; auto. now apply one_call.
Qed.

Lemma unlock_kept P k l :
  l <> DevLock k -> run_in (kept_if P k) (pthread_mutex_unlock l).
Proof.
  intros Hne s _. unfold pthread_mutex_unlock, state_of, trace_of. cbn [fst snd].
  destruct (set_mutex_other k l Free s Hne) as (A & B & C).
  destruct (names_lock k l Hne true) as (_ & N & _).
  destruct (get_mutex s l); repeat split; auto; now apply one_call.
Qed.

Lemma timedlock_kept P k l :
  l <> DevLock k -> run_in (kept_if P k) (pthread_mutex_timedlock l).
Proof.
  intros Hne s _. unfold pthread_mutex_timedlock, state_of, trace_of.
  destruct (set_mutex_other k l Self s Hne) as (A & B & C).
  pose proof (fun b => proj2 (proj2 (names_lock k l Hne b))) as N.
  destruct OS_MAC; [|destruct (get_mutex s l)]; cbn [fst snd].
  all: repeat split; auto; now apply one_call.
Qed.

Lemma read_and_apply_kept P k i :
  i <> k -> run_in (kept_if P k) (read_and_apply i).
Proof.
  intros Hne s _. unfold read_and_apply, readlines, call_void, bind, ret,
    state_of, trace_of.
  assert (Hik : Nat.eqb i k = false) by now apply Nat.eqb_neq.
  assert (Hf : fupd (fifo s) i [] k = fifo s k) by (apply fupd_other; congruence).
  cbn. destruct (fifo s i) as [|line lines]; cbn [fst snd app].
  - repeat split; [exact Hf | now apply one_call].
  - split; [|split; [|split]].
    + now apply (slot_insert_other (set_fifo (fupd (fifo s) i []) s)).
    + reflexivity.
    + exact Hf.
    + cbn [forallb names]. now rewrite Hik.
Qed.

Lemma note_kept P k (e : event) :
  names k e = false -> run_in (kept_if P k) (fun s : state => (tt, s, [e])).
Proof. intros He s _. repeat split. cbn. now rewrite He. Qed.

Lemma set_v120_kept P k :
  run_in (kept_if P k) (fun s : state => (tt, set_v120 true s, [])).
Proof. intros s _. repeat split. Qed.

Lemma kept_if_weaken (P Q : usbdevice H -> Prop) k {A : Type} (c : M A) :
  (forall kb, Q kb -> P kb) -> run_in (kept_if P k) c -> run_in (kept_if Q k) c.
Proof. intros HQP Hc s HQ. apply Hc. now apply HQP. Qed.

(** The body of the inner loop leaves alone a slot that has no FIFO. *)
Lemma fifo_slot_kept k i : run_in (kept_if no_fifo k) (fifo_slot i).
Proof.
  intros s Hz. unfold no_fifo in Hz. revert Hz. unfold fifo_slot, get_slot.
  rewrite bind_state, bind_trace. cbn [value_of state_of trace_of fst snd app].
  destruct (Z.eqb_spec (infifo (slot s i)) 0) as [Hi|Hnz]; cbn [negb when].
  { intros Hz. now apply (kept_if_sequential no_fifo k). }
  intros Hz.
  assert (Hne : i <> k) by (intros ->; contradiction).
  assert (Hik : Nat.eqb i k = false) by now apply Nat.eqb_neq.
  revert Hz. apply (run_in_bind (kept_if no_fifo k));
    [apply kept_if_sequential | now apply read_and_apply_kept | intros _].
  unfold get_slot. intros s1.
  rewrite bind_state, bind_trace. cbn [value_of state_of trace_of fst snd app].
  apply (run_in_bind (kept_if no_fifo k));
    [apply kept_if_sequential | apply note_kept; exact Hik | intros _].
  apply run_in_when; [apply kept_if_sequential | intros _; apply set_v120_kept].
Qed.

Lemma process_fifos_kept k : run_in (kept_if no_fifo k) process_fifos.
Proof.
  intros s. unfold process_fifos.
  apply (run_in_for_each (kept_if no_fifo k) fifo_slot);
    [apply kept_if_sequential | intros i _; apply fifo_slot_kept].
Qed.

Lemma root_fifo_kept k : run_in (kept_if no_fifo k) root_fifo.
Proof.
  intros s Hz. unfold no_fifo in Hz. revert Hz. unfold root_fifo, get_slot.
  rewrite bind_state, bind_trace. cbn [value_of state_of trace_of fst snd app].
  destruct (Z.eqb_spec (infifo (slot s 0)) 0) as [H0|Hnz]; cbn [negb when].
  { intros Hz. now apply (kept_if_sequential no_fifo k). }
  intros Hz. apply (read_and_apply_kept no_fifo); [|exact Hz].
  intros <-. contradiction.
Qed.

(** The body of the outer loop leaves alone a slot that is not connected
    and has no FIFO. *)
Lemma sweep_slot_kept k i : run_in (kept_if unused k) (sweep_slot i).
Proof.
  intros s Hu. pose proof Hu as [Hc Hz]. unfold unconnected in Hc.
  revert Hu. unfold sweep_slot, get_slot.
  rewrite bind_state, bind_trace. cbn [value_of state_of trace_of fst snd app].
  destruct (IS_CONNECTED (slot s i)) eqn:Hi; cbn [when].
  2: { intros Hu. now apply (kept_if_sequential unused k). }
  assert (Hne : i <> k) by (intros ->; congruence).
  assert (Hik : Nat.eqb i k = false) by now apply Nat.eqb_neq.
  assert (Hlk : DevLock i <> DevLock k) by congruence.
  pose proof (kept_if_sequential unused k) as Hseq.
  apply (run_in_bind (kept_if unused k));
    [exact Hseq | now apply lock_kept | intros _].
  apply run_in_bind; [exact Hseq | now apply call_status_kept | intros sent].
  apply run_in_bind; [exact Hseq | | intros stuck].
  { destruct (sent =? 0)%Z; [|now apply run_in_ret].
    apply run_in_bind; [exact Hseq | now apply call_status_kept | intros r].
    now apply run_in_ret. }
  destruct stuck; [now apply closeusb_kept|].
  unfold get_slot. intros s1.
  rewrite bind_state, bind_trace. cbn [value_of state_of trace_of fst snd app].
  apply (run_in_bind (kept_if unused k));
    [exact Hseq | apply note_kept; exact Hik | intros _].
  apply run_in_bind; [exact Hseq | | intros _; now apply unlock_kept].
  apply run_in_when; [exact Hseq | intros _].
  apply run_in_bind; [exact Hseq | | intros _; now apply call_void_kept].
  apply (kept_if_weaken no_fifo unused); [now intros kb [_ ?] | apply process_fifos_kept].
Qed.

Lemma tick_kept time now k : run_in (kept_if unused k) (tick time now).
Proof.
  pose proof (kept_if_sequential unused k) as Hseq.
  unfold tick.
  apply run_in_bind; [exact Hseq | now apply lock_kept | intros _].
  apply run_in_bind; [exact Hseq | | intros _].
  { apply (kept_if_weaken no_fifo unused); [now intros kb [_ ?] | apply root_fifo_kept]. }
  apply run_in_bind; [exact Hseq | | intros _].
  { intros s. unfold sweep.
    apply (run_in_for_each (kept_if unused k) sweep_slot);
      [exact Hseq | intros i _; apply sweep_slot_kept]. }
  apply run_in_bind; [exact Hseq | now apply unlock_kept | intros _].
  intros s _. repeat split.
Qed.

(** X20.  An iteration of the loop leaves alone every slot that is
    neither connected nor has a command FIFO open when the iteration
    starts: none of its calls names the slot, and the slot's entry in
    the table, its mutex and its FIFO are what they were. *)
Theorem tick_leaves_unused_slots time now (s : state) k :
  IS_CONNECTED (slot s k) = false -> infifo (slot s k) = 0%Z ->
  slot (state_of (tick time now s)) k = slot s k
  /\ mutex (state_of (tick time now s)) k = mutex s k
  /\ fifo (state_of (tick time now s)) k = fifo s k
  /\ forall e, In e (trace_of (tick time now s)) -> names k e = false.
Proof.
  intros Hc Hz.
  destruct (tick_kept time now k s (conj Hc Hz)) as (A & B & C & D).
  repeat split; auto.
  intros e Hin. rewrite forallb_forall in D. specialize (D e Hin).
  now apply negb_true_iff in D.
Qed.

Lemma quit_slot_kept k i : run_in (kept_if unconnected k) (quit_slot i).
Proof.
  intros s Hc. pose proof Hc as Hc'. unfold unconnected in Hc'.
  revert Hc. unfold quit_slot, get_slot.
  rewrite bind_state, bind_trace. cbn [value_of state_of trace_of fst snd app].
  destruct (IS_CONNECTED (slot s i)) eqn:Hi; cbn [when].
  2: { intros Hu. now apply (kept_if_sequential unconnected k). }
  assert (Hne : i <> k) by (intros ->; congruence).
  assert (Hik : Nat.eqb i k = false) by now apply Nat.eqb_neq.
  assert (Hlk : DevLock i <> DevLock k) by congruence.
  pose proof (kept_if_sequential unconnected k) as Hseq.
  apply (run_in_bind (kept_if unconnected k));
    [exact Hseq | now apply timedlock_kept | intros _].
  apply run_in_bind; [exact Hseq | now apply call_void_kept | intros _].
  apply run_in_bind; [exact Hseq | now apply call_void_kept | intros _].
  now apply closeusb_kept.
Qed.

(** X21.  [quit] leaves alone every slot from 1 up that is not
    connected when it starts: it makes no call for the slot - no lock,
    no [inputclose], no [revertusb], no [closeusb] - and the slot's
    entry in the table, its mutex and its FIFO are what they were. *)
Theorem quit_leaves_unconnected_slots (s : state) k :
  1 <= k -> IS_CONNECTED (slot s k) = false ->
  slot (state_of (quit s)) k = slot s k
  /\ mutex (state_of (quit s)) k = mutex s k
  /\ fifo (state_of (quit s)) k = fifo s k
  /\ forall e, In e (trace_of (quit s)) -> names k e = false.
Proof.
  intros Hk Hc.
  assert (Hrun : run_in (kept_if unconnected k) quit).
  { pose proof (kept_if_sequential unconnected k) as Hseq.
    assert (H0 : DevLock 0 <> DevLock k) by (intros [=]; lia).
    unfold quit.
    apply run_in_bind; [exact Hseq | now apply timedlock_kept | intros _].
    apply run_in_bind; [exact Hseq | | intros _].
    { intros s0.
      apply (run_in_for_each (kept_if unconnected k) quit_slot);
        [exact Hseq | intros i _; apply quit_slot_kept]. }
    apply run_in_bind; [exact Hseq | now apply timedlock_kept | intros _].
    apply run_in_bind; [exact Hseq | apply closeusb_kept; lia | intros _].
    apply run_in_bind; [exact Hseq | | intros _; now apply unlock_kept].
    intros s0 _. repeat split. }
  destruct (Hrun s Hc) as (A & B & C & D).
  repeat split; auto.
  intros e Hin. rewrite forallb_forall in D. specialize (D e Hin).
  now apply negb_true_iff in D.
Qed.

End KeptFacts.

Section BenchKept.

(** Slot 1 of the table of [bench_idle]: an entry of the table that is
    neither connected nor has a FIFO, next to a keyboard the iteration
    serves. *)
Lemma tick_leaves_unused_slots_witness :
  keyboard bench_idle !! 1 = Some bench_spare
  /\ slot (state_of (tick bench_t0 bench_t1 bench_idle)) 1 = bench_spare
  /\ mutex (state_of (tick bench_t0 bench_t1 bench_idle)) 1 = Other
  /\ fifo (state_of (tick bench_t0 bench_t1 bench_idle)) 1
     = ["mode 1"%string]
  /\ forall e, In e (trace_of (tick bench_t0 bench_t1 bench_idle)) ->
       names 1 e = false.
Proof.
  split; [reflexivity|].
  exact (tick_leaves_unused_slots bench_t0 bench_t1 bench_idle 1
           eq_refl eq_refl).
Defined.

Lemma quit_leaves_unconnected_slots_witness :
  slot (state_of (quit bench_stuck_2)) 1 = slot bench_stuck_2 1.
Proof.
  apply (quit_leaves_unconnected_slots bench_stuck_2 1); [lia | reflexivity].
Defined.

Example bench_stuck_2_quit :
  trace_of (quit bench_stuck_2)
  = [EvTimedLock ListLock true; EvTimedLock (DevLock 0) true; EvCloseUsb 0;
     EvUsbDeinit; EvUnlock ListLock].
Proof. reflexivity. Qed.

End BenchKept.

(** *** The outer loop, path by path *)

Section Parts.
Context {H : Type} {helpers : Helpers H}.

Local Abbreviation state := (daemon H).

#[local] Arguments process_fifos : simpl never.

Lemma slot_outside (s : state) i :
  length (keyboard s) <= i -> slot s i = zero_slot.
Proof.
  intros Hi. unfold slot. now rewrite (proj2 (lookup_ge_None _ _) Hi).
Qed.

Lemma open_in_table (s : state) i :
  infifo (slot s i) <> 0%Z -> i < length (keyboard s).
Proof.
  intros Hopen. destruct (decide (i < length (keyboard s))); [assumption|].
  rewrite slot_outside in Hopen by lia. now destruct Hopen.
Qed.

Lemma connected_in_table (s : state) i :
  connected (slot s i) = true -> i < length (keyboard s).
Proof.
  intros Hc. destruct (decide (i < length (keyboard s))); [assumption|].
  rewrite slot_outside in Hc by lia. discriminate Hc.
Qed.

Lemma slot_put_same (s : state) i kb :
  i < length (keyboard s) -> slot (put i kb s) i = kb.
Proof.
  intros Hi. unfold slot, put. cbn [keyboard set_keyboard].
  now rewrite list_lookup_insert_eq.
Qed.

Lemma slot_put_other (s : state) i k kb :
  i <> k -> slot (put i kb s) k = slot s k.
Proof.
  intros Hi. unfold slot, put. cbn [keyboard set_keyboard].
  now rewrite list_lookup_insert_ne.
Qed.

Lemma put_put (s : state) i kb kb' : put i kb (put i kb' s) = put i kb s.
Proof.
  unfold put, set_keyboard. cbn. now rewrite list_insert_insert_eq.
Qed.

Lemma sweep_slot_skipped i (s : state) :
  IS_CONNECTED (slot s i) = false -> sweep_slot i s = (tt, s, []).
Proof.
  intros Hc. unfold sweep_slot, get_slot, bind. cbn. now rewrite Hc.
Qed.

(** Lines 240-255: from the test of the queue to the unlock. *)
Lemma sweep_slot_tail i (x : state) :
  mutex x i = Self ->
  bind (get_slot i)
    (fun kb =>
       bind (fun s => (tt, s, [EvQueuecount i (queuecount kb)]))
         (fun _ =>
            bind (when (queuecount kb =? 0)%Z
                    (bind process_fifos
                       (fun _ => call_void updateindicators EvUpdateIndicators i)))
              (fun _ => pthread_mutex_unlock (DevLock i)))) x
  = let q := queuecount (slot x i) in
    let r := if (q =? 0)%Z
             then bind process_fifos
                    (fun _ => call_void updateindicators EvUpdateIndicators i) x
             else (tt, x, []) in
    (tt, set_mutex (DevLock i) Free (state_of r),
     EvQueuecount i q :: trace_of r ++ [EvUnlock (DevLock i)]).
Proof.
  intros Hm. cbv zeta. unfold get_slot. unfold bind at 1. cbn [fst snd].
  unfold bind at 1. cbn [fst snd app]. unfold bind at 1.
  destruct (queuecount (slot x i) =? 0)%Z; cbn [when].
  - pose proof (process_fifos_rel x) as (Pm & _).
    unfold bind. unfold state_of, trace_of in *.
    destruct (process_fifos x) as [[[] s4] t4]. cbn [fst snd] in *.
    unfold call_void, pthread_mutex_unlock. cbn [fst snd get_mutex set_keyboard mutex].
    now rewrite Pm, Hm.
  - unfold ret, pthread_mutex_unlock, state_of, trace_of.
    cbn [fst snd get_mutex app]. now rewrite Hm.
Qed.

(** The body of the outer loop on a connected slot. *)
Lemma sweep_slot_connected i (s : state) :
  IS_CONNECTED (slot s i) = true ->
  sweep_slot i s
  = if stuck (slot s i)
    then (tt, set_mutex (DevLock i) Free
                (put i zero_slot (set_mutex (DevLock i) Self s)),
          [EvLock (DevLock i); EvDequeue i 0;
           EvTryReset i (reset_status (slot s i)); EvCloseUsb i])
    else
      let x := at_queue i s in
      let q := queuecount (slot x i) in
      let r := if (q =? 0)%Z
               then bind process_fifos
                      (fun _ => call_void updateindicators EvUpdateIndicators i) x
               else (tt, x, []) in
      (tt, set_mutex (DevLock i) Free (state_of r),
       EvLock (DevLock i) :: EvDequeue i (send_status (slot s i))
       :: recovered i (send_status (slot s i))
       ++ EvQueuecount i q :: trace_of r ++ [EvUnlock (DevLock i)]).
Proof.
  intros Hc. pose proof (connected_in_table s i Hc) as Hlt.
  unfold IS_CONNECTED in Hc.
  unfold stuck, at_queue, after_send, send_status, reset_status, recovered.
  unfold sweep_slot. unfold get_slot at 1. unfold bind at 1. cbn [fst snd].
  unfold IS_CONNECTED. rewrite Hc. cbn [when].
  unfold bind at 1. unfold pthread_mutex_lock at 1.
  unfold bind at 1. unfold call_status at 1.
  change (slot (set_mutex (DevLock i) Self s) i) with (slot s i).
  destruct (usbdequeue (slot s i)) as [sent kb1] eqn:Hd. cbn [fst snd].
  fold (put i kb1 (set_mutex (DevLock i) Self s)).
  set (s1 := put i kb1 (set_mutex (DevLock i) Self s)).
  assert (Hs1 : slot s1 i = kb1) by (apply slot_put_same; exact Hlt).
  assert (Hm : forall kb, mutex (put i kb (set_mutex (DevLock i) Self s)) i = Self).
  { intros kb. cbn. apply fupd_same. }
  destruct (Z.eqb_spec sent 0) as [->|Hsent]; cbn [andb].
  - unfold bind at 1. unfold bind at 1. unfold call_status at 1.
    rewrite Hs1.
    destruct (usb_tryreset kb1) as [r kb2] eqn:Ht. cbn [fst snd].
    fold (put i kb2 s1). unfold ret at 1. cbn [fst snd app].
    unfold s1. rewrite put_put.
    destruct (Z.eqb_spec r 0) as [->|Hr]; cbn [negb].
    + rewrite (sweep_slot_tail i _ (Hm kb2)). reflexivity.
    + unfold closeusb. cbn [fst snd app].
      fold (put i zero_slot (put i kb2 (set_mutex (DevLock i) Self s))).
      now rewrite put_put.
  - unfold bind at 1. unfold ret at 1. cbn [fst snd app].
    unfold s1. rewrite (sweep_slot_tail i _ (Hm kb1)). reflexivity.
Qed.

End Parts.

(** *** What an iteration reads from a slot *)

Section ReadFacts.
Context {H : Type} {helpers : Helpers H}.
Hypothesis keeps_infifo : keeps infifo.

Local Abbreviation state := (daemon H).

#[local] Arguments process_fifos : simpl never.
#[local] Arguments root_fifo : simpl never.
#[local] Arguments sweep : simpl never.

Lemma closed_app k t1 t2 : closed k (t1 ++ t2) = closed k t1 || closed k t2.
Proof. apply existsb_app. Qed.

Lemma read_rel_sequential k : sequential (read_rel (H := H) k).
Proof.
  split.
  - intros s. unfold read_rel. cbn.
    split; [reflexivity|]. split; [reflexivity|]. split; [reflexivity|].
    split; [auto|]. intros _ v [].
  - intros s1 s2 s3 t1 t2 (AL & AI & AF & AE & AO) (BL & BI & BF & BE & BO).
    unfold read_rel. rewrite closed_app.
    split; [congruence|]. split; [|split; [|split; [auto|]]].
    + intros Hc. apply orb_false_iff in Hc as [H1 H2].
      rewrite (BI H2). auto.
    + intros Hk Hc. apply orb_false_iff in Hc as [H1 H2].
      rewrite (BF Hk H2). auto.
    + intros Hc v Hin. apply orb_false_iff in Hc as [H1 H2].
      apply in_app_iff in Hin as [Hin|Hin]; [now apply AO|].
      destruct (BO H2 v Hin) as [Hopen Hv].
      rewrite (AI H1) in Hopen. split; [exact Hopen|].
      intros Hk. rewrite (Hv Hk). auto.
Qed.

(** A step that writes one entry of the table. *)
Lemma read_rel_table k i kb (s s' : state) t :
  keyboard s' = <[i := kb]> (keyboard s) ->
  (fifo s k = [] -> fifo s' k = []) ->
  (forall v, ~ In (EvFwversion k v) t) ->
  (i = k -> i < length (keyboard s) -> closed k t = false ->
   infifo kb = infifo (slot s i)
   /\ (keeps fwversion -> fwversion kb = fwversion (slot s i))) ->
  read_rel k s s' t.
Proof.
  intros Hk Hf Hno Hkb. unfold read_rel.
  assert (Hslot : closed k t = false ->
                  infifo (slot s' k) = infifo (slot s k)
                  /\ (keeps fwversion ->
                      fwversion (slot s' k) = fwversion (slot s k))).
  { intros Hc. unfold slot at 1 3. rewrite Hk.
    destruct (decide (i = k)) as [->|Hne].
    - destruct (decide (k < length (keyboard s))) as [Hlt|Hge].
      + rewrite list_lookup_insert_eq by exact Hlt. cbn. now apply Hkb.
      + rewrite list_insert_ge by lia. auto.
    - rewrite list_lookup_insert_ne by exact Hne. auto. }
  split; [now rewrite Hk, length_insert|].
  split; [intros Hc; now apply Hslot|].
  split; [intros Hkf Hc; now apply Hslot|].
  split; [exact Hf|].
  intros _ v Hin. now destruct (Hno v).
Qed.

(** A step that leaves the table alone. *)
Lemma read_rel_same k (s s' : state) t :
  keyboard s' = keyboard s ->
  (fifo s k = [] -> fifo s' k = []) ->
  (forall v, ~ In (EvFwversion k v) t) ->
  read_rel k s s' t.
Proof.
  intros Hk Hf Hno. unfold read_rel, slot. rewrite Hk.
  repeat split; auto. all: now destruct (Hno v).
Qed.

(** The body of the inner loop on a slot whose channel is open. *)
Lemma fifo_slot_open i (s : state) :
  infifo (slot s i) <> 0%Z ->
  fifo_slot i s
  = let lines := fifo s i in
    let s1 := set_fifo (fupd (fifo s) i []) s in
    let s2 := match lines with
              | [] => s1
              | _ => put i (readcmd (slot s i) lines) s1
              end in
    let v := fwversion (slot s2 i) in
    (tt, if (0x0120 <=? v)%Z then set_v120 true s2 else s2,
     EvReadlines i lines
     :: match lines with [] => [] | _ => [EvReadcmd i lines] end
     ++ [EvFwversion i v]).
Proof.
  intros Hopen. apply Z.eqb_neq in Hopen.
  unfold fifo_slot, read_and_apply, readlines, call_void, get_slot, when, bind,
    ret, put.
  cbn. rewrite Hopen. cbn.
  destruct (fifo s i) as [|l ls]; cbn;
    try change (slot (set_fifo (fupd (fifo s) i []) s) i) with (slot s i);
    match goal with |- context [(288 <=? ?v)%Z] => destruct (288 <=? v)%Z end;
    reflexivity.
Qed.

Lemma fifo_slot_shut i (s : state) :
  infifo (slot s i) = 0%Z -> fifo_slot i s = (tt, s, []).
Proof.
  intros Hz. unfold fifo_slot, get_slot, bind. cbn. now rewrite Hz.
Qed.

Lemma keyboard_set_v120 (b : bool) (s : state) (c : bool) :
  keyboard (if c then set_v120 b s else s) = keyboard s
  /\ fifo (if c then set_v120 b s else s) = fifo s.
Proof. now destruct c. Qed.

Lemma fifo_slot_read k i : run_in (read_rel k) (fifo_slot i).
Proof.
  destruct keeps_infifo as (_ & _ & Ki & _).
  intros s.
  destruct (Z.eq_dec (infifo (slot s i)) 0%Z) as [Hz|Hopen].
  { rewrite (fifo_slot_shut i s Hz). apply read_rel_sequential. }
  pose proof (open_in_table s i Hopen) as Hlt.
  rewrite (fifo_slot_open i s Hopen). cbv zeta. unfold state_of, trace_of.
  cbn [fst snd].
  set (lines := fifo s i).
  set (s1 := set_fifo (fupd (fifo s) i []) s).
  set (s2 := match lines with [] => s1 | _ => put i (readcmd (slot s i) lines) s1 end).
  assert (Hs2 : keyboard s2 = keyboard s
                \/ (lines <> []
                    /\ keyboard s2 = <[i := readcmd (slot s i) lines]> (keyboard s))).
  { unfold s2. destruct lines; [now left | right]. split; [discriminate|].
    reflexivity. }
  assert (Hf2 : fifo s2 = fupd (fifo s) i []).
  { unfold s2. now destruct lines. }
  assert (Hopen2 : infifo (slot s2 i) = infifo (slot s i)
                   /\ (keeps fwversion ->
                       fwversion (slot s2 i) = fwversion (slot s i))).
  { unfold slot at 1 3.
    destruct Hs2 as [->|[_ ->]]; [auto|].
    rewrite list_lookup_insert_eq by exact Hlt. cbn.
    split; [apply Ki|]. intros (_ & _ & Kf & _). apply Kf. }
  destruct (keyboard_set_v120 true s2 (288 <=? fwversion (slot s2 i))%Z)
    as [Hkv Hfv].
  set (s3 := if (288 <=? fwversion (slot s2 i))%Z then set_v120 true s2 else s2)
    in *.
  assert (Hempty : fifo s k = [] -> fifo s3 k = []).
  { intros He. rewrite Hfv, Hf2. unfold fupd. now destruct (Nat.eqb k i). }
  assert (Hno : closed k
                  (EvReadlines i lines
                   :: match lines with [] => [] | _ :: _ => [EvReadcmd i lines] end
                   ++ [EvFwversion i (fwversion (slot s2 i))]) = false).
  { now destruct lines. }
  unfold read_rel. rewrite Hno.
  assert (Hslot : infifo (slot s3 k) = infifo (slot s k)
                  /\ (keeps fwversion ->
                      fwversion (slot s3 k) = fwversion (slot s k))).
  { destruct (decide (i = k)) as [<-|Hne].
    - unfold slot at 1 3. rewrite Hkv. exact Hopen2.
    - unfold slot at 1 3. rewrite Hkv.
      destruct Hs2 as [->|[_ ->]]; [auto|].
      rewrite list_lookup_insert_ne by exact Hne. auto. }
  split; [|split; [|split; [|split]]].
  - rewrite Hkv. destruct Hs2 as [->|[_ ->]]; [auto | apply length_insert].
  - intros _. apply Hslot.
  - intros Hkf _. now apply Hslot.
  - exact Hempty.
  - intros _ v Hin.
    assert (Hev : EvFwversion k v = EvFwversion i (fwversion (slot s2 i))).
    { destruct lines; cbn in Hin.
      - destruct Hin as [Hin|[Hin|[]]]; [discriminate Hin | now symmetry].
      - destruct Hin as [Hin|[Hin|[Hin|[]]]]; try discriminate Hin. now symmetry. }
    injection Hev as -> ->. split; [exact Hopen|]. apply Hopen2.
Qed.

Lemma process_fifos_read k : run_in (read_rel k) process_fifos.
Proof.
  intros s. unfold process_fifos.
  apply (run_in_for_each (read_rel k) fifo_slot);
    [apply read_rel_sequential | intros i _; apply fifo_slot_read].
Qed.

Lemma root_fifo_run (s : state) :
  root_fifo s
  = if (infifo (slot s 0) =? 0)%Z then (tt, s, [])
    else
      let lines := fifo s 0 in
      let s1 := set_fifo (fupd (fifo s) 0 []) s in
      (tt, match lines with
           | [] => s1
           | _ => put 0 (readcmd (slot s 0) lines) s1
           end,
       EvReadlines 0 lines
       :: match lines with [] => [] | _ => [EvReadcmd 0 lines] end).
Proof.
  unfold root_fifo, read_and_apply, readlines, call_void, get_slot, when, bind,
    ret, put.
  cbn. destruct (infifo (slot s 0) =? 0)%Z; cbn; [reflexivity|].
  destruct (fifo s 0); reflexivity.
Qed.

Lemma root_fifo_read k : run_in (read_rel k) root_fifo.
Proof.
  destruct keeps_infifo as (_ & _ & Ki & _).
  intros s. rewrite root_fifo_run.
  destruct (infifo (slot s 0) =? 0)%Z; [apply read_rel_sequential|].
  cbv zeta. unfold state_of, trace_of. cbn [fst snd].
  assert (Hempty : forall s' : state,
            fifo s' = fupd (fifo s) 0 [] -> fifo s k = [] -> fifo s' k = []).
  { intros s' -> He. unfold fupd. now destruct (Nat.eqb k 0). }
  destruct (fifo s 0) as [|l ls].
  - apply read_rel_same; [reflexivity | now apply Hempty |].
    intros v [Hin|[]]. discriminate Hin.
  - apply (read_rel_table k 0 (readcmd (slot s 0) (l :: ls)));
      [reflexivity | now apply Hempty | |].
    + intros v [Hin|[Hin|[]]]; discriminate Hin.
    + intros _ _ _. split; [apply Ki|]. intros (_ & _ & Kf & _). apply Kf.
Qed.

Lemma closed_touches k t : touches k t = false -> closed k t = false.
Proof.
  induction t as [|e t IH]; [reflexivity|].
  unfold touches, closed in *. cbn. intros Ht.
  apply orb_false_iff in Ht as [He Ht].
  rewrite (IH Ht), orb_false_r.
  destruct e as [[|i]| |[|i]| | | | | | | | | | | |]; auto.
Qed.

Lemma serve_rel_sequential k : sequential (serve_rel (H := H) k).
Proof.
  destruct (read_rel_sequential k) as [Hrefl Htrans].
  split.
  - intros s. split; [apply Hrefl|]. cbn.
    split; [auto|]. split; [discriminate|]. split; [discriminate|].
    intros v [].
  - intros s1 s2 s3 t1 t2 (AR & AZ & AC & AS & AO) (BR & BZ & BC & BS & BO).
    pose proof AR as (AL & AI & AF & AE & _).
    pose proof BR as (BL & BI & BF & BE & _).
    split; [now apply (Htrans s1 s2 s3)|].
    rewrite closed_app, queue_seen_empty_app.
    split; [auto|]. split; [|split].
    + intros Hc. apply orb_true_iff in Hc as [Hc|Hc]; auto.
    + intros Hq Hlt Hopen Hc. apply orb_false_iff in Hc as [H1 H2].
      destruct (queue_seen_empty t1) eqn:Hq1.
      * destruct (AS eq_refl Hlt Hopen H1) as (He & v & Hv).
        split; [auto|]. exists v. apply in_app_iff. now left.
      * cbn [orb] in Hq.
        destruct (BS Hq) as (He & v & Hv); auto; try congruence.
        { rewrite (AI H1). exact Hopen. }
        split; [exact He|]. exists v. apply in_app_iff. now right.
    + intros v Hin. apply in_app_iff in Hin as [Hin|Hin]; [now apply AO|].
      destruct (BO v Hin) as [Hopen Hv].
      destruct (closed k t1) eqn:Hc1.
      * rewrite (AC eq_refl) in Hopen. now destruct Hopen.
      * rewrite (AI eq_refl) in Hopen. split; [exact Hopen|].
        intros Hk. rewrite (Hv Hk). auto.
Qed.

(** A step that closes nothing and does not look at a queue. *)
Lemma serve_of_read k (s s' : state) t :
  read_rel k s s' t -> closed k t = false -> queue_seen_empty t = false ->
  (slot s k = zero_slot -> slot s' k = zero_slot) ->
  serve_rel k s s' t.
Proof.
  intros Hr Hc Hq Hz. split; [exact Hr|]. rewrite Hc, Hq.
  split; [exact Hz|]. split; [discriminate|]. split; [discriminate|].
  destruct Hr as (_ & _ & _ & _ & Ho). now apply Ho.
Qed.

Lemma fifo_rel_serve k (s s' : state) t :
  fifo_rel s s' t -> read_rel k s s' t -> serve_rel k s s' t.
Proof.
  intros (_ & _ & _ & _ & _ & _ & _ & Fz & Ft & _) Hr.
  apply serve_of_read; auto.
  - apply closed_touches, Ft.
  - now apply queue_seen_touches.
Qed.

Lemma root_fifo_serve k : run_in (serve_rel k) root_fifo.
Proof.
  intros s. apply fifo_rel_serve; [apply root_fifo_rel | apply root_fifo_read].
Qed.

(** A pass reads the firmware version of every slot of the table whose
    channel is open. *)
Lemma for_each_fifo_reports idx (s : state) k :
  k ∈ idx -> infifo (slot s k) <> 0%Z ->
  exists v, In (EvFwversion k v) (trace_of (for_each idx fifo_slot s)).
Proof.
  revert s.
  induction idx as [|i idx IH]; intros s Hin Hopen.
  - inversion Hin.
  - cbn [for_each]. rewrite bind_trace.
    destruct (decide (k = i)) as [->|Hne].
    + rewrite (fifo_slot_open i s Hopen). cbv zeta. unfold trace_of at 1.
      cbn [snd]. eexists. apply in_app_iff. left.
      right. apply in_app_iff. right. now left.
    + destruct (fifo_slot_only i s k Hne) as (Hs & _).
      destruct (IH (state_of (fifo_slot i s))) as (v & Hv).
      * apply elem_of_cons in Hin as [?|?]; [contradiction | assumption].
      * now rewrite Hs.
      * exists v. apply in_app_iff. now right.
Qed.

Lemma process_fifos_serves (s : state) k :
  k < length (keyboard s) -> infifo (slot s k) <> 0%Z ->
  fifo (state_of (process_fifos s)) k = []
  /\ exists v, In (EvFwversion k v) (trace_of (process_fifos s)).
Proof.
  intros Hk Hopen. split.
  - now apply process_fifos_drains.
  - apply for_each_fifo_reports; [|exact Hopen]. apply elem_of_seq.
    unfold DEV_MAX. lia.
Qed.

Lemma after_send_keeps (kb : usbdevice H) :
  infifo (after_send kb) = infifo kb
  /\ (keeps fwversion -> fwversion (after_send kb) = fwversion kb).
Proof.
  destruct keeps_infifo as (Kd & Kt & _).
  unfold after_send. destruct (send_status kb =? 0)%Z.
  - split; [now rewrite Kt, Kd|]. intros (Fd & Ft & _). now rewrite Ft, Fd.
  - split; [apply Kd|]. intros (Fd & _). apply Fd.
Qed.

Lemma no_version_in_head i k sent (rest : list event) v :
  ~ In (EvFwversion k v) rest ->
  ~ In (EvFwversion k v)
      (EvLock (DevLock i) :: EvDequeue i sent :: recovered i sent ++ rest).
Proof.
  intros Hrest. unfold recovered. destruct (sent =? 0)%Z; cbn.
  - intros [Hx|[Hx|[Hx|Hx]]]; try discriminate Hx. auto.
  - intros [Hx|[Hx|Hx]]; try discriminate Hx. auto.
Qed.

Lemma readers_of_head i k sent (rest : list event) :
  closed k (EvLock (DevLock i) :: EvDequeue i sent :: recovered i sent ++ rest)
  = closed k rest
  /\ queue_seen_empty
       (EvLock (DevLock i) :: EvDequeue i sent :: recovered i sent ++ rest)
     = queue_seen_empty rest.
Proof. unfold recovered. now destruct (sent =? 0)%Z. Qed.

(** The body of the outer loop. *)
Lemma sweep_slot_serve k i : run_in (serve_rel k) (sweep_slot i).
Proof.
  destruct keeps_infifo as (_ & _ & _ & Ku).
  intros s.
  destruct (IS_CONNECTED (slot s i)) eqn:Hc.
  2: { rewrite (sweep_slot_skipped i s Hc). apply serve_rel_sequential. }
  pose proof (connected_in_table s i Hc) as Hlt.
  destruct (sweep_slot_rel i s) as (_ & _ & _ & _ & _ & _ & _ & Hz & _).
  specialize (Hz k). revert Hz.
  rewrite (sweep_slot_connected i s Hc).
  destruct (stuck (slot s i)) eqn:Hst.
  - (* the slot is closed *)
    unfold state_of, trace_of. cbn [fst snd]. intros Hz.
    set (t := [EvLock (DevLock i); EvDequeue i 0;
               EvTryReset i (reset_status (slot s i)); EvCloseUsb i]).
    assert (Hcl : closed k t = Nat.eqb i k).
    { unfold t, closed. cbn. now rewrite orb_false_r. }
    split; [|split; [exact Hz|split; [|split]]].
    + apply (read_rel_table k i zero_slot); [reflexivity | auto | |].
      * intros v [Hx|[Hx|[Hx|[Hx|[]]]]]; discriminate Hx.
      * intros -> _. rewrite Hcl, Nat.eqb_refl. discriminate.
    + rewrite Hcl. intros Hik. apply Nat.eqb_eq in Hik. subst k.
      change (slot (put i zero_slot (set_mutex (DevLock i) Self s)) i = zero_slot).
      now apply slot_put_same.
    + discriminate.
    + intros v [Hx|[Hx|[Hx|[Hx|[]]]]]; discriminate Hx.
  - (* line 240 is reached *)
    cbv zeta. set (x := at_queue i s). set (q := queuecount (slot x i)).
    assert (Hx : forall t, (forall v, ~ In (EvFwversion k v) t) ->
                   read_rel k s x t).
    { intros t Hno.
      apply (read_rel_table k i (after_send (slot s i)));
        [reflexivity | auto | exact Hno |].
      intros _ _ _. apply after_send_keeps. }
    destruct (Z.eqb_spec q 0) as [Hq|Hq].
    + (* the queue is empty: a pass *)
      rewrite Hq.
      set (s4 := state_of (process_fifos x)).
      set (t4 := trace_of (process_fifos x)).
      assert (Hr : bind process_fifos
                     (fun _ => call_void updateindicators EvUpdateIndicators i) x
                   = (tt, put i (updateindicators (slot s4 i)) s4,
                      t4 ++ [EvUpdateIndicators i])).
      { unfold bind, s4, t4, state_of, trace_of.
        now destruct (process_fifos x) as [[[] s5] t5]. }
      rewrite Hr. unfold state_of, trace_of. cbn [fst snd].
      set (s' := set_mutex (DevLock i) Free
                   (put i (updateindicators (slot s4 i)) s4)).
      intros Hz.
      pose proof (process_fifos_rel x) as Hfr. fold s4 t4 in Hfr.
      pose proof (fifo_rel_serve k x s4 t4 Hfr (process_fifos_read k x))
        as (Pr & _ & _ & _ & Po).
      pose proof Hfr as (_ & _ & _ & _ & _ & _ & _ & _ & Ft & _).
      pose proof (closed_touches k t4 (Ft k)) as Hc4.
      set (pre := EvLock (DevLock i) :: EvDequeue i (send_status (slot s i))
                  :: recovered i (send_status (slot s i))
                  ++ [EvQueuecount i 0]).
      set (post := [EvUpdateIndicators i; EvUnlock (DevLock i)]).
      assert (Ht : EvLock (DevLock i) :: EvDequeue i (send_status (slot s i))
                   :: recovered i (send_status (slot s i))
                   ++ EvQueuecount i 0
                   :: (t4 ++ [EvUpdateIndicators i]) ++ [EvUnlock (DevLock i)]
                   = pre ++ t4 ++ post).
      { unfold pre, post. cbn [app]. rewrite <- !app_assoc. reflexivity. }
      rewrite Ht.
      assert (Hpre : read_rel k s x pre).
      { apply Hx. intros v. apply no_version_in_head.
        intros [Hin|[]]. discriminate Hin. }
      assert (Hpost : read_rel k s4 s' post).
      { apply (read_rel_table k i (updateindicators (slot s4 i)));
          [reflexivity | auto | |].
        - intros v [Hin|[Hin|[]]]; discriminate Hin.
        - intros _ _ _. split; [apply Ku|]. intros (_ & _ & _ & Fu). apply Fu. }
      assert (Hcpre : closed k pre = false).
      { unfold pre. now rewrite (proj1 (readers_of_head i k _ _)). }
      assert (Hcl : closed k (pre ++ t4 ++ post) = false).
      { rewrite !closed_app, Hcpre, Hc4. reflexivity. }
      assert (Hread : read_rel k s s' (pre ++ t4 ++ post)).
      { destruct (read_rel_sequential k) as [_ Htrans].
        apply (Htrans s x s'); [exact Hpre|].
        apply (Htrans x s4 s'); [exact Pr | exact Hpost]. }
      split; [exact Hread|]. rewrite Hcl.
      split; [exact Hz|]. split; [discriminate|]. split.
      * intros _ Hk Hopen _.
        destruct Hpre as (Hlen & Hi & _). specialize (Hi Hcpre).
        destruct (process_fifos_serves x k) as (He & v & Hv);
          [now rewrite Hlen | now rewrite Hi |].
        split; [exact He|]. exists v.
        apply in_app_iff. right. apply in_app_iff. now left.
      * destruct Hread as (_ & _ & _ & _ & Ho). now apply Ho.
    + (* the queue is not empty *)
      apply Z.eqb_neq in Hq.
      unfold state_of, trace_of. cbn [fst snd app]. intros Hz.
      destruct (readers_of_head i k (send_status (slot s i))
                  [EvQueuecount i q; EvUnlock (DevLock i)]) as [Hcl Hqs].
      apply serve_of_read; [| | |exact Hz].
      * apply (read_rel_table k i (after_send (slot s i)));
          [reflexivity | auto | |].
        -- intros v. apply no_version_in_head.
           intros [Hin|[Hin|[]]]; discriminate Hin.
        -- intros _ _ _. apply after_send_keeps.
      * rewrite Hcl. reflexivity.
      * rewrite Hqs. cbn. now rewrite Hq.
Qed.

Lemma sweep_serve k : run_in (serve_rel k) sweep.
Proof.
  intros s. unfold sweep.
  apply (run_in_for_each (serve_rel k) sweep_slot);
    [apply serve_rel_sequential | intros i _; apply sweep_slot_serve].
Qed.

(** One iteration of the loop. *)
Lemma tick_serve time now k : run_in (serve_rel k) (tick time now).
Proof.
  pose proof (serve_rel_sequential k) as Hseq.
  assert (Hstep : forall (c : M unit) (e : event),
            (forall s, keyboard (state_of (c s)) = keyboard s
                       /\ fifo (state_of (c s)) = fifo s
                       /\ trace_of (c s) = [e]) ->
            (forall v, e <> EvFwversion k v) ->
            closed k [e] = false -> queue_seen_empty [e] = false ->
            run_in (serve_rel k) c).
  { intros c e Hc Hv Hcl Hq s. destruct (Hc s) as (Hkb & Hf & ->).
    apply serve_of_read; auto.
    - apply read_rel_same; [exact Hkb | now rewrite Hf |].
      intros v [Hin|[]]. now apply (Hv v).
    - unfold slot. now rewrite Hkb. }
  unfold tick.
  apply run_in_bind; [exact Hseq | | intros _].
  { apply (Hstep _ (EvLock ListLock)); [now intros s | discriminate | auto..]. }
  apply run_in_bind; [exact Hseq | apply root_fifo_serve | intros _].
  apply run_in_bind; [exact Hseq | apply sweep_serve | intros _].
  apply run_in_bind; [exact Hseq | | intros _].
  { apply (Hstep _ (EvUnlock ListLock)); [|discriminate | auto..].
    intros s. unfold pthread_mutex_unlock, state_of, trace_of. cbn.
    now destruct (kblistmutex s). }
  intros s. unfold state_of, trace_of. cbn [fst snd].
  apply serve_of_read; auto.
  apply read_rel_same; auto.
  intros v [Hin|[]]. discriminate Hin.
Qed.

End ReadFacts.

(** *** The runs of the outer loop *)

Section RunFacts.
Context {H : Type} {helpers : Helpers H}.

Local Abbreviation state := (daemon H).

#[local] Arguments process_fifos : simpl never.
#[local] Arguments root_fifo : simpl never.
#[local] Arguments sweep : simpl never.

Lemma track_sequential k : sequential (track (H := H) k).
Proof.
  split.
  - intros s. unfold track. cbn. repeat split; auto. now intros [].
  - intros s1 s2 s3 t1 t2 (A1 & A2 & A3) (B1 & B2 & B3).
    unfold track. rewrite applied_app, touches_app.
    split; [now rewrite <- app_assoc, B1, A1|].
    assert (Hstay : fifo s2 k = [] -> applied k t2 = [] /\ fifo s3 k = []).
    { intros He. rewrite He in B1. now apply app_eq_nil in B1. }
    split.
    + intros Hne. destruct (applied k t1) as [|l ls] eqn:Ha1.
      * cbn in Hne. auto.
      * apply Hstay, A2. discriminate.
    + intros Hto. apply orb_false_iff in Hto as [H1 H2].
      rewrite (B3 H2), (A3 H1).
      destruct (applied k t1) as [|l ls] eqn:Ha1; [reflexivity|].
      destruct Hstay as [-> _]; [apply A2; discriminate|].
      now rewrite app_nil_r.
Qed.

(** A step that writes one entry of the table and applies no line. *)
Lemma track_table k i kb (s s' : state) t :
  keyboard s' = <[i := kb]> (keyboard s) -> fifo s' = fifo s ->
  applied k t = [] -> (i = k -> touches k t = true) ->
  track k s s' t.
Proof.
  intros Hk Hf Ha Hto. unfold track. rewrite Ha, Hf.
  split; [reflexivity|]. split; [now intros []|].
  intros Hno. cbn. unfold slot. rewrite Hk.
  destruct (decide (i = k)) as [Heq|Hne].
  - rewrite (Hto Heq) in Hno. discriminate.
  - now rewrite list_lookup_insert_ne.
Qed.

Lemma track_same k (s s' : state) t :
  keyboard s' = keyboard s -> fifo s' = fifo s -> applied k t = [] ->
  track k s s' t.
Proof.
  intros Hk Hf Ha. unfold track, slot. rewrite Ha, Hf, Hk. cbn.
  repeat split; auto. now intros [].
Qed.

Lemma fifo_slot_track k i : run_in (track k) (fifo_slot i).
Proof.
  intros s.
  destruct (Z.eq_dec (infifo (slot s i)) 0%Z) as [Hz|Hopen].
  { rewrite (fifo_slot_shut i s Hz). apply track_sequential. }
  pose proof (open_in_table s i Hopen) as Hlt.
  rewrite (fifo_slot_open i s Hopen). unfold state_of, trace_of.
  assert (Hv : forall (c0 : bool) (s2 : state),
            keyboard (if c0 then set_v120 true s2 else s2) = keyboard s2
            /\ fifo (if c0 then set_v120 true s2 else s2) = fifo s2)
    by (intros c0 s2; now destruct c0).
  unfold track, slot.
  destruct (fifo s i) as [|l ls] eqn:Hf; cbv beta iota zeta; cbn [fst snd].
  - match goal with
    | |- context [if ?c then set_v120 true ?s2 else _] =>
        destruct (Hv c s2) as [-> ->]
    end.
    cbn. split; [|split; [now intros []|auto]].
    unfold fupd. destruct (Nat.eqb_spec k i) as [->|Hne]; auto.
  - match goal with
    | |- context [if ?c then set_v120 true ?s2 else _] =>
        destruct (Hv c s2) as [-> ->]
    end.
    cbn [applied app keyboard fifo put set_keyboard set_fifo touches existsb
         about orb].
    unfold fupd.
    destruct (Nat.eqb_spec i k) as [->|Hne].
    + rewrite Nat.eqb_refl, !app_nil_r.
      split; [now rewrite ?app_nil_r, Hf|]. split; [reflexivity|].
      intros _. rewrite list_lookup_insert_eq by exact Hlt. reflexivity.
    + assert (Nat.eqb k i = false) as -> by (apply Nat.eqb_neq; congruence).
      split; [reflexivity|]. split; [now intros []|].
      intros _. now rewrite list_lookup_insert_ne.
Qed.

Lemma process_fifos_track k : run_in (track k) process_fifos.
Proof.
  intros s. unfold process_fifos.
  apply (run_in_for_each (track k) fifo_slot);
    [apply track_sequential | intros i _; apply fifo_slot_track].
Qed.

Lemma root_fifo_track k : run_in (track k) root_fifo.
Proof.
  intros s. rewrite root_fifo_run.
  destruct (Z.eqb_spec (infifo (slot s 0)) 0) as [Hz|Hopen];
    [apply track_sequential|].
  pose proof (open_in_table s 0 Hopen) as Hlt.
  cbv zeta. unfold state_of, trace_of. cbn [fst snd].
  unfold track, slot.
  destruct (fifo s 0) as [|l ls] eqn:Hf.
  - cbn. split; [|split; [now intros []|auto]].
    unfold fupd. destruct (Nat.eqb_spec k 0) as [->|Hne]; auto.
  - cbn [applied app keyboard fifo put set_keyboard set_fifo touches existsb
         about orb].
    unfold fupd.
    destruct (Nat.eqb_spec 0 k) as [<-|Hne].
    + cbn [Nat.eqb]. rewrite !app_nil_r.
      split; [now rewrite ?app_nil_r, Hf|]. split; [reflexivity|].
      intros _. rewrite list_lookup_insert_eq by exact Hlt. reflexivity.
    + assert (Nat.eqb k 0 = false) as -> by (apply Nat.eqb_neq; congruence).
      split; [reflexivity|]. split; [now intros []|].
      intros _. now rewrite list_lookup_insert_ne.
Qed.

Lemma applied_head i k sent (rest : list event) :
  applied k (EvLock (DevLock i) :: EvDequeue i sent :: recovered i sent ++ rest)
  = applied k rest.
Proof. unfold recovered. now destruct (sent =? 0)%Z. Qed.

Lemma touches_head i rest : touches i (EvLock (DevLock i) :: rest) = true.
Proof. unfold touches. cbn. now rewrite Nat.eqb_refl. Qed.

Lemma sweep_slot_track k i : run_in (track k) (sweep_slot i).
Proof.
  intros s.
  destruct (IS_CONNECTED (slot s i)) eqn:Hc.
  2: { rewrite (sweep_slot_skipped i s Hc). apply track_sequential. }
  rewrite (sweep_slot_connected i s Hc).
  destruct (stuck (slot s i)) eqn:Hst.
  - unfold state_of, trace_of. cbn [fst snd].
    apply (track_table k i zero_slot); [reflexivity.. |].
    intros ->. apply touches_head.
  - cbv zeta. set (x := at_queue i s). set (q := queuecount (slot x i)).
    destruct (Z.eqb_spec q 0) as [Hq|Hq].
    + set (s4 := state_of (process_fifos x)).
      set (t4 := trace_of (process_fifos x)).
      assert (Hr : bind process_fifos
                     (fun _ => call_void updateindicators EvUpdateIndicators i) x
                   = (tt, put i (updateindicators (slot s4 i)) s4,
                      t4 ++ [EvUpdateIndicators i])).
      { unfold bind, s4, t4, state_of, trace_of.
        now destruct (process_fifos x) as [[[] s5] t5]. }
      rewrite Hr. unfold state_of, trace_of. cbn [fst snd].
      set (s' := set_mutex (DevLock i) Free
                   (put i (updateindicators (slot s4 i)) s4)).
      set (pre := EvLock (DevLock i) :: EvDequeue i (send_status (slot s i))
                  :: recovered i (send_status (slot s i))
                  ++ [EvQueuecount i q]).
      set (post := [EvUpdateIndicators i; EvUnlock (DevLock i)]).
      assert (Ht : EvLock (DevLock i) :: EvDequeue i (send_status (slot s i))
                   :: recovered i (send_status (slot s i))
                   ++ EvQueuecount i q
                   :: (t4 ++ [EvUpdateIndicators i]) ++ [EvUnlock (DevLock i)]
                   = pre ++ t4 ++ post).
      { unfold pre, post. cbn [app]. rewrite <- !app_assoc. reflexivity. }
      rewrite Ht.
      destruct (track_sequential k) as [_ Htrans].
      apply (Htrans s x s').
      { apply (track_table k i (after_send (slot s i))); [reflexivity.. | |].
        - unfold pre. now rewrite applied_head.
        - intros ->. apply touches_head. }
      apply (Htrans x s4 s'); [apply process_fifos_track|].
      apply (track_table k i (updateindicators (slot s4 i))); [reflexivity.. |].
      intros ->. unfold post, touches. cbn. now rewrite Nat.eqb_refl.
    + unfold state_of, trace_of. cbn [fst snd app].
      apply (track_table k i (after_send (slot s i))); [reflexivity.. | |].
      * now rewrite applied_head.
      * intros ->. apply touches_head.
Qed.

(** The calls of the body are those of the path the slot's device
    selects. *)
Lemma sweep_slot_run i (s : state) :
  slot_run i (slot s i) (trace_of (sweep_slot i s)).
Proof.
  destruct (IS_CONNECTED (slot s i)) eqn:Hc.
  2: { rewrite (sweep_slot_skipped i s Hc). now constructor. }
  pose proof (connected_in_table s i Hc) as Hlt.
  rewrite (sweep_slot_connected i s Hc).
  destruct (stuck (slot s i)) eqn:Hst.
  - unfold trace_of. cbn [snd].
    assert (Hs : send_status (slot s i) = 0%Z).
    { unfold stuck in Hst. apply andb_true_iff in Hst as [Hs _].
      now apply Z.eqb_eq in Hs. }
    now constructor.
  - cbv zeta.
    assert (Hx : slot (at_queue i s) i = after_send (slot s i)).
    { unfold at_queue. now apply slot_put_same. }
    rewrite Hx.
    destruct (Z.eqb_spec (queuecount (after_send (slot s i))) 0) as [Hq|Hq].
    + unfold trace_of at 1. cbn [snd]. rewrite bind_trace.
      unfold call_void at 1. unfold trace_of at 2. cbn [snd].
      rewrite Hq, <- app_assoc.
      apply run_idle; auto. apply process_fifos_events.
    + unfold trace_of. cbn [snd app]. now apply run_busy.
Qed.

Lemma slot_run_calls i (kb : usbdevice H) t : slot_run i kb t -> slot_calls i t.
Proof.
  intros [Hc|Hc Hst|Hc Hst Hq|pass Hc Hst Hq Hp].
  - constructor.
  - apply slot_closed. unfold stuck in Hst.
    apply andb_true_iff in Hst as [_ Hr]. apply negb_true_iff in Hr.
    now apply Z.eqb_neq.
  - now apply slot_busy.
  - now apply slot_idle.
Qed.

Lemma for_each_sweep_runs (s : state) idx :
  NoDup idx ->
  forall (s0 : state) before,
    (forall k, k ∈ idx -> touches k before = false /\ track k s s0 before) ->
    exists per,
      trace_of (for_each idx sweep_slot s0) = concat per
      /\ Forall2 slot_calls idx per
      /\ sweep_runs s before idx per.
Proof.
  intros Hnd. induction Hnd as [|i idx Hi Hnd IH]; intros s0 before Hinv.
  - exists []. repeat split; constructor.
  - cbn [for_each]. rewrite bind_trace.
    set (run := trace_of (sweep_slot i s0)).
    assert (Hrun : slot_run i (device_at s i before) run).
    { destruct (Hinv i ltac:(left)) as (Hto & _ & _ & Hslot).
      unfold device_at. rewrite <- (Hslot Hto). apply sweep_slot_run. }
    destruct (IH (state_of (sweep_slot i s0)) (before ++ run))
      as (per & Hper & Hcalls & Hruns).
    { intros k Hk. destruct (Hinv k ltac:(now right)) as (Hto & Htr).
      assert (Hne : k <> i) by (intros ->; contradiction).
      split.
      - rewrite touches_app, Hto. now apply sweep_slot_untouched.
      - destruct (track_sequential k) as [_ Htrans].
        apply (Htrans s s0 _); [exact Htr | apply sweep_slot_track]. }
    exists (run :: per). cbn [concat]. rewrite Hper.
    split; [reflexivity|]. split.
    + constructor; [|exact Hcalls]. now apply (slot_run_calls i _ run Hrun).
    + now constructor.
Qed.

Lemma tick_runs time now (s : state) :
  exists root per_slot,
    trace_of (tick time now s)
    = EvLock ListLock :: root ++ concat per_slot
      ++ [EvUnlock ListLock; EvNanosleep (value_of (tick time now s))]
    /\ forallb fifo_event root = true
    /\ Forall2 slot_calls (seq 0 (DEV_MAX s)) per_slot
    /\ sweep_runs s root (seq 0 (DEV_MAX s)) per_slot.
Proof.
  rewrite tick_trace.
  destruct (root_phase_rel s) as (_ & _ & _ & Hlen & _ & _ & _ & _ & Hto & _).
  destruct (for_each_sweep_runs s (seq 0 (DEV_MAX (state_of (root_phase s))))
              (NoDup_seq _ _) (state_of (root_phase s))
              (trace_of (root_phase s))) as (per & Hper & Hcalls & Hruns).
  { intros k _. split; [apply Hto|].
    apply (root_fifo_track k (set_mutex ListLock Self s)). }
  exists (trace_of (root_phase s)), per.
  assert (Hmax : DEV_MAX (state_of (root_phase s)) = DEV_MAX s)
    by (unfold DEV_MAX; exact Hlen).
  rewrite Hmax in *.
  split; [|split; [|split]]; auto.
  - unfold sweep_phase, sweep. now rewrite Hmax, Hper.
  - apply root_fifo_events.
Qed.

Lemma gated_sequential : sequential (gated (H := H)).
Proof.
  split; [intros s k v []|].
  intros s1 s2 s3 t1 t2 H1 H2 k v Hin. rewrite queue_seen_empty_app.
  apply in_app_iff in Hin as [Hin|Hin].
  - now rewrite (H1 k v Hin).
  - rewrite (H2 k v Hin). apply orb_true_r.
Qed.

Lemma slot_calls_gated i t : slot_calls i t -> forall k v,
  In (EvFwversion k v) t -> queue_seen_empty t = true.
Proof.
  intros [|r Hr|sent q Hq|sent pass Hp] k v Hin.
  - destruct Hin.
  - destruct Hin as [Hx|[Hx|[Hx|[Hx|[]]]]]; discriminate Hx.
  - exfalso. revert Hin. apply no_version_in_head.
    intros [Hx|[Hx|[]]]; discriminate Hx.
  - rewrite (proj2 (readers_of_head i 0 sent _)). reflexivity.
Qed.

Lemma sweep_slot_gated i : run_in gated (sweep_slot i).
Proof. intros s. exact (slot_calls_gated i _ (sweep_slot_calls i s)). Qed.

Lemma tick_gated time now : run_in gated (tick time now).
Proof.
  pose proof gated_sequential as Hseq.
  unfold tick.
  apply run_in_bind; [exact Hseq | | intros _].
  { intros s k v [Hx|[]]. discriminate Hx. }
  apply run_in_bind; [exact Hseq | | intros _].
  { intros s k v. rewrite root_fifo_run.
    destruct (infifo (slot s 0) =? 0)%Z; [intros []|].
    cbv zeta. unfold trace_of. cbn [snd].
    destruct (fifo s 0); intros Hin; cbn in Hin;
      repeat (destruct Hin as [Hin|Hin]; [discriminate Hin|]); destruct Hin. }
  apply run_in_bind; [exact Hseq | | intros _].
  { intros s. unfold sweep.
    apply (run_in_for_each gated sweep_slot);
      [exact Hseq | intros i _; apply sweep_slot_gated]. }
  apply run_in_bind; [exact Hseq | | intros _].
  { intros s k v [Hx|[]]. discriminate Hx. }
  intros s k v [Hx|[]]. discriminate Hx.
Qed.

End RunFacts.

(** *** Which lines and which firmware versions an iteration reads *)

Section Intake.
Context {H : Type} {helpers : Helpers H}.

Local Abbreviation state := (daemon H).

Lemma fw_seen_In k v t :
  In (EvFwversion k v) t -> (0x0120 <= v)%Z -> fw_seen t = true.
Proof.
  intros Hin Hv. apply existsb_exists. exists (EvFwversion k v).
  split; [exact Hin|]. now apply Z.leb_le.
Qed.

(** C3, as the code has it.  The multiplier an iteration uses for its
    sleep is 12 when [v120] is set at the end of the sweep and 5
    otherwise.  [v120] is never cleared: it is set at the end of the
    sweep exactly when it was set when the iteration began or line 247
    read a firmware version of at least 0x0120 during this iteration.
    Line 247 is only reached in an iteration in which line 240 found the
    outgoing queue of a connected device empty.  When the helpers called
    from the loop leave [infifo] and [fwversion] as they are, every
    version line 247 reads is that of a slot whose channel was open when
    the iteration began; and in an iteration in which line 240 finds a
    queue empty, every slot of the table whose channel is open and that
    is not closed in this iteration has its version read, so that a
    version of at least 0x0120 on such a slot makes the multiplier 12. *)
Theorem tick_multiplier_latched time now (s : state) :
  value_of (tick time now s)
  = wake_deadline (fps s) (v120 (state_of (tick time now s))) time now
  /\ multiplier (state_of (tick time now s))
     = (if v120 (state_of (tick time now s)) then 12 else 5)%Z
  /\ v120 (state_of (tick time now s))
     = v120 s || fw_seen (trace_of (tick time now s))
  /\ (forall k v, In (EvFwversion k v) (trace_of (tick time now s)) ->
        queue_seen_empty (trace_of (tick time now s)) = true)
  /\ (keeps infifo -> keeps fwversion ->
      (forall k v, In (EvFwversion k v) (trace_of (tick time now s)) ->
         infifo (slot s k) <> 0%Z /\ v = fwversion (slot s k))
      /\ (queue_seen_empty (trace_of (tick time now s)) = true ->
          forall k, k < DEV_MAX s -> infifo (slot s k) <> 0%Z ->
            closed k (trace_of (tick time now s)) = false ->
            In (EvFwversion k (fwversion (slot s k)))
              (trace_of (tick time now s))
            /\ ((0x0120 <= fwversion (slot s k))%Z ->
                multiplier (state_of (tick time now s)) = 12%Z))).
Proof.
  destruct (tick_sleep_multiplier time now s) as (Hd & Hm & Hv & _).
  split; [exact Hd|]. split; [exact Hm|]. split; [exact Hv|].
  split; [apply tick_gated|].
  intros Ki Kf.
  assert (Hread : forall k v,
            In (EvFwversion k v) (trace_of (tick time now s)) ->
            infifo (slot s k) <> 0%Z /\ v = fwversion (slot s k)).
  { intros k v Hin.
    destruct (tick_serve Ki time now k s) as (_ & _ & _ & _ & Ho).
    destruct (Ho v Hin) as [Hopen Hver]. auto. }
  split; [exact Hread|].
  intros Hq k Hk Hopen Hc.
  destruct (tick_serve Ki time now k s) as (_ & _ & _ & Hs & _).
  destruct (Hs Hq Hk Hopen Hc) as (_ & v & Hin).
  destruct (Hread k v Hin) as [_ ->].
  split; [exact Hin|]. intros Hv120.
  rewrite Hm, Hv, (fw_seen_In k _ _ Hin Hv120). now rewrite orb_true_r.
Qed.

(** C5, as the code has it.  In every iteration, lines only move from a
    slot's FIFO to [readcmd] for that slot, each once and in arrival
    order: what was applied for a slot, followed by what still waits on
    its FIFO, is what waited when the iteration began.  The root
    controller's FIFO, when open, is read at the head of the iteration
    and ends it empty.  The FIFOs of the other slots are read only by the
    pass of lines 241-250, which runs exactly when line 240 finds the
    outgoing queue of a connected device empty: in an iteration in which
    it never does, they are left as they were and nothing is applied for
    them.  In an iteration in which it does, and when the helpers called
    from the loop leave [infifo] as it is, every slot of the table whose
    channel is open and that is not closed in this iteration has all the
    lines that waited on its FIFO applied, and its FIFO is empty when the
    iteration ends.  Every pass empties the FIFO of every slot of the
    table whose channel is open and applies all of its lines. *)
Theorem tick_command_intake time now (s : state) :
  (forall k, applied k (trace_of (tick time now s))
             ++ fifo (state_of (tick time now s)) k = fifo s k)
  /\ (infifo (slot s 0) <> 0%Z -> fifo (state_of (tick time now s)) 0 = [])
  /\ fifo_pass_ran (trace_of (tick time now s))
     = queue_seen_empty (trace_of (tick time now s))
  /\ (queue_seen_empty (trace_of (tick time now s)) = false ->
      forall k, k <> 0 ->
        fifo (state_of (tick time now s)) k = fifo s k
        /\ applied k (trace_of (tick time now s)) = [])
  /\ (keeps infifo ->
      queue_seen_empty (trace_of (tick time now s)) = true ->
      forall k, k < DEV_MAX s -> infifo (slot s k) <> 0%Z ->
        closed k (trace_of (tick time now s)) = false ->
        fifo (state_of (tick time now s)) k = []
        /\ applied k (trace_of (tick time now s)) = fifo s k)
  /\ (forall (s0 : state) k,
        k < DEV_MAX s0 -> infifo (slot s0 k) <> 0%Z ->
        fifo (state_of (process_fifos s0)) k = []
        /\ applied k (trace_of (process_fifos s0)) = fifo s0 k).
Proof.
  destruct (tick_lines_move time now s) as (H1 & H2 & H3 & H4 & H5).
  split; [exact H1|]. split; [exact H2|]. split; [exact H3|].
  split; [exact H4|]. split; [|exact H5].
  intros Ki Hq k Hk Hopen Hc.
  destruct (tick_serve Ki time now k s) as (_ & _ & _ & Hs & _).
  destruct (Hs Hq Hk Hopen Hc) as (He & _).
  split; [exact He|]. specialize (H1 k). rewrite He, app_nil_r in H1. exact H1.
Qed.

(** X13.  The calls of one iteration of the loop.  It takes
    [kblistmutex]; reads the root controller's FIFO; then has, for each
    slot of the table in index order, the run of calls that the slot's
    device selects - the device being the table entry as the iteration
    found it, after the command lines the iteration has applied to it
    so far: nothing when it is not connected; lock, failed send, failed
    reset, [closeusb] when its send returns 0 and its reset does not;
    otherwise lock, send, a reset that worked if the send had failed,
    and then either the queue found not empty, unlock, or the queue
    found empty, a pass over the FIFOs, [updateindicators], unlock -
    gives [kblistmutex] back, and sleeps once. *)
Theorem tick_call_pattern time now (s : state) :
  exists root per_slot,
    trace_of (tick time now s)
    = EvLock ListLock :: root ++ concat per_slot
      ++ [EvUnlock ListLock; EvNanosleep (value_of (tick time now s))]
    /\ forallb fifo_event root = true
    /\ Forall2 slot_calls (seq 0 (DEV_MAX s)) per_slot
    /\ sweep_runs s root (seq 0 (DEV_MAX s)) per_slot.
Proof. apply tick_runs. Qed.

End Intake.

Section BenchIntake.

Lemma bench_keeps {A : Type} (member : usbdevice bench -> A) :
  (forall kb n, member (bench_set_queue n kb) = member kb) ->
  (forall kb r, member (bench_set_rest r kb) = member kb) ->
  keeps member.
Proof.
  intros Hq Hr. unfold keeps. cbn.
  split; [|split; [|split]].
  - intros kb. unfold bench_usbdequeue.
    destruct (queuecount kb =? 0)%Z; [reflexivity|].
    destruct (link_up (rest kb)); [apply Hq | reflexivity].
  - intros kb. unfold bench_usb_tryreset.
    destruct (resettable (rest kb)); [apply Hr | reflexivity].
  - intros kb lines. unfold bench_readcmd. now rewrite Hq, Hr.
  - reflexivity.
Qed.

Lemma bench_keeps_infifo : keeps (H := bench) infifo.
Proof. now apply bench_keeps. Qed.

Lemma bench_keeps_fwversion : keeps (H := bench) fwversion.
Proof. now apply bench_keeps. Qed.

Lemma tick_multiplier_latched_witness :
  In (EvFwversion 1 288) (trace_of (tick bench_t0 bench_t1 bench_stuck))
  /\ multiplier (state_of (tick bench_t0 bench_t1 bench_stuck)) = 12%Z.
Proof.
  destruct (tick_multiplier_latched bench_t0 bench_t1 bench_stuck)
    as (_ & _ & _ & _ & Hpos).
  destruct (Hpos bench_keeps_infifo bench_keeps_fwversion) as [_ Hrun].
  destruct (Hrun eq_refl 1) as [Hin Hm];
    [cbn; lia | discriminate | reflexivity |].
  split; [exact Hin | apply Hm; cbn; lia].
Defined.

Lemma tick_command_intake_witness :
  fifo (state_of (tick bench_t0 bench_t1 bench_stuck)) 1 = []
  /\ applied 1 (trace_of (tick bench_t0 bench_t1 bench_stuck))
     = ["rgb ff0000"%string].
Proof.
  destruct (tick_command_intake bench_t0 bench_t1 bench_stuck)
    as (_ & _ & _ & _ & Hpass & _).
  apply (Hpass bench_keeps_infifo eq_refl 1);
    [cbn; lia | discriminate | reflexivity].
Defined.

Example bench_mute_trace :
  trace_of (tick bench_t0 bench_t1 bench_mute)
  = [EvLock ListLock; EvReadlines 0 [];
     EvLock (DevLock 1); EvDequeue 1 (-1); EvQueuecount 1 0;
     EvReadlines 0 []; EvFwversion 0 0;
     EvUpdateIndicators 1; EvUnlock (DevLock 1);
     EvUnlock ListLock;
     EvNanosleep {| tv_sec := 100; tv_nsec := 6666666 |}].
Proof. reflexivity. Qed.

(** A slot that is closed before the pass is not read by it: its
    firmware version does not count and its line is left where it
    was. *)
Example bench_late_trace :
  trace_of (tick bench_t0 bench_t1 bench_late)
  = [EvLock ListLock; EvReadlines 0 [];
     EvLock (DevLock 1); EvDequeue 1 0; EvTryReset 1 (-1); EvCloseUsb 1;
     EvLock (DevLock 2); EvDequeue 2 (-1); EvQueuecount 2 0;
     EvReadlines 0 []; EvFwversion 0 0;
     EvReadlines 2 []; EvFwversion 2 256;
     EvUpdateIndicators 2; EvUnlock (DevLock 2);
     EvUnlock ListLock;
     EvNanosleep {| tv_sec := 100; tv_nsec := 6666666 |}].
Proof. reflexivity. Qed.

(** The runs of [bench_idle]: the root controller and the entry in
    slot 1 are skipped, the keyboard in slot 2 gets a pass. *)
Example bench_idle_runs :
  sweep_runs bench_idle [EvReadlines 0 []] [0; 1; 2]
    [[]; [];
     [EvLock (DevLock 2); EvDequeue 2 (-1); EvQueuecount 2 0;
      EvReadlines 0 []; EvFwversion 0 0;
      EvReadlines 2 ["rgb 00ff00"%string]; EvReadcmd 2 ["rgb 00ff00"%string];
      EvFwversion 2 288;
      EvUpdateIndicators 2; EvUnlock (DevLock 2)]].
Proof.
  constructor; [now apply run_skipped|].
  constructor; [now apply run_skipped|].
  constructor; [|constructor].
  exact (run_idle 2 (bench_keyboard 288 0 true true)
           [EvReadlines 0 []; EvFwversion 0 0;
            EvReadlines 2 ["rgb 00ff00"%string];
            EvReadcmd 2 ["rgb 00ff00"%string]; EvFwversion 2 288]
           eq_refl eq_refl eq_refl eq_refl).
Qed.

End BenchIntake.

(** *** ckb-pinwheel: the angle of a key *)

Section PinwheelFacts.
Local Open Scope float_scope.

(** The conversions round to nearest, and [fmod] takes the sign of its
    first argument. *)
Example to_float_rounds :
  to_float 0x1.0000010000001p+0 = 0x1.000002p+0
  /\ to_float 0x1.000001p+0 = 1
  /\ to_float 0x1.000003p+0 = 0x1.000004p+0
  /\ to_float 0x1p-150 = 0
  /\ to_float 0x1.ffffffp+127 = infinity.
Proof. repeat split. Qed.

Example fmod_sign : fmod 7.5 2 = 1.5 /\ fmod (-7.5) 2 = -1.5.
Proof. split; reflexivity. Qed.

(** The part of C9 that holds at the claim's own numbers: with
    [symmetric] on, 190 degrees becomes 170 degrees, to the last bit of
    a [float]; with [symmetric] off it stays what it was. *)
Example mirrored_190_degrees :
  mirrored true (to_float (190 * M_PI / 180)) = to_float (170 * M_PI / 180)
  /\ mirrored false (to_float (190 * M_PI / 180)) = to_float (190 * M_PI / 180).
Proof. split; reflexivity. Qed.

(** C9 fails on the code.  [ckb_frame] is called for the first time
    with [delta = 0.25], so that [frame] is 0.25 and [position] the
    [float] nearest to 3 pi / 2, for a key one unit to the right of the
    centre on the centre line: [atan2(-1, 0)] is - pi / 2.  The key lies
    on the arm of the wheel.  [ANGLE] yields a [double] just below
    2 pi, and the assignment to the [float] [theta] rounds it up to
    6.2831855, which is not below 2 pi; with [symmetric] off it stays
    there, and with [symmetric] on line 86 makes it negative. *)
Theorem pinwheel_angle_leaves_range :
  let frame := advance (-1) 0.25 in
  let theta := raw_theta false (- (M_PI / 2)) (position frame) in
  frame = 0.25
  /\ position frame = 0x1.2d97c8p+2
  /\ ANGLE (ANGLE (- (M_PI / 2)) - position frame) = 0x1.921fb53774eeap+2
  /\ (ANGLE (ANGLE (- (M_PI / 2)) - position frame) <? M_PI * 2) = true
  /\ theta = 0x1.921fb6p+2
  /\ (theta <? M_PI * 2) = false
  /\ mirrored false theta = theta
  /\ mirrored true theta = -0x1.777a5cp-23
  /\ (mirrored true theta <? 0) = true.
Proof. repeat split. Qed.

End PinwheelFacts.
